(** * Cuckoo Cycle CUDA miner: a shallow embedding of [src/cuda_miner.cu]

    The development follows the source file top to bottom: the compile-time
    constants, the [shrinkingset] and [twice_set] bit sets used by the
    trimming kernels, the open-addressed [cuckoo_hash] pointer table, the
    [path] tracer and the cycle-detection loop of [main].

    Machine integers are modelled as [Z]; where the source relies on
    wrap-around (the 64-bit table word, the 32-bit bit-set words) the
    truncation is written out.  Loops that the source leaves unbounded
    (the probe loops of [cuckoo_hash]) take a fuel argument and return
    [None] when the fuel runs out. *)

From Stdlib Require Import ZArith Lia List.
From stdpp Require Import base tactics option list numbers gmap relations.

Local Open Scope Z_scope.

(** ** Compile-time parameters

    [SIZESHIFT] and [PROOFSIZE] come from [cuckoo.h]; [PART_BITS] and
    [IDXSHIFT] are the [#ifndef] parameters of the miner itself. *)

Class Params := {
  SIZESHIFT : Z;
  PART_BITS : Z;
  IDXSHIFT : Z;
  PROOFSIZE : Z
}.

(** The value the source gives [IDXSHIFT] when it is not overridden. *)
Definition default_IDXSHIFT (part_bits : Z) : Z := part_bits + 6.

(** The state of the keyed hash: four 64-bit words. *)
Record siphash_ctx := { v0 : Z; v1 : Z; v2 : Z; v3 : Z }.

(** [cuckoo.h] is not part of the sources: the mixing round [SIPROUND]
    and the host-side edge generator [sipedge] (which maps a nonce to its
    two end points) are parameters of the development. *)
Class EdgeGen := {
  SIPROUND : siphash_ctx -> siphash_ctx;
  sipedge : siphash_ctx -> Z -> Z * Z
}.

Section Constants.
Context `{Params}.

(** Modelled from the spec: [SIZE], [HALFSIZE] and [NODEMASK] are declared
    in [cuckoo.h]; the spec gives [HALFSIZE = 2^(SIZESHIFT-1)] and the
    source masks table values with [SIZE-1]. *)
Definition SIZE : Z := Z.shiftl 1 SIZESHIFT.
Definition HALFSIZE : Z := SIZE / 2.
Definition NODEMASK : Z := HALFSIZE - 1.

Definition MAXPATHLEN : Z := Z.shiftl 8 (SIZESHIFT / 3).

Definition PART_MASK : Z := Z.shiftl 1 PART_BITS - 1.
Definition ONCE_BITS : Z := Z.shiftr HALFSIZE PART_BITS.
Definition TWICE_WORDS : Z := (2 * ONCE_BITS) / 32.

Definition CUCKOO_SIZE : Z := Z.shiftr SIZE IDXSHIFT.
Definition CUCKOO_MASK : Z := CUCKOO_SIZE - 1.
Definition KEYBITS : Z := 64 - SIZESHIFT.
Definition KEYMASK : Z := Z.shiftl 1 KEYBITS - 1.
Definition MAXDRIFT : Z := Z.shiftl 1 (KEYBITS - IDXSHIFT).

End Constants.

(** ** Arrays of machine words *)

Definition u32 (x : Z) : Z := x mod 2 ^ 32.
Definition u64 (x : Z) : Z := x mod 2 ^ 64.

(** [a[i]] and [a[i] = x] on an array held as a list; indices are unsigned
    in the source.  Reads outside the array give 0 and writes outside it
    are dropped: the theorems below only use indices inside the array. *)
Definition rd (a : list Z) (i : Z) : Z := default 0 (a !! Z.to_nat i).
Definition wr (a : list Z) (i : Z) (x : Z) : list Z := <[Z.to_nat i := x]> a.

(** A loop whose body may fail to produce a state. *)
Fixpoint for_opt {A S : Type} (body : A -> S -> option S) (l : list A)
    (st : S) : option S :=
  match l with
  | [] => Some st
  | x :: l' => match body x st with
               | Some st' => for_opt body l' st'
               | None => None
               end
  end.

(** ** [dipnode]: the device-side edge end point *)

Section Dipnode.
Context `{Params} `{EdgeGen}.

Definition dipnode (ctx : siphash_ctx) (nce uorv : Z) : Z :=
  let nonce := u64 (2 * nce + uorv) in
  let s := {| v0 := v0 ctx; v1 := v1 ctx; v2 := v2 ctx;
              v3 := Z.lxor (v3 ctx) nonce |} in
  let s := SIPROUND (SIPROUND s) in
  let s := {| v0 := Z.lxor (v0 s) nonce; v1 := v1 s;
              v2 := Z.lxor (v2 s) 255; v3 := v3 s |} in
  let s := SIPROUND (SIPROUND (SIPROUND (SIPROUND s))) in
  Z.land (Z.lxor (Z.lxor (Z.lxor (v0 s) (v1 s)) (v2 s)) (v3 s)) NODEMASK.

End Dipnode.

(** ** [shrinkingset]: one bit per nonce, set when the edge is dead *)

Definition alive_reset (bits : list Z) (n : Z) : list Z :=
  wr bits (n / 32) (Z.lor (rd bits (n / 32)) (u32 (Z.shiftl 1 (n mod 32)))).

Definition alive_test (bits : list Z) (n : Z) : bool :=
  negb (Z.land (Z.shiftr (rd bits (n / 32)) (n mod 32)) 1 =? 1).

Definition alive_block (bits : list Z) (n : Z) : Z :=
  u32 (Z.lnot (rd bits (n / 32))).

(** [a'] has no alive edge that is dead in [a]. *)
Definition shrinks (a a' : list Z) : Prop :=
  length a' = length a /\
  forall m, alive_test a' m = true -> alive_test a m = true.

(** ** [twice_set]: two bits per node *)

Section TwiceSet.
Context `{Params}.

(** [memset(bits, 0, TWICE_WORDS * sizeof(u32))] *)
Definition twice_reset : list Z := replicate (Z.to_nat TWICE_WORDS) 0.

Definition twice_bit (u : Z) : Z := u32 (Z.shiftl 1 (2 * (u mod 16))).
Definition twice_bit2 (u : Z) : Z := u32 (Z.shiftl (twice_bit u) 1).

(** The first [atomicOr] of [set], with the test made on its result. *)
Definition twice_set_first (bits : list Z) (u : Z) : list Z * bool :=
  let idx := u / 16 in
  let bit := twice_bit u in
  let old := rd bits idx in
  let bit2 := twice_bit2 u in
  (wr bits idx (Z.lor old bit), Z.land old (Z.lor bit2 bit) =? bit).

(** The second, conditional [atomicOr]. *)
Definition twice_set_second (bits : list Z) (u : Z) : list Z :=
  let idx := u / 16 in
  wr bits idx (Z.lor (rd bits idx) (twice_bit2 u)).

(** [set] run by one thread without interruption. *)
Definition twice_set_set (bits : list Z) (u : Z) : list Z :=
  let '(bits', again) := twice_set_first bits u in
  if again then twice_set_second bits' u else bits'.

Definition twice_test (bits : list Z) (u : Z) : Z :=
  Z.land (Z.shiftr (rd bits (u / 16)) (2 * (u mod 16))) 2.

(** The two bits of node [u]: seen once, seen twice. *)
Definition once (bits : list Z) (u : Z) : bool :=
  Z.testbit (rd bits (u / 16)) (2 * (u mod 16)).
Definition twice (bits : list Z) (u : Z) : bool :=
  Z.testbit (rd bits (u / 16)) (2 * (u mod 16) + 1).

(** The nodes that have a counter in an array of [words] words. *)
Definition node_ok (words : nat) (u : Z) : Prop :=
  0 <= u < 16 * Z.of_nat words.

(** The number of times [u] occurs in [l]. *)
Definition occ (u : Z) (l : list Z) : nat :=
  length (filter (fun x => x = u) l).

(** The answer of the counters [nonleaf] for a node. *)
Definition leaf_test (nonleaf : list Z) (u : Z) : bool :=
  twice_test nonleaf u =? 0.

End TwiceSet.

(** ** [cuckoo_hash]: the pointer table *)

Section PathTable.
Context `{Params}.

(** [calloc(CUCKOO_SIZE, sizeof(u64))] *)
Definition cuckoo_new : list Z := replicate (Z.to_nat CUCKOO_SIZE) 0.

(** The word [set] stores: [(u64)u << SIZESHIFT | v]. *)
Definition entry (u v : Z) : Z := Z.lor (u64 (Z.shiftl u SIZESHIFT)) v.

(** The test that ends the probe loop of [set]. *)
Definition set_stops (old u : Z) : bool :=
  (old =? 0) || (Z.shiftr old SIZESHIFT =? Z.land u KEYMASK).

(** The body of the [for] loop of [set], started at slot [ui]. *)
Fixpoint set_probe (fuel : nat) (cuckoo : list Z) (u niew ui : Z)
  : option (list Z) :=
  match fuel with
  | O => None
  | S fuel' =>
      let old := rd cuckoo ui in
      if set_stops old u then Some (wr cuckoo ui niew)
      else set_probe fuel' cuckoo u niew (Z.land (ui + 1) CUCKOO_MASK)
  end.

Definition cuckoo_set (fuel : nat) (cuckoo : list Z) (u v : Z)
  : option (list Z) :=
  set_probe fuel cuckoo u (entry u v) (Z.shiftr u IDXSHIFT).

(** What [operator[]] does when it stops: it returns a node, or its
    [assert] on the probe distance fails. *)
Inductive lookup_result :=
| Found (v : Z)
| DriftAssert.

Fixpoint lookup_probe (fuel : nat) (cuckoo : list Z) (u ui : Z)
  : option lookup_result :=
  match fuel with
  | O => None
  | S fuel' =>
      let cu := rd cuckoo ui in
      if cu =? 0 then Some (Found 0)
      else if Z.shiftr cu SIZESHIFT =? Z.land u KEYMASK then
        if Z.land (ui - Z.shiftr u IDXSHIFT) CUCKOO_MASK <? MAXDRIFT
        then Some (Found (Z.land cu (SIZE - 1)))
        else Some DriftAssert
      else lookup_probe fuel' cuckoo u (Z.land (ui + 1) CUCKOO_MASK)
  end.

Definition cuckoo_lookup (fuel : nat) (cuckoo : list Z) (u : Z)
  : option lookup_result :=
  lookup_probe fuel cuckoo u (Z.shiftr u IDXSHIFT).

(** The slot examined by the [d]-th iteration of either probe loop. *)
Fixpoint probe_slot (u : Z) (d : nat) : Z :=
  match d with
  | O => Z.shiftr u IDXSHIFT
  | S d' => Z.land (probe_slot u d' + 1) CUCKOO_MASK
  end.

(** Both loops revisit the same slots after [CUCKOO_SIZE] iterations, so
    this much fuel decides whether they stop at all. *)
Definition probe_fuel : nat := Z.to_nat CUCKOO_SIZE.

(** The number of iterations after which the probe loops stop for [u],
    counted from the natural slot, when the search starts at iteration
    [k]: both loops stop at the first slot that is empty or holds the
    key. *)
Fixpoint find_stop (fuel : nat) (cuckoo : list Z) (u : Z) (k : nat)
  : option nat :=
  match fuel with
  | O => None
  | S fuel' =>
      if set_stops (rd cuckoo (probe_slot u k)) u then Some k
      else find_stop fuel' cuckoo u (S k)
  end.

Definition probe_dist (cuckoo : list Z) (u : Z) : option nat :=
  find_stop probe_fuel cuckoo u 0.

(** What [operator[]] answers when its loop stops at slot [ui]. *)
Definition lookup_at (cuckoo : list Z) (u ui : Z) : lookup_result :=
  let cu := rd cuckoo ui in
  if cu =? 0 then Found 0
  else if Z.land (ui - Z.shiftr u IDXSHIFT) CUCKOO_MASK <? MAXDRIFT
       then Found (Z.land cu (SIZE - 1))
       else DriftAssert.

(** The key field of a table word. *)
Definition key_of (w : Z) : Z := Z.shiftr w SIZESHIFT.

(** Every slot in use is the slot at which the probe for its key stops. *)
Definition table_wf (cuckoo : list Z) : Prop :=
  length cuckoo = Z.to_nat CUCKOO_SIZE /\
  forall i, 0 <= i < CUCKOO_SIZE -> rd cuckoo i <> 0 ->
    0 < key_of (rd cuckoo i) < SIZE /\
    exists d, probe_dist cuckoo (key_of (rd cuckoo i)) = Some d /\
              probe_slot (key_of (rd cuckoo i)) d = i.

(** A sequence of [set] calls, each with its two arguments. *)
Definition cuckoo_sets (ops : list (Z * Z)) (cuckoo : list Z)
  : option (list Z) :=
  for_opt (fun op c => cuckoo_set probe_fuel c op.1 op.2) ops cuckoo.

(** The number of slots in use. *)
Definition occupied (cuckoo : list Z) : nat :=
  length (filter (fun x => x ≠ 0) cuckoo).

(** The shifts of the table make sense: the index shift does not exceed
    the size shift and a table word holds a key and a value. *)
Definition table_ok : Prop := 0 <= IDXSHIFT <= SIZESHIFT /\ SIZESHIFT < 64.

(** The arguments [set] is called with: a node other than the sentinel
    and a node. *)
Definition valid_op (op : Z * Z) : Prop :=
  0 < op.1 < SIZE /\ 0 <= op.2 < SIZE.

(** The keys found in the table are keys that were set. *)
Definition keys_from (ops : list (Z * Z)) (c : list Z) : Prop :=
  forall i, 0 <= i < CUCKOO_SIZE -> rd c i <> 0 -> key_of (rd c i) ∈ ops.*1.

End PathTable.

(** ** The pointer table as a finite map *)

(** The finite map a sequence of [set] calls describes: a later call
    for a key replaces the earlier ones. *)
Definition sets_map (m : gmap Z Z) (ops : list (Z * Z)) : gmap Z Z :=
  foldl (fun m op => <[op.1 := op.2]> m) m ops.

Section PathTableDefs.
Context `{Params}.

(** The table [c] holds the pointers of [m]: every word in use is the
    word of a pointer of [m], every pointer of [m] has its word, and
    there are as many words in use as pointers. *)
Record table_holds (c : list Z) (m : gmap Z Z) : Prop := {
  th_wf : table_wf c;
  th_word : forall i, 0 <= i < CUCKOO_SIZE -> rd c i <> 0 ->
      m !! key_of (rd c i) = Some (Z.land (rd c i) (SIZE - 1));
  th_ptr : forall k v, m !! k = Some v ->
      0 < k < SIZE /\ 0 <= v < SIZE /\
      exists i, 0 <= i < CUCKOO_SIZE /\ rd c i = entry k v;
  th_size : occupied c = size m
}.

End PathTableDefs.

(** The node a map of pointers sends [k] to; the sentinel when [k] has
    no pointer. *)
Definition next (m : gmap Z Z) (k : Z) : Z := default 0 (m !! k).

(** The node reached from [k] after [n] pointers. *)
Fixpoint walk (m : gmap Z Z) (n : nat) (k : Z) : Z :=
  match n with
  | O => k
  | S n' => walk m n' (next m k)
  end.

(** The pointers form a forest: from every node they lead to the
    sentinel, and the sentinel has no pointer. *)
Definition forest (m : gmap Z Z) : Prop :=
  m !! 0 = None /\ forall k, exists n, walk m n k = 0.

(** ** The trimming kernels, one thread at a time *)

Section Kernels.
Context `{Params} `{EdgeGen}.

(** [for (nonce = block; alive32; alive32 >>= 1, nonce++)
       if (alive32 & 1) body(nonce)]:
    the shift walks down the binary digits of [alive32]. *)
Fixpoint for_bits {S : Type} (body : Z -> S -> S)
    (alive32 : positive) (nonce : Z) (st : S) : S :=
  match alive32 with
  | xH => body nonce st
  | xO p => for_bits body p (nonce + 1) st
  | xI p => for_bits body p (nonce + 1) (body nonce st)
  end.

Definition for_alive32 {S : Type} (body : Z -> S -> S)
    (alive32 nonce : Z) (st : S) : S :=
  match alive32 with
  | Zpos p => for_bits body p nonce st
  | _ => st
  end.

(** [for (block = id*32; block < HALFSIZE; block += nthreads*32) body(block)];
    [None] when the loop is still running after [fuel] iterations.  The
    additions are exact: the theorems keep [block + step] below [2^32]. *)
Fixpoint for_blocks {S : Type} (fuel : nat) (body : Z -> S -> S)
    (step block : Z) (st : S) : option S :=
  if block <? HALFSIZE then
    match fuel with
    | O => None
    | S fuel' => for_blocks fuel' body step (block + step) (body block st)
    end
  else Some st.

(** No thread runs more than one iteration per 32-nonce block. *)
Definition block_fuel : nat := Z.to_nat (HALFSIZE / 32 + 1).

(** The nonces for which the loop over [alive32] runs its body, in the
    order in which it reaches them. *)
Fixpoint bits_list (alive32 : positive) (nonce : Z) : list Z :=
  match alive32 with
  | xH => [nonce]
  | xO p => bits_list p (nonce + 1)
  | xI p => nonce :: bits_list p (nonce + 1)
  end.

Definition alive32_list (alive32 nonce : Z) : list Z :=
  match alive32 with
  | Zpos p => bits_list p nonce
  | _ => []
  end.

(** The blocks on which the loop over [block] runs its body. *)
Fixpoint blocks_from (fuel : nat) (step block : Z) : option (list Z) :=
  if block <? HALFSIZE then
    match fuel with
    | O => None
    | S fuel' => cons block <$> blocks_from fuel' step (block + step)
    end
  else Some [].

(** All blocks of the nonce range. *)
Definition all_blocks : list Z :=
  (fun k => 32 * k) <$> seqZ 0 (HALFSIZE / 32).



(** The number of alive nonces. *)
Definition alive_count (bits : list Z) : nat :=
  length (filter (fun n => alive_test bits n) (seqZ 0 HALFSIZE)).

Definition count_node_deg_nonce (ctx : siphash_ctx) (uorv part : Z)
    (nonce : Z) (nonleaf : list Z) : list Z :=
  let u := dipnode ctx nonce uorv in
  if Z.land u PART_MASK =? part
  then twice_set_set nonleaf (Z.shiftr u PART_BITS)
  else nonleaf.

(** The body of [count_node_deg] for the thread with index [id]. *)
Definition count_node_deg (ctx : siphash_ctx) (alive : list Z)
    (nthreads uorv part id : Z) (nonleaf : list Z) : option (list Z) :=
  for_blocks block_fuel
    (fun block nl =>
       for_alive32 (count_node_deg_nonce ctx uorv part)
                   (alive_block alive block) block nl)
    (nthreads * 32) (id * 32) nonleaf.

Definition kill_leaf_edges_nonce (ctx : siphash_ctx) (nonleaf : list Z)
    (uorv part : Z) (nonce : Z) (alive : list Z) : list Z :=
  let u := dipnode ctx nonce uorv in
  if Z.land u PART_MASK =? part then
    if twice_test nonleaf (Z.shiftr u PART_BITS) =? 0
    then alive_reset alive nonce
    else alive
  else alive.

(** One iteration of the outer loop of [kill_leaf_edges]. *)
Definition kill_leaf_edges_block (ctx : siphash_ctx) (nonleaf : list Z)
    (uorv part : Z) (block : Z) (alive : list Z) : list Z :=
  for_alive32 (kill_leaf_edges_nonce ctx nonleaf uorv part)
              (alive_block alive block) block alive.

(** The body of [kill_leaf_edges] for the thread with index [id]. *)
Definition kill_leaf_edges (ctx : siphash_ctx) (nonleaf : list Z)
    (nthreads uorv part id : Z) (alive : list Z) : option (list Z) :=
  for_blocks block_fuel (kill_leaf_edges_block ctx nonleaf uorv part)
    (nthreads * 32) (id * 32) alive.

End Kernels.

(** ** Kernel launches and the trimming rounds

    A launch [kernel<<<nthreads,1>>>] runs the kernel body once for every
    thread index below [nthreads].  The threads share the two bit sets.
    An execution is described by a schedule: the list of thread indices
    in the order in which the threads take their steps.

    In [count_node_deg] a step is one [atomicOr] on [nonleaf]; the alive
    bits are only read.  In [kill_leaf_edges] a step is one iteration of
    the outer loop: the iteration reads and writes a single word of the
    alive bits, the threads work on disjoint words, and [nonleaf] is only
    read. *)

(** A thread of [count_node_deg]: the nodes it still has to pass to
    [nonleaf.set], and the node of a [set] that is between its two
    [atomicOr]s. *)
Record cthread := { pend : option Z; todo : list Z }.

(** The schedules of one run: for every round, side and partition, the
    schedule of the counting launch ([false]) and of the killing launch
    ([true]). *)
Definition scheduler : Type := Z -> Z -> Z -> bool -> list nat.

(** The steps a thread of the counting launch still has to take. *)
Definition count_work (t : cthread) : nat :=
  (2 * length (todo t) + match pend t with Some _ => 1 | None => 0 end)%nat.

(** What holds between the counters, the threads and the list [done] of
    the nodes whose first [atomicOr] has been made, at every point of an
    execution that marks the nodes of [total]. *)
Record count_inv (L : nat) (total bits : list Z) (ths : list cthread)
    (done : list Z) : Prop := {
  ci_len : length bits = L;
  ci_perm : done ++ concat (todo <$> ths) ≡ₚ total;
  ci_ok : Forall (node_ok L) total;
  ci_once : forall u, node_ok L u ->
      once bits u = true <-> (1 <= occ u done)%nat;
  ci_twice : forall u, node_ok L u ->
      twice bits u = true -> (2 <= occ u done)%nat;
  ci_pend : forall u, node_ok L u -> (2 <= occ u done)%nat ->
      twice bits u = true \/
      exists i t, ths !! i = Some t /\ pend t = Some u;
  ci_pend_ok : forall i t u, ths !! i = Some t -> pend t = Some u ->
      node_ok L u /\ (2 <= occ u done)%nat
}.

Section Launch.
Context `{Params} `{EdgeGen}.

(** The blocks thread [id] visits, in order. *)
Definition thread_blocks (nthreads id : Z) : option (list Z) :=
  for_blocks block_fuel (fun block l => l ++ [block])
             (nthreads * 32) (id * 32) [].

(** The calls of [nonleaf.set] made for one block, in order. *)
Definition block_marks (ctx : siphash_ctx) (alive : list Z)
    (uorv part : Z) (block : Z) : list Z :=
  for_alive32
    (fun nonce l =>
       let u := dipnode ctx nonce uorv in
       if Z.land u PART_MASK =? part then l ++ [Z.shiftr u PART_BITS]
       else l)
    (alive_block alive block) block [].

Definition count_thread (ctx : siphash_ctx) (alive : list Z)
    (nthreads uorv part id : Z) : option cthread :=
  bs ← thread_blocks nthreads id;
  Some {| pend := None;
          todo := concat (block_marks ctx alive uorv part <$> bs) |}.

(** Thread [i] takes its next step, if it has one. *)
Definition count_step (st : list Z * list cthread) (i : nat)
  : list Z * list cthread :=
  let '(bits, ths) := st in
  match ths !! i with
  | Some {| pend := Some u; todo := l |} =>
      (twice_set_second bits u, <[i := {| pend := None; todo := l |}]> ths)
  | Some {| pend := None; todo := u :: l |} =>
      let '(bits', again) := twice_set_first bits u in
      (bits',
       <[i := {| pend := if again then Some u else None; todo := l |}]> ths)
  | _ => st
  end.

Definition cthread_done (t : cthread) : bool :=
  match pend t, todo t with
  | None, [] => true
  | _, _ => false
  end.

(** [count_node_deg<<<nthreads,1>>>] under a schedule; [None] when a
    thread never leaves its loop or the schedule stops before every
    thread has finished. *)
Definition count_launch (ctx : siphash_ctx) (alive : list Z)
    (nthreads uorv part : Z) (sched : list nat) (nonleaf : list Z)
  : option (list Z) :=
  ths ← mapM (count_thread ctx alive nthreads uorv part) (seqZ 0 nthreads);
  let '(bits, ths') := foldl count_step (nonleaf, ths) sched in
  if forallb cthread_done ths' then Some bits else None.

Definition kill_step (ctx : siphash_ctx) (nonleaf : list Z) (uorv part : Z)
    (st : list Z * list (list Z)) (i : nat) : list Z * list (list Z) :=
  let '(alive, ths) := st in
  match ths !! i with
  | Some (block :: l) =>
      (kill_leaf_edges_block ctx nonleaf uorv part block alive,
       <[i := l]> ths)
  | _ => st
  end.

(** [kill_leaf_edges<<<nthreads,1>>>] under a schedule. *)
Definition kill_launch (ctx : siphash_ctx) (nonleaf : list Z)
    (nthreads uorv part : Z) (sched : list nat) (alive : list Z)
  : option (list Z) :=
  ths ← mapM (thread_blocks nthreads) (seqZ 0 nthreads);
  let '(alive', ths') := foldl (kill_step ctx nonleaf uorv part)
                               (alive, ths) sched in
  if forallb (fun l => bool_decide (l = [])) ths' then Some alive' else None.

(** The body of the three nested loops of [main]. *)
Definition trim_pass (ctx : siphash_ctx) (nthreads : Z) (sched : scheduler)
    (round uorv part : Z) (alive : list Z) : option (list Z) :=
  nonleaf ← count_launch ctx alive nthreads uorv part
                         (sched round uorv part false) twice_reset;
  kill_launch ctx nonleaf nthreads uorv part (sched round uorv part true)
              alive.

(** [cudaMemset(ctx.alive.bits, 0, edgeBytes)] *)
Definition alive_new : list Z := replicate (Z.to_nat (HALFSIZE / 32)) 0.

(** The trimming loops of [main]; the round counter is unsigned. *)
Definition trim (ctx : siphash_ctx) (nthreads ntrims : Z)
    (sched : scheduler) (alive : list Z) : option (list Z) :=
  for_opt (fun round =>
    for_opt (fun uorv =>
      for_opt (trim_pass ctx nthreads sched round uorv)
              (seqZ 0 (PART_MASK + 1)))
      [0; 1])
    (seqZ 0 (u32 ntrims)) alive.

(** ** Trimming without threads

    What one pass computes, written without threads or schedules: the
    counters are replaced by the number of marks of each node, and every
    word of the alive bits is treated on its own. *)

(** The shape of graph the trimming kernels are written for: at least
    one 32-nonce block per partition and nonces of at most 32 bits. *)
Definition trim_ok : Prop :=
  0 <= PART_BITS /\ PART_BITS + 6 <= SIZESHIFT /\ SIZESHIFT <= 32.

(** Whether [kill_leaf_edges] kills [nonce], [leaf] being the answer of
    the counters for a node. *)
Definition kills (ctx : siphash_ctx) (leaf : Z -> bool) (uorv part : Z)
    (nonce : Z) : bool :=
  let u := dipnode ctx nonce uorv in
  (Z.land u PART_MASK =? part) && leaf (Z.shiftr u PART_BITS).

(** The word of the alive bits for [block] after the pass. *)
Definition kill_word (ctx : siphash_ctx) (leaf : Z -> bool) (uorv part : Z)
    (block w : Z) : Z :=
  foldl (fun w n => Z.lor w (u32 (Z.shiftl 1 (n mod 32)))) w
        (filter (fun n => kills ctx leaf uorv part n)
                (alive32_list (u32 (Z.lnot w)) block)).

(** All calls of [nonleaf.set] of one counting launch. *)
Definition all_marks (ctx : siphash_ctx) (alive : list Z) (uorv part : Z)
  : list Z :=
  concat (block_marks ctx alive uorv part <$> all_blocks).

(** A node is a leaf when it is marked less than twice. *)
Definition leaf_of (marks : list Z) (u : Z) : bool :=
  negb (bool_decide (2 <= occ u marks)%nat).

Definition trim_pass_seq (ctx : siphash_ctx) (uorv part : Z)
    (alive : list Z) : list Z :=
  imap (fun i w =>
          kill_word ctx (leaf_of (all_marks ctx alive uorv part)) uorv part
                    (32 * Z.of_nat i) w)
       alive.

Definition trim_seq (ctx : siphash_ctx) (ntrims : Z) (alive : list Z)
  : list Z :=
  foldl (fun a _ =>
    foldl (fun a uorv =>
      foldl (fun a part => trim_pass_seq ctx uorv part a)
            a (seqZ 0 (PART_MASK + 1)))
      a [0; 1])
    alive (seqZ 0 (u32 ntrims)).

(** Where an execution of the killing launch stands: the blocks still to
    be visited are in the lists of the threads, and exactly the words of
    the other blocks have been rewritten. *)
Record kill_inv (ctx : siphash_ctx) (leaf : Z -> bool) (uorv part : Z)
    (a0 a : list Z) (ths : list (list Z)) : Prop := {
  ki_len : length a = length a0;
  ki_nodup : NoDup (concat ths);
  ki_sub : forall b, b ∈ concat ths -> b ∈ all_blocks;
  ki_word : forall i, 0 <= i < Z.of_nat (length a0) ->
      rd a i = if bool_decide (32 * i ∈ all_blocks /\ 32 * i ∉ concat ths)
               then kill_word ctx leaf uorv part (32 * i) (rd a0 i)
               else rd a0 i
}.

(** The schedule in which thread 0 runs to its end, then thread 1, and
    so on: every thread is named often enough to finish. *)
Definition in_turn (nthreads : Z) : list nat :=
  concat ((fun id => replicate (2 * Z.to_nat HALFSIZE + 1) id)
            <$> seq 0 (Z.to_nat nthreads)).

End Launch.

(** ** The degree of a node *)

Section TrimDefs.
Context `{Params} `{EdgeGen}.

(** The number of alive edges whose end point on side [uorv] is [u]. *)
Definition degree (ctx : siphash_ctx) (alive : list Z) (uorv u : Z) : nat :=
  length (filter (fun n => alive_test alive n && (dipnode ctx n uorv =? u))
                 (seqZ 0 HALFSIZE)).

End TrimDefs.

(** ** The host side: output, termination and the cycle finder *)

(** What the host prints, one constructor per [printf] of the source. *)
Inductive event :=
| EFinalLoad (load : Z)        (* "final load %d%%\n" *)
| EOverloaded                  (* "overloaded! exiting..." *)
| ECycleFound (len pct : Z)    (* "% 4d-cycle found at %d:%d%%\n" *)
| ESolution                    (* "Solution" *)
| ENonce (n : Z)               (* " %lx" *)
| ENewline                     (* "\n" *)
| EMaxPath                     (* "maximum path length exceeded\n" *)
| EIllegalCycle (len : Z).     (* "illegal % 4d-cycle\n" *)

(** The ways the process stops other than by returning from [main]. *)
Inductive halt :=
| Exit (code : Z)              (* exit(code) *)
| AssertFailed                 (* an assert that does not hold *)
| Diverges.                    (* a loop that never ends *)

Inductive res (A : Type) :=
| Ret (a : A)
| Halt (h : halt).
Arguments Ret {A} a.
Arguments Halt {A} h.

(** Host computations: the text printed so far and how the step ended. *)
Definition M (A : Type) : Type := list event * res A.

Definition print (e : event) : M unit := ([e], Ret tt).
Definition stop {A : Type} (h : halt) : M A := ([], Halt h).

#[global] Instance M_ret : MRet M := fun A a => ([], Ret a).
#[global] Instance M_bind : MBind M := fun A B f m =>
  match m with
  | (out, Ret a) => let '(out', r) := f a in (out ++ out', r)
  | (out, Halt h) => (out, Halt h)
  end.

Arguments M_ret : simpl never.
Arguments M_bind : simpl never.

Fixpoint forM {A S : Type} (body : A -> S -> M S) (l : list A) (st : S)
  : M S :=
  match l with
  | [] => mret st
  | x :: l' => st' ← body x st; forM body l' st'
  end.

(** [typedef std::pair<node_t,node_t> edge;] *)
Abbreviation edge := (Z * Z)%type.

(** The arrays the cycle finder works on. *)
Record finder := { cuckoo : list Z; us : list Z; vs : list Z }.

Section Host.
Context `{Params} `{EdgeGen}.

(** [cuckoo[u]] *)
Definition lookupM (cuckoo : list Z) (u : Z) : M Z :=
  match cuckoo_lookup probe_fuel cuckoo u with
  | None => stop Diverges
  | Some DriftAssert => stop AssertFailed
  | Some (Found v) => mret v
  end.

(** [cuckoo.set(u, v)] *)
Definition setM (cuckoo : list Z) (u v : Z) : M (list Z) :=
  match cuckoo_set probe_fuel cuckoo u v with
  | None => stop Diverges
  | Some c => mret c
  end.

(** [while (nu-- && us[nu] != u) ;] and the value of [nu] it leaves. *)
Fixpoint path_search (us : list Z) (u : Z) (nu : nat) : Z :=
  match nu with
  | O => u32 (-1)
  | S n => if rd us (Z.of_nat n) =? u then Z.of_nat n
           else path_search us u n
  end.

(** The loop of [path], entered with the current [u] and [nu]. *)
Fixpoint path_loop (fuel : nat) (cuckoo us : list Z) (u nu : Z)
  : M (Z * list Z) :=
  if u =? 0 then mret (nu, us)
  else
    match fuel with
    | O => stop Diverges
    | S fuel' =>
        let nu := nu + 1 in
        if MAXPATHLEN <=? nu then
          let nu := path_search us u (Z.to_nat nu) in
          (if nu =? u32 (Z.lnot 0) then print EMaxPath
           else print (EIllegalCycle (MAXPATHLEN - nu)));;
          stop (Exit 0)
        else
          let us := wr us nu u in
          u' ← lookupM cuckoo u;
          path_loop fuel' cuckoo us u' nu
    end.

Definition path (cuckoo : list Z) (u : Z) (us : list Z) : M (Z * list Z) :=
  path_loop (Z.to_nat MAXPATHLEN) cuckoo us u 0.

(** One iteration of the loop of [path] that stays inside the trail:
    the state is the trail, the current node and the index. *)
Inductive path_step (cuckoo : list Z)
  : list Z * Z * Z -> list Z * Z * Z -> Prop :=
| path_step_next us u nu u' :
    u <> 0 -> nu + 1 < MAXPATHLEN -> lookupM cuckoo u = mret u' ->
    path_step cuckoo (us, u, nu) (wr us (nu + 1) u, u', nu + 1).

(** [for (nu -= min, nv -= min; us[nu] != vs[nv]; nu++, nv++) ;]
    run for at most [k] steps: after [min] steps the two indices are back
    at the values where the trails were found to meet. *)
Fixpoint join (k : nat) (us vs : list Z) (nu nv : Z) : Z * Z :=
  match k with
  | O => (nu, nv)
  | S k' => if rd us nu =? rd vs nv then (nu, nv)
            else join k' us vs (nu + 1) (nv + 1)
  end.

(** [while (nu--) cycle.insert(edge(us[(nu+1)&~1], us[nu|1]));] *)
Fixpoint collect_us (us : list Z) (nu : nat) (cycle : gset edge)
  : gset edge :=
  match nu with
  | O => cycle
  | S n =>
      let nu := Z.of_nat n in
      collect_us us n
        ({[ (rd us (Z.land (nu + 1) (Z.lnot 1)), rd us (Z.lor nu 1)) ]}
           ∪ cycle)
  end.

(** [while (nv--) cycle.insert(edge(vs[nv|1], vs[(nv+1)&~1]));] *)
Fixpoint collect_vs (vs : list Z) (nv : nat) (cycle : gset edge)
  : gset edge :=
  match nv with
  | O => cycle
  | S n =>
      let nv := Z.of_nat n in
      collect_vs vs n
        ({[ (rd vs (Z.lor nv 1), rd vs (Z.land (nv + 1) (Z.lnot 1))) ]}
           ∪ cycle)
  end.

(** The edges of the cycle closed by the edge [(us[0], vs[0])]. *)
Definition cycle_edges (us vs : list Z) (nu nv : Z) : gset edge :=
  collect_vs vs (Z.to_nat nv)
    (collect_us us (Z.to_nat nu) {[ (rd us 0, rd vs 0) ]}).

(** The end points of the alive nonces among [l], as a set. *)
Definition alive_edges (ctx : siphash_ctx) (bits : list Z) (l : list Z)
  : gset edge :=
  list_to_set (sipedge ctx <$> filter (fun nce => alive_test bits nce) l).

(** The alive nonces among [l] whose end points are in [cycle]. *)
Definition matching (ctx : siphash_ctx) (bits : list Z) (cycle : gset edge)
    (l : list Z) : list Z :=
  filter (fun nce => alive_test bits nce /\ sipedge ctx nce ∈ cycle) l.

(** The body of the scan over [nce]; [nonce] is the loop variable of the
    enclosing loop, which is what the source hands to [printf]. *)
Definition solution_nonce (ctx : siphash_ctx) (bits : list Z) (nonce : Z)
    (nce : Z) (st : gset edge * Z) : M (gset edge * Z) :=
  let '(cycle, n) := st in
  if alive_test bits nce then
    let e := sipedge ctx nce in
    if bool_decide (e ∈ cycle) then
      print (ENonce nonce);;
      mret (if 2 <? PROOFSIZE then cycle ∖ {[ e ]} else cycle, n + 1)
    else mret st
  else mret st.

Definition solution_scan (ctx : siphash_ctx) (bits : list Z) (nonce : Z)
    (cycle : gset edge) : M (gset edge * Z) :=
  forM (solution_nonce ctx bits nonce) (seqZ 0 HALFSIZE) (cycle, 0).

(** The block guarded by [len == PROOFSIZE]. *)
Definition solution (ctx : siphash_ctx) (bits us vs : list Z)
    (nu nv nonce : Z) : M unit :=
  print ESolution;;
  '(_, n) ← solution_scan ctx bits nonce (cycle_edges us vs nu nv);
  (if n =? u32 PROOFSIZE then mret tt else stop AssertFailed);;
  print ENewline.

(** [while (nu--) cuckoo.set(us[nu+1], us[nu]);] *)
Fixpoint relink (cuckoo us : list Z) (nu : nat) : M (list Z) :=
  match nu with
  | O => mret cuckoo
  | S n =>
      c ← setM cuckoo (rd us (Z.of_nat n + 1)) (rd us (Z.of_nat n));
      relink c us n
  end.

(** The body of the two nested loops of [main], for one [nonce]. *)
Definition find_cycle (ctx : siphash_ctx) (bits : list Z) (nonce : Z)
    (st : finder) : M finder :=
  if alive_test bits nonce then
    let '(u0, v0) := sipedge ctx nonce in
    if u0 =? 0 then mret st
    else
      let us := wr (us st) 0 u0 in
      u ← lookupM (cuckoo st) u0;
      let vs := wr (vs st) 0 v0 in
      v ← lookupM (cuckoo st) v0;
      '(nu, us) ← path (cuckoo st) u us;
      '(nv, vs) ← path (cuckoo st) v vs;
      if rd us nu =? rd vs nv then
        let min := if nu <? nv then nu else nv in
        let '(nu, nv) := join (Z.to_nat min) us vs (nu - min) (nv - min) in
        let len := nu + nv + 1 in
        print (ECycleFound len (u32 (nonce * 100 / HALFSIZE)));;
        (if len =? u32 PROOFSIZE then solution ctx bits us vs nu nv nonce
         else mret tt);;
        mret {| cuckoo := cuckoo st; us := us; vs := vs |}
      else if nu <? nv then
        c ← relink (cuckoo st) us (Z.to_nat nu);
        c ← setM c u0 v0;
        mret {| cuckoo := c; us := us; vs := vs |}
      else
        c ← relink (cuckoo st) vs (Z.to_nat nv);
        c ← setM c v0 u0;
        mret {| cuckoo := c; us := us; vs := vs |}
  else mret st.

(** [for (u32 b = ~bits[i]; b; b &= b-1) cnt++;] *)
Fixpoint count_bits (fuel : nat) (b cnt : Z) : Z :=
  if b =? 0 then cnt
  else match fuel with
       | O => cnt
       | S fuel' => count_bits fuel' (Z.land b (b - 1)) (cnt + 1)
       end.

(** The count of surviving edges; a 32-bit word has at most 32 bits set.
    The count is exact: with at most 32 size bits, which the theorems
    about the load assume, there are at most [2^31] edges and the [u32]
    counter of the source does not wrap. *)
Definition count_alive (bits : list Z) : Z :=
  foldl (fun cnt i => count_bits 32 (u32 (Z.lnot (rd bits i))) cnt)
        0 (seqZ 0 (HALFSIZE / 32)).

(** [u32 load = (u32)(100L * cnt / CUCKOO_SIZE);] for a table of at
    least one slot. *)
Definition final_load (bits : list Z) : Z :=
  u32 (100 * count_alive bits / CUCKOO_SIZE).

Definition finder_new : finder :=
  {| cuckoo := cuckoo_new;
     us := replicate (Z.to_nat MAXPATHLEN) 0;
     vs := replicate (Z.to_nat MAXPATHLEN) 0 |}.

(** The cycle-detection loops of [main]. *)
Definition find_cycles (ctx : siphash_ctx) (bits : list Z) : M finder :=
  forM (fun block st =>
          forM (find_cycle ctx bits)
               (seqZ block (Z.min 32 (HALFSIZE - block))) st)
       ((fun k => 32 * k) <$> seqZ 0 ((HALFSIZE + 31) / 32))
       finder_new.

(** [main] from the point where the alive bits are back on the host;
    the value returned is the exit status of a normal return. *)
Definition main_host (ctx : siphash_ctx) (bits : list Z) : M Z :=
  let load := final_load bits in
  print (EFinalLoad load);;
  (if 90 <=? load then print EOverloaded;; stop (Exit 0) else mret tt);;
  find_cycles ctx bits;;
  mret 0.


End Host.

(** ** Notions for the properties of the host side *)

Section PathDefs.
Context `{Params} `{EdgeGen}.

(** [a] is a node other than the sentinel and the table sends it to [b]. *)
Definition follows (cuckoo : list Z) (a b : Z) : Prop :=
  a <> 0 /\ lookupM cuckoo a = mret b.

End PathDefs.

(** The calls of [set] made by [while (nu--) cuckoo.set(us[nu+1], us[nu]);],
    in order. *)
Fixpoint relink_ops (us : list Z) (nu : nat) : list (Z * Z) :=
  match nu with
  | O => []
  | S n => (rd us (Z.of_nat n + 1), rd us (Z.of_nat n)) :: relink_ops us n
  end.

(** A host computation ends well when it returns a value that satisfies
    [Q], leaves through [exit(0)], or fails the assertion of the solution
    block: it does not run for ever and does not fail the assertion of
    [operator[]]. *)
Definition ends_well {A : Type} (Q : A -> Prop) (m : M A) : Prop :=
  match m.2 with
  | Ret a => Q a
  | Halt h => h = Exit 0 \/ (h = AssertFailed /\ ESolution ∈ m.1)
  end.

(** A host computation goes well when it ends well and has not printed
    that it met an illegal cycle. *)
Definition goes_well {A : Type} (Q : A -> Prop) (m : M A) : Prop :=
  ends_well Q m /\ forall len, EIllegalCycle len ∉ m.1.

Section FinderDefs.
Context `{Params}.

(** The arrays of the cycle finder are in order: the table holds the
    pointers of [m] and the two trails have room for [MAXPATHLEN]
    nodes. *)
Definition finder_ok (st : finder) (m : gmap Z Z) : Prop :=
  table_holds (cuckoo st) m /\
  MAXPATHLEN <= Z.of_nat (length (us st)) /\
  MAXPATHLEN <= Z.of_nat (length (vs st)).

End FinderDefs.

(** The event is one of the three diagnostics that come before an
    [exit]. *)
Definition diagnostic (e : event) : Prop :=
  e = EOverloaded \/ e = EMaxPath \/ exists len, e = EIllegalCycle len.

(** A host computation that, when it leaves through [exit], does so with
    status 0 and right after a diagnostic. *)
Definition exits_zero {A : Type} (m : M A) : Prop :=
  forall code, m.2 = Halt (Exit code) ->
    code = 0 /\ exists out e, m.1 = out ++ [e] /\ diagnostic e.

(** [for (; b >= 1024; b >>= 10) unit++;]: the figure left in [b] and
    the unit counted. *)
Fixpoint mem_unit (fuel : nat) (b unit : Z) : Z * Z :=
  if 1024 <=? b then
    match fuel with
    | O => (b, unit)
    | S fuel' => mem_unit fuel' (Z.shiftr b 10) (unit + 1)
    end
  else (b, unit).

(** ** Small configurations on which the definitions are run *)

(** A graph of 1024 nodes with a 16-slot table and trails of 64 nodes. *)
Definition toy : Params :=
  {| SIZESHIFT := 10; PART_BITS := 0; IDXSHIFT := 6; PROOFSIZE := 4 |}.

(** The smallest graph the miner can be built for: one table slot. *)
Definition tiny : Params :=
  {| SIZESHIFT := 6; PART_BITS := 0; IDXSHIFT := 6; PROOFSIZE := 2 |}.

(** Two blocks of 32 nonces. *)
Definition mid : Params :=
  {| SIZESHIFT := 7; PART_BITS := 0; IDXSHIFT := 6; PROOFSIZE := 2 |}.


(** More than 32 size bits: the key field is narrower than a node, and
    with [PART_BITS = 24] the drift bound is 2 on a table of 8 slots. *)
Definition wide : Params :=
  {| SIZESHIFT := 33; PART_BITS := 24; IDXSHIFT := default_IDXSHIFT 24;
     PROOFSIZE := 42 |}.

(** A graph for [toy]: the nonces 3, 5, 8 and 13 are the edges of the
    four-cycle 2 - 3 - 4 - 5; every other nonce has the sentinel as its
    first end point. *)
Definition toy_edge (n : Z) : Z * Z :=
  if n =? 3 then (2, 3)
  else if n =? 5 then (2, 5)
  else if n =? 8 then (4, 3)
  else if n =? 13 then (4, 5)
  else (0, 1).

(** The SipHash mixing round, as an instance of [SIPROUND]. *)
Definition rotl (x b : Z) : Z :=
  Z.lor (u64 (Z.shiftl x b)) (Z.shiftr x (64 - b)).

Definition toy_round (s : siphash_ctx) : siphash_ctx :=
  let a0 := u64 (v0 s + v1 s) in
  let a2 := u64 (v2 s + v3 s) in
  let a1 := Z.lxor (rotl (v1 s) 13) a0 in
  let a3 := Z.lxor (rotl (v3 s) 16) a2 in
  let a0 := rotl a0 32 in
  let a2 := u64 (a2 + a1) in
  let a0 := u64 (a0 + a3) in
  let a1 := Z.lxor (rotl a1 17) a2 in
  let a3 := Z.lxor (rotl a3 21) a0 in
  {| v0 := a0; v1 := a1; v2 := rotl a2 32; v3 := a3 |}.

Definition toy_gen : EdgeGen :=
  {| SIPROUND := toy_round; sipedge := fun _ => toy_edge |}.

Definition toy_ctx : siphash_ctx := {| v0 := 1; v1 := 2; v2 := 3; v3 := 4 |}.

(** The alive bits of [words] words in which only the nonces of [l] are
    alive. *)
Definition only_alive (words : nat) (l : list Z) : list Z :=
  foldl (fun b n =>
           wr b (n / 32)
              (Z.land (rd b (n / 32))
                      (Z.lxor (2 ^ 32 - 1) (Z.shiftl 1 (n mod 32)))))
        (replicate words (2 ^ 32 - 1)) l.

(** The same graph size with [PROOFSIZE = 2], and a graph in which the
    nonces 3 and 5 are two copies of the edge 2 - 3. *)
Definition pair : Params :=
  {| SIZESHIFT := 10; PART_BITS := 0; IDXSHIFT := 6; PROOFSIZE := 2 |}.

Definition pair_edge (n : Z) : Z * Z :=
  if (n =? 3) || (n =? 5) then (2, 3) else (0, 1).

Definition pair_gen : EdgeGen :=
  {| SIPROUND := toy_round; sipedge := fun _ => pair_edge |}.

(** The smallest table with room for a pointer cycle: 4 slots, trails of
    8 nodes. *)
Definition small : Params :=
  {| SIZESHIFT := 2; PART_BITS := 0; IDXSHIFT := 0; PROOFSIZE := 2 |}.

(** The pointers 1 -> 2 -> 3 -> 1 in the table of [small]. *)
Definition ring3 : list Z :=
  [0; @entry small 1 2; @entry small 2 3; @entry small 3 1].

(** The pointers 1 -> 2 -> 3 in the table of [small]; node 3 has no
    pointer. *)
Definition line3 : list Z := [0; @entry small 1 2; @entry small 2 3; 0].

(** The alive bits of the four-cycle of [toy_edge], and nothing else. *)
Definition four_cycle : list Z := only_alive 16 [3; 5; 8; 13].

(** * Properties *)

(** ** Reading and writing arrays *)

Lemma length_wr a i x : length (wr a i x) = length a.
Proof. apply length_insert. Qed.

Lemma rd_wr_eq a i x :
  0 <= i < Z.of_nat (length a) -> rd (wr a i x) i = x.
Proof.
  intros Hi. unfold rd, wr. rewrite list_lookup_insert_eq by lia. done.
Qed.

Lemma rd_wr_ne a i j x : 0 <= i -> 0 <= j -> i <> j -> rd (wr a i x) j = rd a j.
Proof.
  intros Hi Hj Hne. unfold rd, wr. rewrite list_lookup_insert_ne by lia. done.
Qed.

Lemma rd_replicate n x i : x = 0 -> rd (replicate n x) i = 0.
Proof.
  intros ->. unfold rd.
  destruct (replicate n 0 !! Z.to_nat i) as [y|] eqn:E; [|done].
  apply lookup_replicate in E as [-> _]. done.
Qed.

Lemma rd_outside a i : Z.of_nat (length a) <= i -> rd a i = 0.
Proof. intros Hi. unfold rd. rewrite lookup_ge_None_2 by lia. done. Qed.

(** Two arrays of the same length with the same contents are equal. *)
Lemma array_eq (a b : list Z) :
  length a = length b ->
  (forall i, 0 <= i < Z.of_nat (length a) -> rd a i = rd b i) -> a = b.
Proof.
  intros Hlen Hrd. apply list_eq_same_length with (length a); [done..|].
  intros i x y Hi Hx Hy. specialize (Hrd (Z.of_nat i) ltac:(lia)).
  unfold rd in Hrd. rewrite Nat2Z.id, Hx, Hy in Hrd. done.
Qed.

(** ** Arithmetic of the table constants *)

Section TableArith.
Context `{Params}.

Lemma SIZE_eq : 0 <= SIZESHIFT -> SIZE = 2 ^ SIZESHIFT.
Proof. intros. unfold SIZE. rewrite Z.shiftl_1_l. done. Qed.

Lemma CUCKOO_SIZE_eq : table_ok -> CUCKOO_SIZE = 2 ^ (SIZESHIFT - IDXSHIFT).
Proof.
  intros [[? ?] ?]. unfold CUCKOO_SIZE. rewrite SIZE_eq by lia.
  rewrite Z.shiftr_div_pow2 by lia.
  rewrite <- Z.pow_sub_r by lia. done.
Qed.

Lemma CUCKOO_SIZE_pos : table_ok -> 0 < CUCKOO_SIZE.
Proof.
  intros Hok. rewrite CUCKOO_SIZE_eq by done.
  destruct Hok as [[? ?] ?]. apply Z.pow_pos_nonneg; lia.
Qed.

Lemma land_CUCKOO_MASK x : table_ok -> Z.land x CUCKOO_MASK = x mod CUCKOO_SIZE.
Proof.
  intros Hok. unfold CUCKOO_MASK. rewrite CUCKOO_SIZE_eq by done.
  destruct Hok as [[? ?] ?].
  rewrite <- Z.land_ones by lia. f_equal. rewrite Z.ones_equiv. lia.
Qed.

Lemma natural_slot_range u :
  table_ok -> 0 <= u < SIZE -> 0 <= Z.shiftr u IDXSHIFT < CUCKOO_SIZE.
Proof.
  intros Hok Hu. pose proof Hok as [[? ?] ?].
  rewrite CUCKOO_SIZE_eq by done. rewrite SIZE_eq in Hu by lia.
  rewrite Z.shiftr_div_pow2 by lia. split.
  - apply Z.div_pos; [lia | apply Z.pow_pos_nonneg; lia].
  - apply Z.div_lt_upper_bound; [apply Z.pow_pos_nonneg; lia |].
    rewrite <- Z.pow_add_r by lia.
    replace (IDXSHIFT + (SIZESHIFT - IDXSHIFT)) with SIZESHIFT by lia. lia.
Qed.

Lemma probe_slot_eq u d :
  table_ok -> 0 <= u < SIZE ->
  probe_slot u d = (Z.shiftr u IDXSHIFT + Z.of_nat d) mod CUCKOO_SIZE.
Proof.
  intros Hok Hu. pose proof (CUCKOO_SIZE_pos Hok).
  pose proof (natural_slot_range u Hok Hu).
  induction d as [|d IH].
  - simpl. rewrite Z.add_0_r, Z.mod_small; lia.
  - cbn [probe_slot]. rewrite land_CUCKOO_MASK, IH by done.
    rewrite Zplus_mod_idemp_l. f_equal. lia.
Qed.

Lemma probe_slot_range u d :
  table_ok -> 0 <= u < SIZE -> 0 <= probe_slot u d < CUCKOO_SIZE.
Proof.
  intros Hok Hu. rewrite probe_slot_eq by done.
  apply Z.mod_pos_bound, CUCKOO_SIZE_pos, Hok.
Qed.

(** Within one turn of the ring the probed slots are pairwise distinct. *)
Lemma probe_slot_inj u d1 d2 :
  table_ok -> 0 <= u < SIZE ->
  Z.of_nat d1 < CUCKOO_SIZE -> Z.of_nat d2 < CUCKOO_SIZE ->
  probe_slot u d1 = probe_slot u d2 -> d1 = d2.
Proof.
  intros Hok Hu H1 H2. rewrite !probe_slot_eq by done.
  pose proof (natural_slot_range u Hok Hu).
  set (h := Z.shiftr u IDXSHIFT) in *. set (C := CUCKOO_SIZE) in *.
  intros Heq.
  assert (Hd : ((h + Z.of_nat d1) - (h + Z.of_nat d2)) mod C = 0).
  { rewrite Zminus_mod, Heq, Z.sub_diag. apply Z.mod_0_l. lia. }
  replace (h + Z.of_nat d1 - (h + Z.of_nat d2)) with (Z.of_nat d1 - Z.of_nat d2) in Hd by lia.
  apply Z.mod_divide in Hd; [|lia]. destruct Hd as [q Hq].
  assert (q = 0) by nia. lia.
Qed.

(** Every slot is probed within one turn. *)
Lemma probe_slot_surj u i :
  table_ok -> 0 <= u < SIZE -> 0 <= i < CUCKOO_SIZE ->
  exists d, Z.of_nat d < CUCKOO_SIZE /\ probe_slot u d = i.
Proof.
  intros Hok Hu Hi. pose proof (natural_slot_range u Hok Hu).
  exists (Z.to_nat ((i - Z.shiftr u IDXSHIFT) mod CUCKOO_SIZE)).
  assert (Hpos : 0 < CUCKOO_SIZE) by lia.
  pose proof (Z.mod_pos_bound (i - Z.shiftr u IDXSHIFT) CUCKOO_SIZE Hpos).
  split; [lia|]. rewrite probe_slot_eq by done.
  rewrite Z2Nat.id by lia. rewrite Zplus_mod_idemp_r.
  replace (Z.shiftr u IDXSHIFT + (i - Z.shiftr u IDXSHIFT)) with i by lia.
  apply Z.mod_small. lia.
Qed.

(** The slots repeat with period [CUCKOO_SIZE]. *)
Lemma probe_slot_period u d :
  table_ok -> 0 <= u < SIZE ->
  probe_slot u d = probe_slot u (Z.to_nat (Z.of_nat d mod CUCKOO_SIZE)).
Proof.
  intros Hok Hu. pose proof (CUCKOO_SIZE_pos Hok).
  rewrite !probe_slot_eq by done.
  rewrite Z2Nat.id by (apply Z.mod_pos_bound; lia).
  rewrite Zplus_mod_idemp_r. done.
Qed.

(** The distance the [assert] of [operator[]] computes. *)
Lemma probe_distance u d :
  table_ok -> 0 <= u < SIZE -> Z.of_nat d < CUCKOO_SIZE ->
  Z.land (probe_slot u d - Z.shiftr u IDXSHIFT) CUCKOO_MASK = Z.of_nat d.
Proof.
  intros Hok Hu Hd. rewrite land_CUCKOO_MASK, probe_slot_eq by done.
  rewrite Zminus_mod_idemp_l.
  replace (Z.shiftr u IDXSHIFT + Z.of_nat d - Z.shiftr u IDXSHIFT) with (Z.of_nat d) by lia.
  apply Z.mod_small. lia.
Qed.

End TableArith.

(** ** The probe loops *)

Section ProbeFacts.
Context `{Params}.

Lemma find_stop_Some fuel c u k d :
  find_stop fuel c u k = Some d <->
  (k <= d < k + fuel)%nat /\
  set_stops (rd c (probe_slot u d)) u = true /\
  forall d', (k <= d' < d)%nat -> set_stops (rd c (probe_slot u d')) u = false.
Proof.
  revert k. induction fuel as [|fuel IH]; intros k; simpl.
  - split; [done | intros [? _]; lia].
  - destruct (set_stops (rd c (probe_slot u k)) u) eqn:Hk.
    + split.
      * intros [= <-]. split; [lia|]. split; [done|]. intros; lia.
      * intros (Hr & Hd & Hlt). f_equal.
        destruct (decide (k = d)) as [|Hne]; [done|].
        rewrite (Hlt k) in Hk by lia. done.
    + rewrite IH. split.
      * intros (Hr & Hd & Hlt). split; [lia|]. split; [done|].
        intros d' Hd'. destruct (decide (d' = k)) as [->|]; [done|].
        apply Hlt. lia.
      * intros (Hr & Hd & Hlt).
        assert (k <> d) by (intros ->; congruence).
        split; [lia|]. split; [done|]. intros; apply Hlt; lia.
Qed.

Lemma find_stop_None fuel c u k :
  find_stop fuel c u k = None <->
  forall d, (k <= d < k + fuel)%nat ->
            set_stops (rd c (probe_slot u d)) u = false.
Proof.
  revert k. induction fuel as [|fuel IH]; intros k; simpl.
  - split; [intros; lia | done].
  - destruct (set_stops (rd c (probe_slot u k)) u) eqn:Hk.
    + split; [done|]. intros Hall. rewrite (Hall k) in Hk by lia. done.
    + rewrite IH. split.
      * intros Hall d Hd. destruct (decide (d = k)) as [->|]; [done|].
        apply Hall. lia.
      * intros Hall d Hd. apply Hall. lia.
Qed.

(** [set] writes its word at the slot where the probe stops. *)
Lemma set_probe_find fuel c u niew k :
  set_probe fuel c u niew (probe_slot u k) =
  (fun d => wr c (probe_slot u d) niew) <$> find_stop fuel c u k.
Proof.
  revert k. induction fuel as [|fuel IH]; intros k; simpl; [done|].
  destruct (set_stops (rd c (probe_slot u k)) u); [done|].
  apply (IH (S k)).
Qed.

Lemma cuckoo_set_find fuel c u v :
  cuckoo_set fuel c u v =
  (fun d => wr c (probe_slot u d) (entry u v)) <$> find_stop fuel c u 0.
Proof. apply (set_probe_find fuel c u (entry u v) 0). Qed.

(** [operator[]] answers from the slot where the probe stops. *)
Lemma lookup_probe_find fuel c u k :
  lookup_probe fuel c u (probe_slot u k) =
  (fun d => lookup_at c u (probe_slot u d)) <$> find_stop fuel c u k.
Proof.
  revert k. induction fuel as [|fuel IH]; intros k; simpl; [done|].
  unfold set_stops.
  destruct (rd c (probe_slot u k) =? 0) eqn:H0; simpl.
  { unfold lookup_at. by rewrite H0. }
  destruct (Z.shiftr (rd c (probe_slot u k)) SIZESHIFT =? Z.land u KEYMASK).
  - simpl. unfold lookup_at. rewrite H0. by case_match.
  - apply (IH (S k)).
Qed.

Lemma cuckoo_lookup_find fuel c u :
  cuckoo_lookup fuel c u =
  (fun d => lookup_at c u (probe_slot u d)) <$> find_stop fuel c u 0.
Proof. apply (lookup_probe_find fuel c u 0). Qed.

(** If the probe stops at all, it stops within one turn of the ring. *)
Lemma find_stop_one_turn c u d :
  table_ok -> 0 <= u < SIZE ->
  set_stops (rd c (probe_slot u d)) u = true ->
  exists d0, probe_dist c u = Some d0 /\ (d0 <= d)%nat.
Proof.
  intros Hok Hu Hd. pose proof (CUCKOO_SIZE_pos Hok) as Hpos.
  unfold probe_dist.
  destruct (find_stop probe_fuel c u 0) as [d0|] eqn:Hf.
  - exists d0. split; [done|]. apply find_stop_Some in Hf as (_ & _ & Hlt).
    destruct (decide (d0 <= d)%nat); [done|].
    rewrite (Hlt d) in Hd by lia. done.
  - exfalso. rewrite find_stop_None in Hf.
    rewrite probe_slot_period in Hd by done.
    rewrite Hf in Hd; [done|].
    pose proof (Z.mod_pos_bound (Z.of_nat d) CUCKOO_SIZE Hpos).
    unfold probe_fuel. lia.
Qed.

Lemma probe_dist_more_fuel c u d fuel :
  probe_dist c u = Some d -> (probe_fuel <= fuel)%nat ->
  find_stop fuel c u 0 = Some d.
Proof.
  unfold probe_dist. rewrite !find_stop_Some. intros (? & ? & ?) ?.
  split; [lia|]. done.
Qed.

End ProbeFacts.

(** ** Termination of [set] *)

Section SetTermination.
Context `{Params}.

(** C10: [set] comes to an end exactly when its probe sequence reaches a
    slot that is empty or holds the key [u & KEYMASK]; when no slot of the
    table is of that kind the loop runs for ever, whatever the fuel.
    A whole turn of the ring ([probe_fuel] iterations) is enough whenever
    the loop stops at all. *)
Theorem cuckoo_set_terminates_iff (c : list Z) (u v : Z) :
  ((exists fuel, is_Some (cuckoo_set fuel c u v)) <->
   (exists d, set_stops (rd c (probe_slot u d)) u = true)) /\
  (table_ok -> 0 <= u < SIZE ->
   ((forall i, 0 <= i < CUCKOO_SIZE -> set_stops (rd c i) u = false) ->
    forall fuel, cuckoo_set fuel c u v = None) /\
   ((exists fuel, is_Some (cuckoo_set fuel c u v)) ->
    is_Some (cuckoo_set probe_fuel c u v))).
Proof.
  split; [split|].
  - intros [fuel [c' Hc]]. rewrite cuckoo_set_find in Hc.
    destruct (find_stop fuel c u 0) as [d|] eqn:Hf; [|done].
    exists d. by apply find_stop_Some in Hf as (_ & ? & _).
  - intros [d Hd]. exists (S d). rewrite cuckoo_set_find.
    destruct (find_stop (S d) c u 0) as [d0|] eqn:Hf; [by eexists|].
    rewrite find_stop_None in Hf. rewrite Hf in Hd by lia. done.
  - intros Hok Hu. split.
    + intros Hall fuel. rewrite cuckoo_set_find.
      assert (find_stop fuel c u 0 = None) as ->; [|done].
      apply find_stop_None. intros d _. apply Hall.
      by apply probe_slot_range.
    + intros [fuel [c' Hc]]. rewrite cuckoo_set_find in Hc.
      destruct (find_stop fuel c u 0) as [d|] eqn:Hf; [|done].
      apply find_stop_Some in Hf as (_ & Hd & _).
      destruct (find_stop_one_turn c u d Hok Hu Hd) as (d0 & Hd0 & _).
      rewrite cuckoo_set_find. unfold probe_dist in Hd0. rewrite Hd0.
      by eexists.
Qed.

End SetTermination.

(** ** The words stored in the table *)

Section TableWords.
Context `{Params}.

Lemma KEYMASK_eq : table_ok -> KEYMASK = Z.ones (64 - SIZESHIFT).
Proof.
  intros [[? ?] ?]. unfold KEYMASK, KEYBITS.
  rewrite Z.ones_equiv, Z.shiftl_1_l. lia.
Qed.

(** The shifted key loses the bits above the key width and nothing else. *)
Lemma u64_shiftl u :
  table_ok -> u64 (Z.shiftl u SIZESHIFT) = Z.shiftl (Z.land u KEYMASK) SIZESHIFT.
Proof.
  intros Hok. rewrite KEYMASK_eq by done. destruct Hok as [[? ?] ?].
  unfold u64. rewrite Z.land_ones, !Z.shiftl_mul_pow2 by lia.
  replace (2 ^ 64) with (2 ^ (64 - SIZESHIFT) * 2 ^ SIZESHIFT)
    by (rewrite <- Z.pow_add_r by lia; f_equal; lia).
  rewrite Z.mul_mod_distr_r; [done | | ]; apply Z.pow_nonzero; lia.
Qed.

Lemma shiftr_small v : 0 <= SIZESHIFT -> 0 <= v < SIZE -> Z.shiftr v SIZESHIFT = 0.
Proof.
  intros ? Hv. rewrite SIZE_eq in Hv by done.
  rewrite Z.shiftr_div_pow2 by done. apply Z.div_small. done.
Qed.

Lemma key_of_entry u v :
  table_ok -> 0 <= v < SIZE -> key_of (entry u v) = Z.land u KEYMASK.
Proof.
  intros Hok Hv. pose proof Hok as [[? ?] ?]. unfold key_of, entry.
  rewrite u64_shiftl by done.
  rewrite Z.shiftr_lor, Z.shiftr_shiftl_l, Z.sub_diag, Z.shiftl_0_r by lia.
  rewrite shiftr_small by (done || lia). apply Z.lor_0_r.
Qed.

Lemma value_of_entry u v :
  table_ok -> 0 <= v < SIZE -> Z.land (entry u v) (SIZE - 1) = v.
Proof.
  intros Hok Hv. pose proof Hok as [[? ?] ?]. unfold entry.
  rewrite u64_shiftl by done. rewrite SIZE_eq in * by lia.
  replace (2 ^ SIZESHIFT - 1) with (Z.ones SIZESHIFT)
    by (rewrite Z.ones_equiv; lia).
  rewrite Z.land_lor_distr_l.
  rewrite !Z.land_ones by lia.
  rewrite Z.shiftl_mul_pow2, Z.mod_mul by (lia || apply Z.pow_nonzero; lia).
  rewrite Z.lor_0_l. apply Z.mod_small. done.
Qed.

Lemma entry_nonzero u v :
  table_ok -> 0 <= v < SIZE -> Z.land u KEYMASK <> 0 -> entry u v <> 0.
Proof.
  intros Hok Hv Hu He. apply Hu. rewrite <- (key_of_entry u v) by done.
  rewrite He. unfold key_of. apply Z.shiftr_0_l.
Qed.

(** With at most 32 size bits a node is its own key. *)
Lemma land_KEYMASK_small u :
  table_ok -> SIZESHIFT <= 32 -> 0 <= u < SIZE -> Z.land u KEYMASK = u.
Proof.
  intros Hok H32 Hu. rewrite KEYMASK_eq by done. destruct Hok as [[? ?] ?].
  rewrite SIZE_eq in Hu by lia.
  rewrite Z.land_ones by lia. apply Z.mod_small. split; [lia|].
  eapply Z.lt_le_trans; [apply Hu|]. apply Z.pow_le_mono_r; lia.
Qed.

(** ... and the drift bound is at least the size of the table. *)
Lemma MAXDRIFT_large : table_ok -> SIZESHIFT <= 32 -> CUCKOO_SIZE <= MAXDRIFT.
Proof.
  intros Hok H32. rewrite CUCKOO_SIZE_eq by done. destruct Hok as [[? ?] ?].
  unfold MAXDRIFT, KEYBITS. rewrite Z.shiftl_1_l.
  apply Z.pow_le_mono_r; lia.
Qed.

Lemma set_stops_entry u v :
  table_ok -> 0 <= v < SIZE -> set_stops (entry u v) u = true.
Proof.
  intros Hok Hv. unfold set_stops. fold (key_of (entry u v)).
  rewrite key_of_entry by done. rewrite Z.eqb_refl. apply orb_true_r.
Qed.

Lemma set_stops_false w u :
  set_stops w u = false <-> w <> 0 /\ key_of w <> Z.land u KEYMASK.
Proof.
  unfold set_stops, key_of. rewrite orb_false_iff, !Z.eqb_neq. done.
Qed.

Lemma probe_dist_lt c u d :
  probe_dist c u = Some d -> Z.of_nat d < CUCKOO_SIZE.
Proof.
  unfold probe_dist, probe_fuel. rewrite find_stop_Some. lia.
Qed.

(** What [operator[]] finds in the slot that [set] has just written. *)
Lemma lookup_at_entry c u v d :
  table_ok -> 0 <= u < SIZE -> 0 <= v < SIZE ->
  Z.of_nat d < CUCKOO_SIZE -> Z.of_nat d < MAXDRIFT ->
  rd c (probe_slot u d) = entry u v ->
  lookup_at c u (probe_slot u d) = Found v.
Proof.
  intros Hok Hu Hv Hd Hdrift Hrd. unfold lookup_at. rewrite Hrd.
  destruct (entry u v =? 0) eqn:E0.
  - apply Z.eqb_eq in E0. f_equal.
    rewrite <- (value_of_entry u v), E0 by done. done.
  - rewrite probe_distance by done.
    destruct (Z.ltb_spec (Z.of_nat d) MAXDRIFT); [|lia].
    by rewrite value_of_entry.
Qed.

(** After [set(u, v)], [operator[]] finds [v] under [u]. *)
Lemma lookup_after_set c u v d :
  table_ok -> length c = Z.to_nat CUCKOO_SIZE ->
  0 <= u < SIZE -> 0 <= v < SIZE ->
  probe_dist c u = Some d -> Z.of_nat d < MAXDRIFT ->
  cuckoo_set probe_fuel c u v = Some (wr c (probe_slot u d) (entry u v)) /\
  probe_dist (wr c (probe_slot u d) (entry u v)) u = Some d /\
  cuckoo_lookup probe_fuel (wr c (probe_slot u d) (entry u v)) u
    = Some (Found v).
Proof.
  intros Hok Hlen Hu Hv Hd Hdrift.
  pose proof (probe_dist_lt _ _ _ Hd) as HdC.
  pose proof (probe_slot_range u d Hok Hu) as Hs.
  assert (Hd' : probe_dist (wr c (probe_slot u d) (entry u v)) u = Some d).
  { unfold probe_dist in *. apply find_stop_Some in Hd as (Hr & _ & Hlt).
    apply find_stop_Some. split; [done|]. split.
    - rewrite rd_wr_eq by lia. by apply set_stops_entry.
    - intros d' Hd'. rewrite rd_wr_ne; [by apply Hlt | lia | |].
      + by apply probe_slot_range.
      + intros Heq. apply probe_slot_inj in Heq; [lia|done..|lia|lia]. }
  split; [|split; [done|]].
  - rewrite cuckoo_set_find. fold (probe_dist c u). by rewrite Hd.
  - rewrite cuckoo_lookup_find.
    fold (probe_dist (wr c (probe_slot u d) (entry u v)) u). rewrite Hd'.
    simpl. f_equal. apply lookup_at_entry; try done.
    apply rd_wr_eq. lia.
Qed.

End TableWords.

(** ** The table as a map from nodes to nodes *)

Section TableMap.
Context `{Params}.

Lemma table_wf_new : table_ok -> table_wf cuckoo_new.
Proof.
  intros Hok. split.
  - unfold cuckoo_new. apply length_replicate.
  - intros i _ Hi. unfold cuckoo_new in Hi. by rewrite rd_replicate in Hi.
Qed.

Lemma table_wf_set c u v c' :
  table_ok -> SIZESHIFT <= 32 -> table_wf c ->
  0 < u < SIZE -> 0 <= v < SIZE ->
  cuckoo_set probe_fuel c u v = Some c' -> table_wf c'.
Proof.
  intros Hok H32 [Hlen Hwf] Hu Hv Hset.
  rewrite cuckoo_set_find in Hset. fold (probe_dist c u) in Hset.
  destruct (probe_dist c u) as [d|] eqn:Hd; [|done].
  injection Hset as <-.
  pose proof (probe_dist_lt _ _ _ Hd) as HdC.
  assert (Hu' : 0 <= u < SIZE) by lia.
  pose proof (probe_slot_range u d Hok Hu') as Hs.
  pose proof (MAXDRIFT_large Hok H32) as Hdrift.
  destruct (lookup_after_set c u v d Hok Hlen Hu' Hv Hd ltac:(lia))
    as (_ & Hd' & _).
  assert (Hkey : key_of (entry u v) = u).
  { rewrite key_of_entry by done. by apply land_KEYMASK_small. }
  split; [by rewrite length_wr|].
  intros i Hi Hnz. destruct (decide (i = probe_slot u d)) as [->|Hne].
  - rewrite rd_wr_eq by lia. rewrite Hkey. split; [done|]. by exists d.
  - rewrite rd_wr_ne in Hnz |- * by lia.
    destruct (Hwf i Hi Hnz) as (Hk & e & He & Hslot).
    set (k := key_of (rd c i)) in *. split; [done|]. exists e. split; [|done].
    assert (Hk' : 0 <= k < SIZE) by lia.
    pose proof (probe_dist_lt _ _ _ He) as HeC.
    unfold probe_dist in *.
    apply find_stop_Some in He as (Hr & Hstop & Hlt).
    apply find_stop_Some. split; [done|]. split.
    + rewrite rd_wr_ne; [by rewrite Hslot in Hstop |- * | lia | lia |].
      rewrite Hslot. done.
    + intros e' He'. specialize (Hlt e' He').
      pose proof (probe_slot_range k e' Hok Hk') as Hs'.
      destruct (decide (probe_slot k e' = probe_slot u d)) as [Heq|Hneq].
      * rewrite Heq, rd_wr_eq by lia.
        apply set_stops_false. split.
        { apply entry_nonzero; [done..|].
          rewrite land_KEYMASK_small by done. lia. }
        rewrite Hkey, land_KEYMASK_small by done. intros ->.
        apply find_stop_Some in Hd as (_ & Hstop' & _).
        rewrite <- Heq in Hstop'. congruence.
      * rewrite rd_wr_ne by lia. done.
Qed.

Lemma cuckoo_sets_cons op ops c :
  cuckoo_sets (op :: ops) c =
  c' ← cuckoo_set probe_fuel c op.1 op.2; cuckoo_sets ops c'.
Proof. unfold cuckoo_sets; simpl. by destruct (cuckoo_set _ c _ _). Qed.

Lemma table_wf_sets ops c c' :
  table_ok -> SIZESHIFT <= 32 -> Forall valid_op ops -> table_wf c ->
  cuckoo_sets ops c = Some c' -> table_wf c'.
Proof.
  intros Hok H32 Hops. revert c.
  induction Hops as [|[u v] ops [Hu Hv] _ IH]; intros c Hwf Hsets.
  - by injection Hsets as <-.
  - rewrite cuckoo_sets_cons in Hsets. simpl in *.
    destruct (cuckoo_set probe_fuel c u v) as [c1|] eqn:Hset; [|done].
    simpl in Hsets. eapply IH; [|done]. by eapply table_wf_set.
Qed.

Lemma cuckoo_set_length fuel c u v c' :
  cuckoo_set fuel c u v = Some c' -> length c' = length c.
Proof.
  rewrite cuckoo_set_find. destruct (find_stop fuel c u 0); [|done].
  intros [= <-]. apply length_wr.
Qed.

Lemma cuckoo_sets_length ops c c' :
  cuckoo_sets ops c = Some c' -> length c' = length c.
Proof.
  revert c. induction ops as [|op ops IH]; intros c Hsets.
  - by injection Hsets as <-.
  - rewrite cuckoo_sets_cons in Hsets.
    destruct (cuckoo_set probe_fuel c op.1 op.2) as [c1|] eqn:Hset; [|done].
    simpl in Hsets. rewrite (IH _ Hsets). by eapply cuckoo_set_length.
Qed.

Lemma keys_from_set ops c u v c' :
  table_ok -> SIZESHIFT <= 32 -> length c = Z.to_nat CUCKOO_SIZE ->
  0 < u < SIZE -> 0 <= v < SIZE -> keys_from ops c ->
  cuckoo_set probe_fuel c u v = Some c' -> keys_from (ops ++ [(u, v)]) c'.
Proof.
  intros Hok H32 Hlen Hu Hv Hkeys Hset.
  rewrite cuckoo_set_find in Hset. fold (probe_dist c u) in Hset.
  destruct (probe_dist c u) as [d|] eqn:Hd; [|done].
  injection Hset as <-.
  assert (Hu' : 0 <= u < SIZE) by lia.
  pose proof (probe_slot_range u d Hok Hu') as Hs.
  intros i Hi Hnz. rewrite fmap_app, elem_of_app.
  destruct (decide (i = probe_slot u d)) as [->|Hne].
  - right. rewrite rd_wr_eq by lia.
    rewrite key_of_entry, land_KEYMASK_small by done. simpl.
    by apply list_elem_of_singleton.
  - left. rewrite rd_wr_ne in Hnz |- * by lia. by apply Hkeys.
Qed.

Lemma keys_from_sets ops0 ops c c' :
  table_ok -> SIZESHIFT <= 32 -> length c = Z.to_nat CUCKOO_SIZE ->
  Forall valid_op ops -> keys_from ops0 c ->
  cuckoo_sets ops c = Some c' -> keys_from (ops0 ++ ops) c'.
Proof.
  intros Hok H32 Hlen Hops. revert ops0 c Hlen.
  induction Hops as [|[u v] ops [Hu Hv] _ IH]; intros ops0 c Hlen Hkeys Hsets.
  - injection Hsets as <-. by rewrite app_nil_r.
  - rewrite cuckoo_sets_cons in Hsets. simpl in *.
    destruct (cuckoo_set probe_fuel c u v) as [c1|] eqn:Hset; [|done].
    simpl in Hsets. rewrite (cons_middle _ ops0 ops), app_assoc.
    eapply IH; [| |done].
    + by rewrite (cuckoo_set_length _ _ _ _ _ Hset).
    + by eapply keys_from_set.
Qed.

(** Replacing a word in use by another word in use keeps the count. *)
Lemma occupied_wr c i x :
  0 <= i < Z.of_nat (length c) -> rd c i <> 0 -> x <> 0 ->
  occupied (wr c i x) = occupied c.
Proof.
  intros Hi Hnz Hx. unfold occupied, wr, rd in *.
  destruct (c !! Z.to_nat i) as [y|] eqn:E; [|done]. simpl in Hnz.
  rewrite <- (take_drop_middle c (Z.to_nat i) y E) at 2.
  rewrite insert_take_drop by lia.
  rewrite !filter_app, !filter_cons, !length_app.
  rewrite !decide_True by done. done.
Qed.

(** A key lives in at most one slot. *)
Lemma table_wf_unique c i j :
  table_wf c -> 0 <= i < CUCKOO_SIZE -> 0 <= j < CUCKOO_SIZE ->
  rd c i <> 0 -> rd c j <> 0 -> key_of (rd c i) = key_of (rd c j) -> i = j.
Proof.
  intros [_ Hwf] Hi Hj Hni Hnj Hkey.
  destruct (Hwf i Hi Hni) as (_ & d & Hd & <-).
  destruct (Hwf j Hj Hnj) as (_ & e & He & <-).
  rewrite Hkey in Hd |- *. congruence.
Qed.

(** C6: on a table filled by [set] calls, [set(u, v)] followed by
    [operator[]] on [u] gives [v] when the probe for [u] stops within the
    drift bound; when nodes fit the key field, a node [k] that was never
    set is answered with the sentinel 0 (its probe ends at an empty slot),
    a [set] on a key that is already stored rewrites that slot and leaves
    the number of slots in use unchanged, and no key is stored in two
    slots. *)
Theorem cuckoo_set_then_lookup (ops : list (Z * Z)) (c : list Z)
    (u v k : Z) (d : nat) :
  table_ok ->
  Forall valid_op ops -> cuckoo_sets ops cuckoo_new = Some c ->
  0 < u < SIZE -> 0 <= v < SIZE ->
  probe_dist c u = Some d -> Z.of_nat d < MAXDRIFT ->
  exists c',
    cuckoo_set probe_fuel c u v = Some c' /\
    cuckoo_lookup probe_fuel c' u = Some (Found v) /\
    (SIZESHIFT <= 32 ->
     (0 <= k < SIZE -> k <> u -> k ∉ ops.*1 ->
      (exists e, Z.of_nat e < MAXDRIFT /\ rd c' (probe_slot k e) = 0) ->
      cuckoo_lookup probe_fuel c' k = Some (Found 0)) /\
     (forall i, 0 <= i < CUCKOO_SIZE -> rd c i <> 0 -> key_of (rd c i) = u ->
        c' = wr c i (entry u v) /\ occupied c' = occupied c) /\
     (forall i j, 0 <= i < CUCKOO_SIZE -> 0 <= j < CUCKOO_SIZE ->
        rd c' i <> 0 -> rd c' j <> 0 ->
        key_of (rd c' i) = key_of (rd c' j) -> i = j)).
Proof.
  intros Hok Hops Hsets Hu Hv Hd Hdrift.
  assert (Hu' : 0 <= u < SIZE) by lia.
  assert (Hlen : length c = Z.to_nat CUCKOO_SIZE).
  { rewrite (cuckoo_sets_length _ _ _ Hsets). apply length_replicate. }
  destruct (lookup_after_set c u v d Hok Hlen Hu' Hv Hd Hdrift)
    as (Hset & _ & Hlook).
  eexists. split; [exact Hset|]. split; [exact Hlook|].
  intros H32.
  assert (Hwf : table_wf c).
  { eapply table_wf_sets; [done..| |done]. by apply table_wf_new. }
  assert (Hwf' : table_wf (wr c (probe_slot u d) (entry u v))).
  { exact (table_wf_set c u v _ Hok H32 Hwf Hu Hv Hset). }
  assert (Hkeys0 : keys_from ([] ++ ops) c).
  { apply (keys_from_sets [] ops cuckoo_new c Hok H32); [|done| |done].
    - apply length_replicate.
    - intros i _ Hi. unfold cuckoo_new in Hi. by rewrite rd_replicate in Hi. }
  assert (Hkeys : keys_from (ops ++ [(u, v)])
                            (wr c (probe_slot u d) (entry u v))).
  { exact (keys_from_set ops c u v _ Hok H32 Hlen Hu Hv Hkeys0 Hset). }
  split; [|split].
  - intros Hk Hku Hkops (e & _ & He).
    set (c' := wr c (probe_slot u d) (entry u v)) in *.
    assert (Hstop : set_stops (rd c' (probe_slot k e)) k = true).
    { unfold set_stops. rewrite He. done. }
    destruct (find_stop_one_turn c' k e Hok Hk Hstop) as (e0 & He0 & _).
    rewrite cuckoo_lookup_find. fold (probe_dist c' k). rewrite He0. simpl.
    f_equal. unfold lookup_at.
    destruct (rd c' (probe_slot k e0) =? 0) eqn:E0; [done|]. exfalso.
    apply Z.eqb_neq in E0.
    pose proof (probe_slot_range k e0 Hok Hk) as Hr.
    specialize (Hkeys _ Hr E0).
    unfold probe_dist in He0. apply find_stop_Some in He0 as (_ & Hst & _).
    unfold set_stops in Hst. rewrite (proj2 (Z.eqb_neq _ _) E0) in Hst.
    simpl in Hst. apply Z.eqb_eq in Hst. fold (key_of (rd c' (probe_slot k e0))) in Hst.
    rewrite land_KEYMASK_small in Hst by done. rewrite Hst in Hkeys.
    rewrite fmap_app, elem_of_app in Hkeys. simpl in Hkeys.
    destruct Hkeys as [?|Hin]; [done|]. apply list_elem_of_singleton in Hin. done.
  - intros i Hi Hnz Hkey. destruct Hwf as [_ Hwf].
    destruct (Hwf i Hi Hnz) as (_ & e & He & Hslot).
    rewrite Hkey in He, Hslot. assert (e = d) as -> by congruence.
    rewrite Hslot. split; [done|].
    apply occupied_wr; [lia|done|].
    apply entry_nonzero; [done..|]. rewrite land_KEYMASK_small by done. lia.
  - intros i j. by apply table_wf_unique.
Qed.

End TableMap.

(** ** The drift bound *)

Section Drift.
Context `{Params}.

(** C9, as the code has it: the probe distance is compared with
    [MAXDRIFT] only by [operator[]] and only when it finds the key, where
    a distance of [MAXDRIFT] or more fails the assertion.  A lookup that
    ends at an empty slot returns the sentinel at any distance, and [set]
    writes at the slot where its probe stops at any distance. *)
Theorem drift_checked_on_hit_only (c : list Z) (u v : Z) (d : nat) :
  table_ok -> 0 <= u < SIZE -> probe_dist c u = Some d ->
  cuckoo_set probe_fuel c u v = Some (wr c (probe_slot u d) (entry u v)) /\
  cuckoo_lookup probe_fuel c u =
    Some (if rd c (probe_slot u d) =? 0 then Found 0
          else if Z.of_nat d <? MAXDRIFT
               then Found (Z.land (rd c (probe_slot u d)) (SIZE - 1))
               else DriftAssert).
Proof.
  intros Hok Hu Hd. pose proof (probe_dist_lt _ _ _ Hd) as HdC. split.
  - rewrite cuckoo_set_find. fold (probe_dist c u). by rewrite Hd.
  - rewrite cuckoo_lookup_find. fold (probe_dist c u). rewrite Hd. simpl.
    unfold lookup_at. by rewrite probe_distance.
Qed.

End Drift.

(** ** Host computations *)

Lemma bind_ret {A B : Type} (a : A) (f : A -> M B) : mret a ≫= f = f a.
Proof. unfold mret, mbind, M_ret, M_bind. by destruct (f a). Qed.

Lemma bind_nil {A B : Type} (a : A) (f : A -> M B) :
  ([], Ret a) ≫= f = f a.
Proof. apply (bind_ret a f). Qed.

Lemma bind_halt {A B : Type} (out : list event) (h : halt) (f : A -> M B) :
  (out, Halt h) ≫= f = (out, Halt h).
Proof. done. Qed.

Lemma bind_out {A B : Type} (out : list event) (a : A) (f : A -> M B) :
  (out, Ret a) ≫= f = (out ++ (f a).1, (f a).2).
Proof. unfold mbind, M_bind. by destruct (f a). Qed.

(** ** [path]: running out of trail *)

Section PathFacts.
Context `{Params} `{EdgeGen}.

Lemma MAXPATHLEN_bounds : 0 <= SIZESHIFT < 64 -> 8 <= MAXPATHLEN <= 2 ^ 24.
Proof.
  intros Hs. unfold MAXPATHLEN.
  assert (0 <= SIZESHIFT / 3 <= 21) as Hq.
  { split; [apply Z.div_pos; lia|].
    apply Z.lt_succ_r, Z.div_lt_upper_bound; lia. }
  rewrite Z.shiftl_mul_pow2 by lia.
  assert (0 < 2 ^ (SIZESHIFT / 3)) by (apply Z.pow_pos_nonneg; lia).
  assert (2 ^ (SIZESHIFT / 3) <= 2 ^ 21) by (apply Z.pow_le_mono_r; lia).
  lia.
Qed.

Lemma path_search_none us u n :
  (forall k, 0 <= k < Z.of_nat n -> rd us k <> u) ->
  path_search us u n = u32 (-1).
Proof.
  induction n as [|n IH]; intros Hno; simpl; [done|].
  destruct (Z.eqb_spec (rd us (Z.of_nat n)) u) as [Heq|_].
  - by apply Hno in Heq; [|lia].
  - apply IH. intros k Hk. apply Hno. lia.
Qed.

Lemma path_search_found us u n k :
  0 <= k < Z.of_nat n -> rd us k = u ->
  (forall k', k < k' < Z.of_nat n -> rd us k' <> u) ->
  path_search us u n = k.
Proof.
  induction n as [|n IH]; intros Hk Hu Hlast; simpl; [lia|].
  destruct (Z.eqb_spec (rd us (Z.of_nat n)) u) as [Heq|Hne].
  - destruct (decide (k = Z.of_nat n)) as [->|]; [done|].
    by apply Hlast in Heq; [|lia].
  - apply IH; [|done|].
    + destruct (decide (k = Z.of_nat n)) as [->|]; [done|lia].
    + intros k' Hk'. apply Hlast. lia.
Qed.

(** The iterations inside the trail use one unit of fuel each. *)
Lemma path_loop_steps cuckoo n st st' fuel :
  nsteps (path_step cuckoo) n st st' ->
  path_loop (n + fuel) cuckoo st.1.1 st.1.2 st.2
    = path_loop fuel cuckoo st'.1.1 st'.1.2 st'.2
  /\ st'.2 = st.2 + Z.of_nat n.
Proof.
  induction 1 as [st|n st1 st2 st3 Hstep _ [IH1 IH2]]; simpl.
  - split; [done | lia].
  - destruct Hstep as [us u nu u' Hu Hnu Hlook]. simpl in *.
    split; [|lia]. rewrite <- IH1.
    destruct (Z.eqb_spec u 0); [done|].
    destruct (Z.leb_spec MAXPATHLEN (nu + 1)); [lia|].
    rewrite Hlook. by rewrite bind_ret.
Qed.

(** C8: when the trace from [u0] has filled the trail and the node [u]
    to be recorded next is not the sentinel, [path] searches the trail
    [us[0..MAXPATHLEN-1]] for [u] from the top: if [u] is not there it
    prints that the maximum path length is exceeded, if [k] is the last
    index holding [u] it prints an illegal cycle of length
    [MAXPATHLEN - k]; in both cases the process ends there through
    [exit(0)] and [path] does not return. *)
Theorem path_trail_overflow (cuckoo us0 us : list Z) (u0 u nu : Z) :
  0 <= SIZESHIFT < 64 ->
  rtc (path_step cuckoo) (us0, u0, 0) (us, u, nu) ->
  u <> 0 -> MAXPATHLEN <= nu + 1 ->
  ((forall k, 0 <= k < MAXPATHLEN -> rd us k <> u) ->
   path cuckoo u0 us0 = ([EMaxPath], Halt (Exit 0))) /\
  (forall k, 0 <= k < MAXPATHLEN -> rd us k = u ->
     (forall k', k < k' < MAXPATHLEN -> rd us k' <> u) ->
     path cuckoo u0 us0 = ([EIllegalCycle (MAXPATHLEN - k)], Halt (Exit 0))).
Proof.
  intros Hs Hrtc Hu Hfull. pose proof (MAXPATHLEN_bounds Hs) as HM.
  apply rtc_nsteps in Hrtc as [n Hn].
  assert (Hnu : nu = Z.of_nat n).
  { destruct (path_loop_steps cuckoo n _ _ 0 Hn) as [_ Hnu]. simpl in Hnu. lia. }
  assert (Hlt : nu + 1 <= MAXPATHLEN).
  { destruct n as [|n]; [lia|].
    apply nsteps_inv_r in Hn as (st & Hn & Hstep).
    inversion Hstep; subst. lia. }
  assert (Hrun : path cuckoo u0 us0 = path_loop 1 cuckoo us u nu).
  { unfold path. replace (Z.to_nat MAXPATHLEN) with (n + 1)%nat by lia.
    destruct (path_loop_steps cuckoo n _ _ 1%nat Hn) as [Hrun _].
    exact Hrun. }
  rewrite Hrun. cbn [path_loop].
  destruct (Z.eqb_spec u 0); [done|].
  destruct (Z.leb_spec MAXPATHLEN (nu + 1)); [|lia].
  replace (Z.to_nat (nu + 1)) with (Z.to_nat MAXPATHLEN) by lia.
  split.
  - intros Hno. rewrite path_search_none; [done|].
    intros k Hk. apply Hno. lia.
  - intros k Hk Hfound Hlast. rewrite (path_search_found us u _ k); [|lia|done|].
    + destruct (Z.eqb_spec k (u32 (Z.lnot 0))) as [Heq|_]; [|done].
      change (u32 (Z.lnot 0)) with 4294967295 in Heq. lia.
    + intros k' Hk'. apply Hlast. lia.
Qed.

End PathFacts.

(** ** Assembling a solution *)

Section SolutionFacts.
Context `{Params} `{EdgeGen}.

Lemma alive_edges_cons ctx bits x l :
  alive_edges ctx bits (x :: l) =
  if alive_test bits x then {[ sipedge ctx x ]} ∪ alive_edges ctx bits l
  else alive_edges ctx bits l.
Proof.
  unfold alive_edges. rewrite filter_cons.
  destruct (decide (alive_test bits x)) as [Ha|Ha];
    destruct (alive_test bits x); done.
Qed.

Lemma matching_cons ctx bits cycle x l :
  matching ctx bits cycle (x :: l) =
  if alive_test bits x && bool_decide (sipedge ctx x ∈ cycle)
  then x :: matching ctx bits cycle l
  else matching ctx bits cycle l.
Proof.
  unfold matching. rewrite filter_cons.
  destruct (decide (alive_test bits x /\ sipedge ctx x ∈ cycle))
    as [[Ha He]|Hn].
  - destruct (alive_test bits x); [|done]. simpl.
    by rewrite bool_decide_eq_true_2.
  - destruct (alive_test bits x); simpl; [|done].
    case_bool_decide; [|done]. exfalso. by apply Hn.
Qed.

Lemma forM_cons {A S : Type} (body : A -> S -> M S) x l st :
  forM body (x :: l) st = (body x st ≫= forM body l).
Proof. done. Qed.

Lemma solution_nonce_eq ctx bits nonce x cycle n :
  solution_nonce ctx bits nonce x (cycle, n) =
  if alive_test bits x && bool_decide (sipedge ctx x ∈ cycle)
  then ([ENonce nonce],
        Ret (if 2 <? PROOFSIZE then cycle ∖ {[ sipedge ctx x ]} else cycle,
             n + 1))
  else ([], Ret (cycle, n)).
Proof.
  unfold solution_nonce. destruct (alive_test bits x); [|done]. simpl.
  by case_bool_decide.
Qed.

Lemma size_step (X : gset edge) (e : edge) :
  e ∉ X -> size ({[e]} ∪ X) = S (size X).
Proof.
  intros He. rewrite size_union by by apply disjoint_singleton_l.
  by rewrite size_singleton.
Qed.

Lemma intersection_step (cycle E : gset edge) (e : edge) :
  e ∈ cycle -> cycle ∩ ({[e]} ∪ E) = {[e]} ∪ (cycle ∖ {[e]}) ∩ E.
Proof.
  intros He. apply set_eq. intros y.
  rewrite !elem_of_intersection, !elem_of_union, !elem_of_intersection,
    !elem_of_difference, !elem_of_singleton.
  destruct (decide (y = e)) as [->|]; tauto.
Qed.

Lemma intersection_skip (cycle E : gset edge) (e : edge) :
  e ∉ cycle -> cycle ∩ ({[e]} ∪ E) = cycle ∩ E.
Proof.
  intros He. apply set_eq. intros y.
  rewrite !elem_of_intersection, !elem_of_union, !elem_of_singleton.
  split; [|tauto]. intros [Hy [->|?]]; tauto.
Qed.

Lemma difference_skip (cycle E : gset edge) (e : edge) :
  e ∉ cycle -> cycle ∖ ({[e]} ∪ E) = cycle ∖ E.
Proof.
  intros He. apply set_eq. intros y.
  rewrite !elem_of_difference, !elem_of_union, !elem_of_singleton.
  split; [tauto|]. intros [Hy ?]. split; [done|]. intros [->|?]; tauto.
Qed.

Lemma difference_step (cycle E : gset edge) (e : edge) :
  cycle ∖ {[e]} ∖ E = cycle ∖ ({[e]} ∪ E).
Proof.
  apply set_eq. intros y.
  rewrite !elem_of_difference, !elem_of_union, !elem_of_singleton. tauto.
Qed.

(** With [PROOFSIZE > 2] the scan strikes every edge it matches. *)
Lemma scan_erasing ctx bits nonce l cycle n :
  (2 <? PROOFSIZE) = true ->
  let k := size (cycle ∩ alive_edges ctx bits l) in
  forM (solution_nonce ctx bits nonce) l (cycle, n) =
    (replicate k (ENonce nonce),
     Ret (cycle ∖ alive_edges ctx bits l, n + Z.of_nat k)).
Proof.
  intros Hp. simpl. revert cycle n.
  induction l as [|x l IH]; intros cycle n.
  - simpl. unfold alive_edges. simpl.
    rewrite intersection_empty_r_L, difference_empty_L, size_empty. simpl.
    rewrite Z.add_0_r. done.
  - rewrite forM_cons, alive_edges_cons, solution_nonce_eq.
    destruct (alive_test bits x); simpl; [|rewrite bind_nil; apply IH].
    case_bool_decide as He.
    + rewrite Hp, bind_out, IH. cbn [fst snd app].
      rewrite (intersection_step _ _ _ He).
      rewrite size_step.
      2:{ rewrite elem_of_intersection, elem_of_difference,
            elem_of_singleton. tauto. }
      cbn [replicate]. rewrite difference_step.
      f_equal. f_equal. f_equal. lia.
    + rewrite bind_nil, IH.
      by rewrite (intersection_skip _ _ _ He), (difference_skip _ _ _ He).
Qed.

(** With [PROOFSIZE <= 2] the scan leaves the set as it is. *)
Lemma scan_keeping ctx bits nonce l cycle n :
  (2 <? PROOFSIZE) = false ->
  let k := length (matching ctx bits cycle l) in
  forM (solution_nonce ctx bits nonce) l (cycle, n) =
    (replicate k (ENonce nonce), Ret (cycle, n + Z.of_nat k)).
Proof.
  intros Hp. simpl. revert n.
  induction l as [|x l IH]; intros n.
  - simpl. rewrite Z.add_0_r. done.
  - rewrite forM_cons, matching_cons, solution_nonce_eq.
    destruct (alive_test bits x && bool_decide (sipedge ctx x ∈ cycle)).
    + rewrite Hp, bind_out, IH. simpl.
      f_equal. f_equal. f_equal. lia.
    + rewrite bind_nil. apply IH.
Qed.

(** C4, as the code has it.  With [PROOFSIZE > 2] each matched edge is
    struck from the pending set when its nonce is printed: the set left
    over is the collected set without the end points of the alive
    nonces, and the count is the number of collected edges that some
    alive nonce regenerates.  With [PROOFSIZE <= 2] nothing is struck and
    every alive nonce that regenerates a collected edge is counted.  The
    block prints one nonce per count and goes on to the newline exactly
    when the count is [PROOFSIZE]; otherwise its assertion fails. *)
Theorem solution_strikes_matched (ctx : siphash_ctx) (bits us vs : list Z)
    (nu nv nonce : Z) :
  let cycle := cycle_edges us vs nu nv in
  let all := seqZ 0 HALFSIZE in
  let k := if 2 <? PROOFSIZE
           then size (cycle ∩ alive_edges ctx bits all)
           else length (matching ctx bits cycle all) in
  solution_scan ctx bits nonce cycle =
    (replicate k (ENonce nonce),
     Ret (if 2 <? PROOFSIZE then cycle ∖ alive_edges ctx bits all else cycle,
          Z.of_nat k)) /\
  solution ctx bits us vs nu nv nonce =
    if Z.of_nat k =? u32 PROOFSIZE
    then (ESolution :: replicate k (ENonce nonce) ++ [ENewline], Ret tt)
    else (ESolution :: replicate k (ENonce nonce), Halt AssertFailed).
Proof.
  intros cycle all k.
  assert (Hscan : solution_scan ctx bits nonce cycle =
    (replicate k (ENonce nonce),
     Ret (if 2 <? PROOFSIZE then cycle ∖ alive_edges ctx bits all else cycle,
          Z.of_nat k))).
  { unfold solution_scan, k. fold all.
    destruct (2 <? PROOFSIZE) eqn:Hp.
    - by rewrite scan_erasing.
    - by rewrite scan_keeping. }
  split; [done|].
  unfold solution. fold cycle. rewrite Hscan.
  unfold print. rewrite bind_out. simpl. rewrite bind_out. simpl.
  destruct (Z.of_nat k =? u32 PROOFSIZE).
  - by rewrite bind_ret.
  - unfold stop. rewrite bind_halt. simpl. by rewrite app_nil_r.
Qed.

End SolutionFacts.

(** ** Bits of the set words *)

Lemma u32_pow2 k : 0 <= k < 32 -> u32 (Z.shiftl 1 k) = 2 ^ k.
Proof.
  intros Hk. unfold u32. rewrite Z.shiftl_1_l. apply Z.mod_small.
  split; [apply Z.pow_nonneg; lia|]. apply Z.pow_lt_mono_r; lia.
Qed.

Lemma testbit_lor_pow2 w k j :
  0 <= k -> Z.testbit (Z.lor w (2 ^ k)) j = Z.testbit w j || (k =? j).
Proof. intros Hk. by rewrite Z.lor_spec, Z.pow2_bits_eqb. Qed.

(** [(w >> k) & 1] *)
Lemma land_shiftr_1 w k :
  0 <= k -> (Z.land (Z.shiftr w k) 1 =? 1) = Z.testbit w k.
Proof.
  intros Hk. change 1 with (Z.ones 1) at 1.
  rewrite Z.land_ones by lia. change (2 ^ 1) with 2.
  rewrite <- Z.bit0_mod, Z.shiftr_spec by lia. rewrite Z.add_0_l.
  by destruct (Z.testbit w k).
Qed.

(** [(w >> k) & 2] *)
Lemma land_shiftr_2 w k :
  0 <= k -> (Z.land (Z.shiftr w k) 2 =? 0) = negb (Z.testbit w (k + 1)).
Proof.
  intros Hk.
  assert (Z.land (Z.shiftr w k) 2 = if Z.testbit w (k + 1) then 2 else 0) as ->.
  { apply Z.bits_inj'. intros j Hj. rewrite Z.land_spec.
    change 2 with (2 ^ 1) at 1. rewrite Z.pow2_bits_eqb by lia.
    rewrite Z.shiftr_spec by lia.
    destruct (Z.eqb_spec 1 j) as [<-|Hne].
    - rewrite Z.add_comm, andb_true_r.
      destruct (Z.testbit w (k + 1)); [done | by rewrite Z.bits_0].
    - rewrite andb_false_r. destruct (Z.testbit w (k + 1)).
      + change 2 with (2 ^ 1). rewrite Z.pow2_bits_eqb by lia.
        symmetry. by apply Z.eqb_neq.
      + by rewrite Z.bits_0. }
  by destruct (Z.testbit w (k + 1)).
Qed.

(** The test between the two [atomicOr]s of [twice_set::set]. *)
Lemma land_two_bits old k :
  0 <= k ->
  (Z.land old (Z.lor (2 ^ (k + 1)) (2 ^ k)) =? 2 ^ k)
  = Z.testbit old k && negb (Z.testbit old (k + 1)).
Proof.
  intros Hk. apply eq_true_iff_eq. rewrite Z.eqb_eq, andb_true_iff, negb_true_iff.
  split.
  - intros Heq. split.
    + apply (f_equal (fun x => Z.testbit x k)) in Heq.
      rewrite Z.land_spec, Z.lor_spec, !Z.pow2_bits_eqb in Heq by lia.
      rewrite Z.eqb_refl, orb_true_r, andb_true_r in Heq. done.
    + apply (f_equal (fun x => Z.testbit x (k + 1))) in Heq.
      rewrite Z.land_spec, Z.lor_spec, !Z.pow2_bits_eqb in Heq by lia.
      rewrite Z.eqb_refl, orb_true_l, andb_true_r in Heq.
      rewrite Heq. apply Z.eqb_neq. lia.
  - intros [Hk0 Hk1]. apply Z.bits_inj'. intros j Hj.
    rewrite Z.land_spec, Z.lor_spec, !Z.pow2_bits_eqb by lia.
    destruct (Z.eqb_spec k j) as [<-|Hne].
    + rewrite Hk0, orb_true_r. done.
    + destruct (Z.eqb_spec (k + 1) j) as [<-|Hne'].
      * by rewrite Hk1.
      * simpl. apply andb_false_r.
Qed.

Lemma lor_pow2_set w k : 0 <= k -> Z.testbit w k = true -> Z.lor w (2 ^ k) = w.
Proof.
  intros Hk Hw. apply Z.bits_inj'. intros j Hj.
  rewrite testbit_lor_pow2 by done.
  destruct (Z.eqb_spec k j) as [<-|]; [by rewrite Hw | apply orb_false_r].
Qed.

(** A nonce is its word and its bit. *)
Lemma div_mod_32_inj n m : n / 32 = m / 32 -> n mod 32 = m mod 32 -> n = m.
Proof.
  intros Hd Hm. rewrite (Z.div_mod n 32), (Z.div_mod m 32) by lia. lia.
Qed.

Lemma div_mod_16_inj n m : n / 16 = m / 16 -> n mod 16 = m mod 16 -> n = m.
Proof.
  intros Hd Hm. rewrite (Z.div_mod n 16), (Z.div_mod m 16) by lia. lia.
Qed.

(** ** [shrinkingset] *)

Lemma alive_test_testbit bits n :
  alive_test bits n = negb (Z.testbit (rd bits (n / 32)) (n mod 32)).
Proof.
  unfold alive_test. rewrite land_shiftr_1; [done|].
  apply Z.mod_pos_bound. lia.
Qed.

Lemma alive_reset_length bits n : length (alive_reset bits n) = length bits.
Proof. apply length_wr. Qed.

(** [reset] only ever turns alive edges into dead ones. *)
Lemma alive_reset_test bits n m :
  0 <= n -> 0 <= m ->
  alive_test (alive_reset bits n) m =
  alive_test bits m &&
  negb (bool_decide (m = n /\ n / 32 < Z.of_nat (length bits))).
Proof.
  intros Hn Hm. rewrite !alive_test_testbit. unfold alive_reset.
  pose proof (Z.mod_pos_bound n 32 ltac:(lia)) as Hr.
  assert (0 <= n / 32) by (apply Z.div_pos; lia).
  assert (0 <= m / 32) by (apply Z.div_pos; lia).
  rewrite u32_pow2 by lia.
  destruct (decide (n / 32 < Z.of_nat (length bits))) as [Hin|Hout].
  - destruct (decide (m / 32 = n / 32)) as [Heq|Hne].
    + rewrite Heq, rd_wr_eq by lia. rewrite testbit_lor_pow2 by lia.
      rewrite negb_orb. f_equal. f_equal.
      destruct (Z.eqb_spec (n mod 32) (m mod 32)) as [He|He].
      * rewrite bool_decide_eq_true_2; [done|].
        split; [|done]. by apply div_mod_32_inj.
      * rewrite bool_decide_eq_false_2; [done|]. intros [-> _]. done.
    + rewrite rd_wr_ne by lia.
      rewrite bool_decide_eq_false_2; [by rewrite andb_true_r|].
      intros [-> _]. done.
  - unfold wr. rewrite list_insert_ge by lia.
    rewrite bool_decide_eq_false_2; [by rewrite andb_true_r|]. tauto.
Qed.

Lemma alive_reset_dead bits n :
  0 <= n -> alive_test bits n = false -> alive_reset bits n = bits.
Proof.
  intros Hn Hdead. rewrite alive_test_testbit, negb_false_iff in Hdead.
  pose proof (Z.mod_pos_bound n 32 ltac:(lia)) as Hr.
  unfold alive_reset. rewrite u32_pow2 by lia.
  rewrite lor_pow2_set by (done || lia).
  unfold wr, rd. destruct (bits !! Z.to_nat (n / 32)) as [w|] eqn:E; simpl.
  - by apply list_insert_id.
  - apply list_insert_ge. by apply lookup_ge_None.
Qed.

(** ** The loops of the kernels *)

Section KernelLoops.
Context `{Params} `{EdgeGen}.

Lemma for_bits_fold {S : Type} (body : Z -> S -> S) p nonce st :
  for_bits body p nonce st = foldl (fun s n => body n s) st (bits_list p nonce).
Proof.
  revert nonce st. induction p as [p IH|p IH|]; intros nonce st; simpl; auto.
Qed.

Lemma for_alive32_fold {S : Type} (body : Z -> S -> S) alive32 nonce st :
  for_alive32 body alive32 nonce st
  = foldl (fun s n => body n s) st (alive32_list alive32 nonce).
Proof. destruct alive32; simpl; auto using for_bits_fold. Qed.

(** A word of [k] bits keeps the loop within [k] nonces of its start. *)
Lemma bits_list_range p nonce k x :
  0 <= k -> Zpos p < 2 ^ k -> x ∈ bits_list p nonce -> nonce <= x < nonce + k.
Proof.
  revert nonce k. induction p as [p IH|p IH|]; intros nonce k Hk Hp Hx.
  - assert (k <> 0) by (intros ->; simpl in Hp; lia).
    assert (Zpos p < 2 ^ (k - 1)).
    { replace k with (Z.succ (k - 1)) in Hp by lia.
      rewrite Z.pow_succ_r in Hp by lia. lia. }
    simpl in Hx. apply elem_of_cons in Hx as [->|Hx]; [lia|].
    apply (IH _ (k - 1)) in Hx; lia.
  - assert (k <> 0) by (intros ->; simpl in Hp; lia).
    assert (Zpos p < 2 ^ (k - 1)).
    { replace k with (Z.succ (k - 1)) in Hp by lia.
      rewrite Z.pow_succ_r in Hp by lia. lia. }
    simpl in Hx. apply (IH _ (k - 1)) in Hx; lia.
  - assert (k <> 0) by (intros ->; simpl in Hp; lia).
    simpl in Hx. apply list_elem_of_singleton in Hx as ->. lia.
Qed.

Lemma alive32_list_range bits block x :
  x ∈ alive32_list (alive_block bits block) block -> block <= x < block + 32.
Proof.
  unfold alive_block, u32.
  pose proof (Z.mod_pos_bound (Z.lnot (rd bits (block / 32))) (2 ^ 32)
                ltac:(lia)) as Hb.
  destruct (Z.lnot (rd bits (block / 32)) mod 2 ^ 32) as [|p|p] eqn:E;
    simpl; [by intros ?%elem_of_nil | | by intros ?%elem_of_nil].
  apply bits_list_range; lia.
Qed.

(** The loop over the blocks runs its body on [blocks_from]. *)
Lemma for_blocks_fold {S : Type} fuel (body : Z -> S -> S) step block st :
  for_blocks fuel body step block st
  = (fun bl => foldl (fun s b => body b s) st bl) <$> blocks_from fuel step block.
Proof.
  revert block st. induction fuel as [|fuel IH]; intros block st; simpl.
  - by destruct (block <? HALFSIZE).
  - destruct (block <? HALFSIZE); [|done]. rewrite IH.
    by destruct (blocks_from fuel step (block + step)).
Qed.

Lemma foldl_snoc {A : Type} (l acc : list A) :
  foldl (fun s b => s ++ [b]) acc l = acc ++ l.
Proof.
  revert acc. induction l as [|x l IH]; intros acc; simpl.
  - by rewrite app_nil_r.
  - rewrite IH, <- app_assoc. done.
Qed.

Lemma thread_blocks_eq nthreads id :
  thread_blocks nthreads id = blocks_from block_fuel (nthreads * 32) (id * 32).
Proof.
  unfold thread_blocks. rewrite for_blocks_fold.
  destruct (blocks_from _ _ _) as [bl|]; [|done]. simpl.
  by rewrite foldl_snoc.
Qed.

(** [kill_leaf_edges], thread by thread, is the model's thread run on its
    own. *)
Lemma kill_leaf_edges_blocks ctx nonleaf nthreads uorv part id alive :
  kill_leaf_edges ctx nonleaf nthreads uorv part id alive
  = (fun bl => foldl (fun a b => kill_leaf_edges_block ctx nonleaf uorv part b a)
                     alive bl) <$> thread_blocks nthreads id.
Proof. unfold kill_leaf_edges. by rewrite for_blocks_fold, thread_blocks_eq. Qed.

End KernelLoops.

(** ** The alive set only shrinks *)

Lemma rd_wr_cases a i x j :
  rd (wr a i x) j = rd a j \/ (rd (wr a i x) j = x /\ rd a j = rd a i).
Proof.
  unfold rd, wr. destruct (decide (Z.to_nat i = Z.to_nat j)) as [Heq|Hne].
  - rewrite <- Heq. destruct (decide (Z.to_nat i < length a)%nat).
    + right. by rewrite list_lookup_insert_eq.
    + left. by rewrite list_insert_ge by lia.
  - left. by rewrite list_lookup_insert_ne.
Qed.

Lemma shrinks_refl a : shrinks a a.
Proof. by split. Qed.

Lemma shrinks_trans a b c : shrinks a b -> shrinks b c -> shrinks a c.
Proof. intros [? ?] [? ?]. split; [congruence | auto]. Qed.

Lemma alive_reset_shrinks a n : shrinks a (alive_reset a n).
Proof.
  split; [apply alive_reset_length|]. intros m.
  rewrite !alive_test_testbit, !negb_true_iff. unfold alive_reset.
  destruct (rd_wr_cases a (n / 32)
              (Z.lor (rd a (n / 32)) (u32 (Z.shiftl 1 (n mod 32)))) (m / 32))
    as [->|[-> ->]]; [done|].
  rewrite Z.lor_spec, orb_false_iff. tauto.
Qed.

Lemma foldl_shrinks {A : Type} (f : list Z -> A -> list Z) (l : list A) a :
  (forall a x, shrinks a (f a x)) -> shrinks a (foldl f a l).
Proof.
  intros Hf. revert a. induction l as [|x l IH]; intros a; simpl.
  - apply shrinks_refl.
  - eapply shrinks_trans; [apply Hf | apply IH].
Qed.

Lemma alive_count_shrinks `{Params} a a' :
  shrinks a a' -> (alive_count a' <= alive_count a)%nat.
Proof.
  intros [_ Hsub]. unfold alive_count.
  induction (seqZ 0 HALFSIZE) as [|x l IH]; [done|].
  rewrite !filter_cons.
  destruct (alive_test a' x) eqn:E'.
  - rewrite (Hsub _ E'). simpl. lia.
  - destruct (alive_test a x); simpl; lia.
Qed.

Section Shrinking.
Context `{Params} `{EdgeGen}.

Lemma kill_leaf_edges_nonce_shrinks ctx nonleaf uorv part nonce a :
  shrinks a (kill_leaf_edges_nonce ctx nonleaf uorv part nonce a).
Proof.
  unfold kill_leaf_edges_nonce.
  repeat case_match; auto using shrinks_refl, alive_reset_shrinks.
Qed.

Lemma kill_leaf_edges_block_shrinks ctx nonleaf uorv part block a :
  shrinks a (kill_leaf_edges_block ctx nonleaf uorv part block a).
Proof.
  unfold kill_leaf_edges_block. rewrite for_alive32_fold.
  apply foldl_shrinks. intros. apply kill_leaf_edges_nonce_shrinks.
Qed.

Lemma kill_step_shrinks ctx nonleaf uorv part st i :
  shrinks st.1 (kill_step ctx nonleaf uorv part st i).1.
Proof.
  destruct st as [a ths]. unfold kill_step.
  destruct (ths !! i) as [[|b l]|]; simpl;
    auto using shrinks_refl, kill_leaf_edges_block_shrinks.
Qed.

Lemma kill_run_shrinks ctx nonleaf uorv part sched st :
  shrinks st.1 (foldl (kill_step ctx nonleaf uorv part) st sched).1.
Proof.
  revert st. induction sched as [|i sched IH]; intros st; simpl.
  - apply shrinks_refl.
  - eapply shrinks_trans; [apply kill_step_shrinks | apply IH].
Qed.

Lemma kill_launch_shrinks ctx nonleaf nthreads uorv part sched a a' :
  kill_launch ctx nonleaf nthreads uorv part sched a = Some a' -> shrinks a a'.
Proof.
  unfold kill_launch. intros Hk.
  destruct (mapM _ _) as [ths|]; [|done]. simpl in Hk.
  pose proof (kill_run_shrinks ctx nonleaf uorv part sched (a, ths)) as Hs.
  destruct (foldl _ _ _) as [a1 ths1]. simpl in Hs.
  destruct (forallb _ ths1); [|done]. by injection Hk as <-.
Qed.

Lemma for_opt_shrinks {A : Type} (body : A -> list Z -> option (list Z)) l a a' :
  (forall x a a', body x a = Some a' -> shrinks a a') ->
  for_opt body l a = Some a' -> shrinks a a'.
Proof.
  intros Hbody. revert a. induction l as [|x l IH]; intros a Hrun; simpl in *.
  - injection Hrun as <-. apply shrinks_refl.
  - destruct (body x a) as [a1|] eqn:E; [|done].
    eapply shrinks_trans; [by eapply Hbody | by apply IH].
Qed.

Lemma trim_pass_shrinks ctx nthreads sched round uorv part a a' :
  trim_pass ctx nthreads sched round uorv part a = Some a' -> shrinks a a'.
Proof.
  unfold trim_pass. intros Hp.
  destruct (count_launch _ _ _ _ _ _ _) as [nl|]; [|done].
  by eapply kill_launch_shrinks.
Qed.

Lemma trim_shrinks ctx nthreads ntrims sched a a' :
  trim ctx nthreads ntrims sched a = Some a' -> shrinks a a'.
Proof.
  unfold trim. apply for_opt_shrinks. intros round a1 a1'.
  apply for_opt_shrinks. intros uorv a2 a2'.
  apply for_opt_shrinks. intros part a3 a3'.
  apply trim_pass_shrinks.
Qed.

(** C5: [reset] never makes a dead edge alive and kills its own edge; on
    an edge that is already dead it changes nothing; and whatever the
    number of threads, the schedules and the number of rounds, trimming
    leaves no edge alive that was dead before, so the number of alive
    edges does not grow. *)
Theorem alive_only_shrinks (ctx : siphash_ctx) (nthreads ntrims : Z)
    (sched : scheduler) (bits bits' : list Z) (n m : Z) :
  0 <= n ->
  trim ctx nthreads ntrims sched bits = Some bits' ->
  (alive_test (alive_reset bits n) m = true -> alive_test bits m = true) /\
  (n / 32 < Z.of_nat (length bits) -> alive_test (alive_reset bits n) n = false) /\
  (alive_test bits n = false -> alive_reset bits n = bits) /\
  (alive_test bits' m = true -> alive_test bits m = true) /\
  (alive_count bits' <= alive_count bits)%nat.
Proof.
  intros Hn Htrim. pose proof (trim_shrinks _ _ _ _ _ _ Htrim) as Hs.
  split; [apply alive_reset_shrinks|].
  split.
  { intros Hin. rewrite alive_reset_test by done.
    rewrite bool_decide_eq_true_2 by done. apply andb_false_r. }
  split; [by apply alive_reset_dead|].
  split; [apply Hs | by apply alive_count_shrinks].
Qed.

End Shrinking.

(** ** [twice_set]: the two bits of a node *)

Lemma twice_bit_eq u : twice_bit u = 2 ^ (2 * (u mod 16)).
Proof.
  pose proof (Z.mod_pos_bound u 16 ltac:(lia)).
  unfold twice_bit. apply u32_pow2. lia.
Qed.

Lemma twice_bit2_eq u : twice_bit2 u = 2 ^ (2 * (u mod 16) + 1).
Proof.
  pose proof (Z.mod_pos_bound u 16 ltac:(lia)).
  unfold twice_bit2. rewrite twice_bit_eq.
  rewrite Z.shiftl_mul_pow2 by lia. rewrite <- Z.pow_add_r by lia.
  unfold u32. apply Z.mod_small.
  split; [apply Z.pow_nonneg; lia|]. apply Z.pow_lt_mono_r; lia.
Qed.

Lemma twice_test_twice bits u :
  (twice_test bits u =? 0) = negb (twice bits u).
Proof.
  pose proof (Z.mod_pos_bound u 16 ltac:(lia)).
  unfold twice_test, twice. apply land_shiftr_2. lia.
Qed.

Lemma twice_set_first_again bits u :
  (twice_set_first bits u).2 = once bits u && negb (twice bits u).
Proof.
  pose proof (Z.mod_pos_bound u 16 ltac:(lia)).
  unfold twice_set_first, once, twice. simpl.
  rewrite twice_bit_eq, twice_bit2_eq. apply land_two_bits. lia.
Qed.

Lemma twice_set_first_length bits u :
  length (twice_set_first bits u).1 = length bits.
Proof. apply length_wr. Qed.

Lemma twice_set_second_length bits u :
  length (twice_set_second bits u) = length bits.
Proof. apply length_wr. Qed.

(** Setting bit [k] in the word of [u], seen from the word of [v]. *)
Lemma testbit_wr_lor bits u v k j :
  node_ok (length bits) u -> 0 <= v -> 0 <= k ->
  Z.testbit (rd (wr bits (u / 16) (Z.lor (rd bits (u / 16)) (2 ^ k)))
                (v / 16)) j
  = Z.testbit (rd bits (v / 16)) j
    || bool_decide (v / 16 = u / 16) && (k =? j).
Proof.
  intros [Hu0 Hu1] Hv Hk.
  assert (0 <= u / 16 < Z.of_nat (length bits)).
  { split; [apply Z.div_pos; lia | apply Z.div_lt_upper_bound; lia]. }
  assert (0 <= v / 16) by (apply Z.div_pos; lia).
  case_bool_decide as Heq.
  - rewrite Heq, rd_wr_eq by lia. by apply testbit_lor_pow2.
  - rewrite rd_wr_ne by lia. simpl. by rewrite orb_false_r.
Qed.

Lemma twice_set_first_once bits u v :
  node_ok (length bits) u -> 0 <= v ->
  once (twice_set_first bits u).1 v = once bits v || bool_decide (v = u).
Proof.
  intros Hu Hv. unfold once, twice_set_first. simpl.
  pose proof (Z.mod_pos_bound u 16 ltac:(lia)).
  rewrite twice_bit_eq, testbit_wr_lor by (done || lia). f_equal.
  apply eq_true_iff_eq.
  rewrite andb_true_iff, !bool_decide_eq_true, Z.eqb_eq. split.
  - intros [Hq Hr]. apply div_mod_16_inj; [done | lia].
  - by intros ->.
Qed.

Lemma twice_set_first_twice bits u v :
  node_ok (length bits) u -> 0 <= v ->
  twice (twice_set_first bits u).1 v = twice bits v.
Proof.
  intros Hu Hv. unfold twice, twice_set_first. simpl.
  pose proof (Z.mod_pos_bound u 16 ltac:(lia)).
  rewrite twice_bit_eq, testbit_wr_lor by (done || lia).
  destruct (Z.eqb_spec (2 * (u mod 16)) (2 * (v mod 16) + 1)); [lia|].
  by rewrite andb_false_r, orb_false_r.
Qed.

Lemma twice_set_second_once bits u v :
  node_ok (length bits) u -> 0 <= v ->
  once (twice_set_second bits u) v = once bits v.
Proof.
  intros Hu Hv. unfold once, twice_set_second.
  pose proof (Z.mod_pos_bound u 16 ltac:(lia)).
  rewrite twice_bit2_eq, testbit_wr_lor by (done || lia).
  destruct (Z.eqb_spec (2 * (u mod 16) + 1) (2 * (v mod 16))); [lia|].
  by rewrite andb_false_r, orb_false_r.
Qed.

Lemma twice_set_second_twice bits u v :
  node_ok (length bits) u -> 0 <= v ->
  twice (twice_set_second bits u) v = twice bits v || bool_decide (v = u).
Proof.
  intros Hu Hv. unfold twice, twice_set_second.
  pose proof (Z.mod_pos_bound u 16 ltac:(lia)).
  rewrite twice_bit2_eq, testbit_wr_lor by (done || lia). f_equal.
  apply eq_true_iff_eq.
  rewrite andb_true_iff, !bool_decide_eq_true, Z.eqb_eq. split.
  - intros [Hq Hr]. apply div_mod_16_inj; [done | lia].
  - by intros ->.
Qed.

Lemma occ_cons u x l :
  occ u (x :: l) = if decide (x = u) then S (occ u l) else occ u l.
Proof. unfold occ. rewrite filter_cons. by case_decide. Qed.

Lemma occ_app u l1 l2 : occ u (l1 ++ l2) = (occ u l1 + occ u l2)%nat.
Proof. unfold occ. by rewrite filter_app, length_app. Qed.

Lemma occ_perm u l1 l2 : l1 ≡ₚ l2 -> occ u l1 = occ u l2.
Proof. intros Hp. unfold occ. by rewrite Hp. Qed.

(** ** Counting under any schedule *)

Section CountRace.

Lemma elem_of_concat {A : Type} (ls : list (list A)) (x : A) :
  x ∈ concat ls <-> exists l, l ∈ ls /\ x ∈ l.
Proof.
  induction ls as [|l ls IH]; simpl.
  - split; [by intros ?%elem_of_nil | by intros (? & ?%elem_of_nil & _)].
  - rewrite elem_of_app, IH. split.
    + intros [?|(l' & ? & ?)]; [exists l | exists l']; split; try done;
        [left | by right].
    + intros (l' & [->|?]%elem_of_cons & ?); [by left | right; eauto].
Qed.

Lemma concat_insert_cons {A : Type} (ls : list (list A)) i x xs :
  ls !! i = Some (x :: xs) -> concat ls ≡ₚ x :: concat (<[i := xs]> ls).
Proof.
  revert i. induction ls as [|l ls IH]; intros [|i] Hi; simpl in *; try done.
  - by injection Hi as ->.
  - rewrite (IH _ Hi). by rewrite Permutation_middle.
Qed.

Lemma todo_insert_same (ths : list cthread) (i : nat) (t t' : cthread) :
  ths !! i = Some t -> todo t' = todo t ->
  todo <$> <[i := t']> ths = todo <$> ths.
Proof.
  intros Hi Ht. rewrite list_fmap_insert, Ht.
  apply list_insert_id. by rewrite list_lookup_fmap, Hi.
Qed.

Lemma count_step_inv L total bits ths done i :
  count_inv L total bits ths done ->
  exists done', count_inv L total (count_step (bits, ths) i).1
                          (count_step (bits, ths) i).2 done'.
Proof.
  intros Hinv. unfold count_step.
  destruct (ths !! i) as [[[u|] l]|] eqn:Hi; [| |by exists done].
  - (* the second atomicOr of a set that is under way *)
    exists done. destruct Hinv as [Hlen Hperm Hok Honce Htwice Hpend Hpok].
    destruct (Hpok i _ u Hi eq_refl) as [Hu Hocc]. simpl.
    assert (Hu' : node_ok (length bits) u) by by rewrite Hlen.
    split.
    + by rewrite twice_set_second_length.
    + by rewrite (todo_insert_same _ _ _ _ Hi).
    + done.
    + intros v Hv. rewrite twice_set_second_once by (done || apply Hv). auto.
    + intros v Hv. rewrite twice_set_second_twice by (done || apply Hv).
      intros [?|Heq%bool_decide_eq_true]%orb_true_iff; [auto | by subst].
    + intros v Hv Hocc'.
      rewrite twice_set_second_twice by (done || apply Hv).
      destruct (Hpend v Hv Hocc') as [->|(j & t & Hj & Ht)]; [by left|].
      destruct (decide (j = i)) as [->|Hne].
      * left. rewrite Hi in Hj. injection Hj as <-. simpl in Ht.
        injection Ht as ->. rewrite bool_decide_eq_true_2 by done.
        apply orb_true_r.
      * right. exists j, t. by rewrite list_lookup_insert_ne.
    + intros j t v Hj Ht. destruct (decide (j = i)) as [->|Hne].
      * rewrite list_lookup_insert_eq in Hj by by eapply lookup_lt_Some.
        by injection Hj as <-.
      * rewrite list_lookup_insert_ne in Hj by done. eauto.
  - (* a thread between sets *)
    destruct l as [|u l]; [by exists done|].
    exists (u :: done). destruct Hinv as [Hlen Hperm Hok Honce Htwice Hpend Hpok].
    assert (Hin : u ∈ total).
    { rewrite <- Hperm. apply elem_of_app. right.
      apply elem_of_concat. exists (u :: l). split; [|left].
      apply list_elem_of_fmap. eexists. split; [|by eapply list_elem_of_lookup_2].
      done. }
    assert (Hu : node_ok L u) by by eapply Forall_forall in Hok.
    assert (Hu' : node_ok (length bits) u) by by rewrite Hlen.
    destruct (twice_set_first bits u) as [bits' again] eqn:Hfirst.
    assert (Hbits' : bits' = (twice_set_first bits u).1) by by rewrite Hfirst.
    assert (Hagain : again = once bits u && negb (twice bits u)).
    { rewrite <- twice_set_first_again. by rewrite Hfirst. }
    simpl. split.
    + by rewrite Hbits', twice_set_first_length.
    + rewrite <- Hperm. simpl.
      rewrite list_fmap_insert. simpl.
      rewrite (concat_insert_cons (todo <$> ths) i u l)
        by by rewrite list_lookup_fmap, Hi.
      by rewrite Permutation_middle.
    + done.
    + intros v Hv. rewrite Hbits', twice_set_first_once by (done || apply Hv).
      rewrite occ_cons, orb_true_iff, bool_decide_eq_true, Honce by done.
      case_decide; subst; [split; [lia | by right]|].
      split; [intros [?|?]; [lia | congruence] | by left].
    + intros v Hv. rewrite Hbits', twice_set_first_twice by (done || apply Hv).
      intros Ht. apply Htwice in Ht; [|done]. rewrite occ_cons.
      case_decide; lia.
    + intros v Hv. rewrite Hbits', twice_set_first_twice by (done || apply Hv).
      rewrite occ_cons. case_decide as Heq.
      * subst v. intros Hocc.
        destruct (twice bits u) eqn:Ht; [by left|]. right.
        exists i. eexists. split.
        { apply list_lookup_insert_eq. by eapply lookup_lt_Some. }
        simpl. rewrite Hagain.
        rewrite (proj2 (Honce u Hu)) by lia. done.
      * intros Hocc. destruct (Hpend v Hv Hocc) as [?|(j & t & Hj & Ht)];
          [by left|]. right.
        destruct (decide (j = i)) as [->|Hne].
        -- rewrite Hi in Hj. by injection Hj as <-.
        -- exists j, t. by rewrite list_lookup_insert_ne.
    + intros j t v Hj Ht. destruct (decide (j = i)) as [->|Hne].
      * rewrite list_lookup_insert_eq in Hj by by eapply lookup_lt_Some.
        injection Hj as <-. simpl in Ht.
        destruct again eqn:Ha; [|done]. injection Ht as <-.
        split; [done|]. symmetry in Hagain.
        apply andb_true_iff in Hagain as [Ho _].
        apply Honce in Ho; [|done]. rewrite occ_cons.
        rewrite decide_True by done. lia.
      * rewrite list_lookup_insert_ne in Hj by done.
        destruct (Hpok j t v Hj Ht) as [? ?]. split; [done|].
        rewrite occ_cons. case_decide; lia.
Qed.

Lemma count_run_inv L total sched bits ths done :
  count_inv L total bits ths done ->
  exists done', count_inv L total (foldl count_step (bits, ths) sched).1
                          (foldl count_step (bits, ths) sched).2 done'.
Proof.
  revert bits ths done. induction sched as [|i sched IH]; intros bits ths done Hinv.
  - by exists done.
  - change (foldl count_step (bits, ths) (i :: sched))
      with (foldl count_step (count_step (bits, ths) i) sched).
    destruct (count_step_inv _ _ _ _ _ i Hinv) as [done1 Hinv1].
    destruct (count_step (bits, ths) i) as [bits1 ths1]. by eapply IH.
Qed.

Lemma cthreads_done (ths : list cthread) :
  forallb cthread_done ths = true ->
  concat (todo <$> ths) = [] /\
  forall i t, ths !! i = Some t -> pend t = None.
Proof.
  induction ths as [|[p l] ths IH]; simpl; [done|].
  intros [Hd Hrest]%andb_true_iff. destruct (IH Hrest) as [Hc Hp].
  unfold cthread_done in Hd. simpl in Hd.
  destruct p; [done|]. destruct l; [|done]. split; [done|].
  intros [|i] t Hi; simpl in Hi; [by injection Hi as <- | eauto].
Qed.

(** When every thread has finished, a node is marked as seen twice
    exactly when it was passed to [set] at least twice. *)
Lemma count_inv_final L total bits ths done u :
  count_inv L total bits ths done -> forallb cthread_done ths = true ->
  node_ok L u ->
  (twice_test bits u =? 0) = negb (bool_decide (2 <= occ u total)%nat).
Proof.
  intros [Hlen Hperm Hok Honce Htwice Hpend Hpok] Hdone Hu.
  destruct (cthreads_done _ Hdone) as [Hc Hp].
  rewrite Hc, app_nil_r in Hperm.
  rewrite twice_test_twice. f_equal. rewrite <- (occ_perm u _ _ Hperm).
  apply eq_true_iff_eq. rewrite bool_decide_eq_true. split; [auto|].
  intros Hocc. destruct (Hpend u Hu Hocc) as [?|(i & t & Hi & Ht)]; [done|].
  rewrite (Hp _ _ Hi) in Ht. done.
Qed.

Lemma count_inv_init L bits ths :
  length bits = L ->
  (forall u, once bits u = false /\ twice bits u = false) ->
  Forall (fun t => pend t = None) ths ->
  Forall (node_ok L) (concat (todo <$> ths)) ->
  count_inv L (concat (todo <$> ths)) bits ths [].
Proof.
  intros Hlen Hzero Hpend Hok. split; try done.
  - intros u _. destruct (Hzero u) as [-> _]. unfold occ. simpl.
    split; [done | lia].
  - intros u _. destruct (Hzero u) as [_ ->]. done.
  - unfold occ. simpl. intros; lia.
  - intros i t u Hi Ht. eapply Forall_lookup in Hpend; [|done]. congruence.
Qed.

End CountRace.

(** ** [twice_set::set] run without interruption *)

Lemma twice_set_set_length bits u :
  length (twice_set_set bits u) = length bits.
Proof.
  unfold twice_set_set. destruct (twice_set_first bits u) as [b again] eqn:E.
  assert (length b = length bits) as Hb.
  { change b with (b, again).1. rewrite <- E. apply twice_set_first_length. }
  destruct again; [by rewrite twice_set_second_length | done].
Qed.

Lemma twice_set_set_fields bits u v :
  node_ok (length bits) u -> 0 <= v ->
  once (twice_set_set bits u) v = once bits v || bool_decide (v = u) /\
  twice (twice_set_set bits u) v
    = twice bits v || bool_decide (v = u) && once bits u.
Proof.
  intros Hu Hv. unfold twice_set_set.
  pose proof (twice_set_first_again bits u) as Hagain.
  pose proof (twice_set_first_once bits u v Hu Hv) as Ho.
  pose proof (twice_set_first_twice bits u v Hu Hv) as Ht.
  pose proof (twice_set_first_length bits u) as Hlen.
  destruct (twice_set_first bits u) as [b again]. simpl in *.
  destruct again.
  - rewrite twice_set_second_once, twice_set_second_twice
      by (by rewrite ?Hlen || done).
    split; [done|]. rewrite Ht. symmetry in Hagain.
    apply andb_true_iff in Hagain as [-> _]. by rewrite andb_true_r.
  - split; [done|]. rewrite Ht. case_bool_decide; [subst v|]; simpl.
    + destruct (once bits u), (twice bits u); done.
    + by rewrite orb_false_r.
Qed.

Section TwiceSequential.
Context `{Params}.

Lemma twice_reset_zero u :
  once twice_reset u = false /\ twice twice_reset u = false.
Proof.
  unfold once, twice, twice_reset. rewrite rd_replicate by done.
  by rewrite !Z.bits_0.
Qed.

Lemma occ_snoc u l x :
  occ u (l ++ [x]) = if decide (x = u) then S (occ u l) else occ u l.
Proof.
  rewrite occ_app, occ_cons. change (occ u []) with 0%nat.
  case_decide; lia.
Qed.

Lemma twice_sets_fields l :
  Forall (node_ok (Z.to_nat TWICE_WORDS)) l ->
  length (foldl twice_set_set twice_reset l) = Z.to_nat TWICE_WORDS /\
  forall u, 0 <= u ->
    once (foldl twice_set_set twice_reset l) u
      = bool_decide (1 <= occ u l)%nat /\
    twice (foldl twice_set_set twice_reset l) u
      = bool_decide (2 <= occ u l)%nat.
Proof.
  intros Hl. induction l as [|x l IH] using rev_ind.
  - simpl. split; [apply length_replicate|]. intros u _.
    by destruct (twice_reset_zero u) as [-> ->].
  - apply Forall_app in Hl as [Hl Hx]. apply Forall_inv in Hx.
    destruct (IH Hl) as (Hlen & Hfields).
    rewrite foldl_app. simpl. rewrite twice_set_set_length.
    split; [done|]. intros u Hu.
    assert (Hx' : node_ok (length (foldl twice_set_set twice_reset l)) x)
      by by rewrite Hlen.
    destruct (twice_set_set_fields _ x u Hx' Hu) as [-> ->].
    destruct (Hfields u Hu) as [-> ->].
    destruct (Hfields x (proj1 Hx)) as [-> _].
    rewrite occ_snoc.
    split; apply eq_true_iff_eq;
      rewrite orb_true_iff, ?andb_true_iff, !bool_decide_eq_true.
    + case_decide; subst; split; try lia; try tauto;
        try (intros [?|?]; [lia | congruence]).
    + case_decide; subst; split; try lia; try tauto;
        try (intros [?|[_ ?]]; lia);
        try (intros [?|[? _]]; [lia | congruence]).
Qed.

(** C7: after [reset], the test of a node is nonzero exactly when [set]
    was called for it at least twice: for the calls of a list [l] made
    one after the other, and for threads that make their calls in any
    interleaving of the two [atomicOr]s of each call, once every thread
    has finished.  The answer depends on the number of calls only, so
    calls for other nodes, further calls and a different order change
    nothing. *)
Theorem twice_set_saturates (l : list Z) (ths : list cthread)
    (sched : list nat) (u : Z) :
  Forall (node_ok (Z.to_nat TWICE_WORDS)) l ->
  node_ok (Z.to_nat TWICE_WORDS) u ->
  Forall (fun t => pend t = None) ths ->
  Forall (node_ok (Z.to_nat TWICE_WORDS)) (concat (todo <$> ths)) ->
  forallb cthread_done (foldl count_step (twice_reset, ths) sched).2 = true ->
  (twice_test (foldl twice_set_set twice_reset l) u <> 0
     <-> (2 <= occ u l)%nat) /\
  (twice_test (foldl count_step (twice_reset, ths) sched).1 u <> 0
     <-> (2 <= occ u (concat (todo <$> ths)))%nat).
Proof.
  intros Hl Hu Hpend Hok Hdone. split.
  - destruct (twice_sets_fields l Hl) as (_ & Hfields).
    destruct (Hfields u (proj1 Hu)) as [_ Ht].
    rewrite <- Z.eqb_neq, twice_test_twice, Ht, negb_false_iff.
    apply bool_decide_eq_true.
  - destruct (count_run_inv (Z.to_nat TWICE_WORDS) (concat (todo <$> ths))
                sched twice_reset ths []) as [done Hinv].
    { apply count_inv_init; try done.
      - apply length_replicate.
      - apply twice_reset_zero. }
    rewrite <- Z.eqb_neq, (count_inv_final _ _ _ _ _ _ Hinv Hdone Hu).
    rewrite negb_false_iff. apply bool_decide_eq_true.
Qed.

End TwiceSequential.

(** ** The blocks of the threads *)

Section Blocks.
Context `{Params}.

Lemma HALFSIZE_eq : trim_ok -> HALFSIZE = 2 ^ (SIZESHIFT - 1).
Proof.
  intros (? & ? & ?). unfold HALFSIZE. rewrite SIZE_eq by lia.
  replace SIZESHIFT with (Z.succ (SIZESHIFT - 1)) at 1 by lia.
  rewrite Z.pow_succ_r by lia. rewrite Z.mul_comm, Z.div_mul by lia. done.
Qed.

Lemma HALFSIZE_blocks : trim_ok -> HALFSIZE = 32 * (HALFSIZE / 32).
Proof.
  intros Hok. rewrite HALFSIZE_eq by done. destruct Hok as (? & ? & ?).
  replace (SIZESHIFT - 1) with (5 + (SIZESHIFT - 6)) by lia.
  rewrite Z.pow_add_r by lia. change (2 ^ 5) with 32.
  rewrite (Z.mul_comm 32 (2 ^ _)), Z.div_mul by lia. lia.
Qed.

Lemma HALFSIZE_pos : trim_ok -> 0 < HALFSIZE / 32.
Proof.
  intros Hok. rewrite HALFSIZE_eq by done. destruct Hok as (? & ? & ?).
  replace (SIZESHIFT - 1) with (5 + (SIZESHIFT - 6)) by lia.
  rewrite Z.pow_add_r by lia. change (2 ^ 5) with 32.
  rewrite (Z.mul_comm 32 (2 ^ _)), Z.div_mul by lia.
  apply Z.pow_pos_nonneg; lia.
Qed.

Lemma blocks_from_elem fuel step b l x :
  0 < step -> blocks_from fuel step b = Some l ->
  x ∈ l <-> exists k : nat, x = b + Z.of_nat k * step /\ x < HALFSIZE.
Proof.
  intros Hstep. revert b l. induction fuel as [|fuel IH]; intros b l; simpl.
  - destruct (Z.ltb_spec b HALFSIZE); [done|]. intros [= <-]. split.
    + by intros ?%elem_of_nil.
    + intros (k & -> & ?). nia.
  - destruct (Z.ltb_spec b HALFSIZE).
    + destruct (blocks_from fuel step (b + step)) as [l'|] eqn:E; [|done].
      intros [= <-]. rewrite elem_of_cons, (IH _ _ E). split.
      * intros [->|(k & -> & ?)]; [exists 0%nat | exists (S k)]; split; lia.
      * intros ([|k] & -> & ?); [left; lia|]. right. exists k. split; lia.
    + intros [= <-]. split.
      * by intros ?%elem_of_nil.
      * intros (k & -> & ?). nia.
Qed.

Lemma blocks_from_NoDup fuel step b l :
  0 < step -> blocks_from fuel step b = Some l -> NoDup l.
Proof.
  intros Hstep. revert b l. induction fuel as [|fuel IH]; intros b l; simpl.
  - destruct (b <? HALFSIZE); [done|]. intros [= <-]. constructor.
  - destruct (b <? HALFSIZE); [|intros [= <-]; constructor].
    destruct (blocks_from fuel step (b + step)) as [l'|] eqn:E; [|done].
    intros [= <-]. constructor; [|by eapply IH].
    rewrite (blocks_from_elem _ _ _ _ _ Hstep E). intros (k & ? & _). nia.
Qed.

Lemma blocks_from_Some fuel step b :
  32 <= step -> HALFSIZE - b <= 32 * Z.of_nat fuel ->
  is_Some (blocks_from fuel step b).
Proof.
  intros Hstep. revert b. induction fuel as [|fuel IH]; intros b Hb; simpl.
  - destruct (Z.ltb_spec b HALFSIZE); [lia | by eexists].
  - destruct (Z.ltb_spec b HALFSIZE); [|by eexists].
    destruct (IH (b + step)) as [l ->]; [lia | by eexists].
Qed.

Lemma thread_blocks_Some nthreads id :
  1 <= nthreads -> 0 <= id -> is_Some (thread_blocks nthreads id).
Proof.
  intros Hn Hid. rewrite thread_blocks_eq. apply blocks_from_Some; [lia|].
  unfold block_fuel.
  destruct (Z.le_gt_cases 0 HALFSIZE).
  - pose proof (Z.mod_pos_bound HALFSIZE 32 ltac:(lia)).
    pose proof (Z.div_mod HALFSIZE 32 ltac:(lia)).
    assert (0 <= HALFSIZE / 32) by (apply Z.div_pos; lia). lia.
  - lia.
Qed.

Lemma elem_of_all_blocks x :
  x ∈ all_blocks <-> exists q, 0 <= q < HALFSIZE / 32 /\ x = 32 * q.
Proof.
  unfold all_blocks. rewrite list_elem_of_fmap. split.
  - intros (q & -> & Hq%elem_of_seqZ). exists q. split; [lia | done].
  - intros (q & Hq & ->). exists q. split; [done|]. apply elem_of_seqZ. lia.
Qed.

Lemma NoDup_all_blocks : NoDup all_blocks.
Proof.
  unfold all_blocks. apply NoDup_fmap_2; [|apply NoDup_seqZ].
  intros x y. lia.
Qed.

Lemma NoDup_concat_keyed {A K : Type} (key : A -> K) (ks : list K)
    (ls : list (list A)) :
  NoDup ks ->
  Forall2 (fun k l => NoDup l /\ forall x, x ∈ l -> key x = k) ks ls ->
  NoDup (concat ls).
Proof.
  intros Hks Hall. induction Hall as [|k l ks ls [Hl Hkey] Hall IH]; simpl.
  - constructor.
  - apply NoDup_cons in Hks as [Hk Hks]. apply NoDup_app.
    split; [done|]. split; [|by apply IH].
    intros x Hx (l' & Hl' & Hx')%elem_of_concat. apply Hk.
    rewrite <- (Hkey x Hx). clear IH Hk.
    apply list_elem_of_lookup in Hl' as [i Hi].
    destruct (Forall2_lookup_r _ _ _ _ _ Hall Hi) as (k' & Hk' & _ & Hkey').
    rewrite (Hkey' x Hx'). by eapply list_elem_of_lookup_2.
Qed.

(** Together the threads visit every block once. *)
Lemma thread_blocks_cover nthreads bss :
  trim_ok -> 1 <= nthreads ->
  mapM (thread_blocks nthreads) (seqZ 0 nthreads) = Some bss ->
  concat bss ≡ₚ all_blocks.
Proof.
  intros Hok Hn Hm. apply mapM_Some in Hm.
  pose proof (HALFSIZE_blocks Hok) as HH.
  assert (Hspec : Forall2 (fun id bs =>
            0 <= id < nthreads /\ NoDup bs /\
            forall x, x ∈ bs <->
              exists k : nat, x = id * 32 + Z.of_nat k * (nthreads * 32)
                              /\ x < HALFSIZE)
          (seqZ 0 nthreads) bss).
  { apply Forall2_same_length_lookup. split; [by eapply Forall2_length|].
    intros i id bs Hid Hbs.
    pose proof (Forall2_lookup_lr _ _ _ _ _ _ Hm Hid Hbs) as Hth.
    simpl in Hth. rewrite thread_blocks_eq in Hth.
    apply list_elem_of_lookup_2, elem_of_seqZ in Hid.
    split; [lia|]. split; [eapply blocks_from_NoDup; [|done]; lia|].
    intros x. eapply blocks_from_elem; [lia | done]. }
  apply NoDup_Permutation.
  - apply (NoDup_concat_keyed (fun x => (x / 32) mod nthreads) (seqZ 0 nthreads)).
    + apply NoDup_seqZ.
    + eapply Forall2_impl; [exact Hspec|]. simpl.
      intros id bs (Hid & Hnd & Hel). split; [done|].
      intros x (k & -> & _)%Hel.
      replace (id * 32 + Z.of_nat k * (nthreads * 32))
        with ((id + Z.of_nat k * nthreads) * 32) by lia.
      rewrite Z.div_mul by lia. rewrite Z.mod_add by lia.
      apply Z.mod_small. lia.
  - apply NoDup_all_blocks.
  - intros x. rewrite elem_of_concat, elem_of_all_blocks. split.
    + intros (bs & Hbs & Hx). apply list_elem_of_lookup in Hbs as [i Hi].
      destruct (Forall2_lookup_r _ _ _ _ _ Hspec Hi) as (id & _ & Hid & _ & Hel).
      destruct (proj1 (Hel x) Hx) as (k & Hxk & Hlt).
      exists (id + Z.of_nat k * nthreads). split; [|lia]. nia.
    + intros (q & Hq & ->).
      assert (Hin : q mod nthreads ∈ seqZ 0 nthreads).
      { apply elem_of_seqZ. pose proof (Z.mod_pos_bound q nthreads). lia. }
      apply list_elem_of_lookup in Hin as [i Hi].
      destruct (Forall2_lookup_l _ _ _ _ _ Hspec Hi) as (bs & Hbs & _ & _ & Hel).
      exists bs. split; [by eapply list_elem_of_lookup_2|]. apply Hel.
      exists (Z.to_nat (q / nthreads)).
      assert (0 <= q / nthreads) by (apply Z.div_pos; lia).
      pose proof (Z.div_mod q nthreads ltac:(lia)). split; [|lia].
      rewrite Z2Nat.id by done. nia.
Qed.

End Blocks.

(** ** Killing under any schedule *)

Lemma wr_rd a i : wr a i (rd a i) = a.
Proof.
  unfold wr, rd. destruct (a !! Z.to_nat i) as [x|] eqn:E; simpl.
  - by apply list_insert_id.
  - apply list_insert_ge. by apply lookup_ge_None.
Qed.

Lemma wr_outside a i x : Z.of_nat (length a) <= i -> wr a i x = a.
Proof. intros Hi. unfold wr. apply list_insert_ge. lia. Qed.

Lemma wr_wr a i x y : wr (wr a i x) i y = wr a i y.
Proof. apply list_insert_insert_eq. Qed.

(** Resets within one word amount to one write of that word. *)
Lemma foldl_alive_reset_word a l i :
  0 <= i -> (forall n, n ∈ l -> n / 32 = i) ->
  foldl alive_reset a l
  = wr a i (foldl (fun w n => Z.lor w (u32 (Z.shiftl 1 (n mod 32))))
                  (rd a i) l).
Proof.
  intros Hi. revert a. induction l as [|n l IH]; intros a Hl; simpl.
  - by rewrite wr_rd.
  - rewrite IH by (intros; apply Hl; by right).
    unfold alive_reset. rewrite (Hl n) by by left.
    destruct (decide (i < Z.of_nat (length a))) as [Hin|Hout].
    + rewrite rd_wr_eq by lia. by rewrite wr_wr.
    + rewrite !(wr_outside a) by lia. done.
Qed.

Section KillFacts.
Context `{Params} `{EdgeGen}.

Lemma kill_nonce_kills ctx nl uorv part n a :
  kill_leaf_edges_nonce ctx nl uorv part n a
  = if kills ctx (leaf_test nl) uorv part n then alive_reset a n else a.
Proof.
  unfold kill_leaf_edges_nonce, kills, leaf_test.
  by destruct (_ =? part), (_ =? 0).
Qed.

Lemma foldl_kill_filter ctx nl uorv part l a :
  foldl (fun s n => kill_leaf_edges_nonce ctx nl uorv part n s) a l
  = foldl alive_reset a
          (filter (fun n => kills ctx (leaf_test nl) uorv part n) l).
Proof.
  revert a. induction l as [|n l IH]; intros a; simpl; [done|].
  rewrite filter_cons, kill_nonce_kills.
  destruct (kills ctx (leaf_test nl) uorv part n); simpl; apply IH.
Qed.

(** One iteration of the outer loop of [kill_leaf_edges] rewrites the
    word of its block, and that word only. *)
Lemma kill_block_word ctx nl uorv part b a :
  0 <= b -> b mod 32 = 0 ->
  kill_leaf_edges_block ctx nl uorv part b a
  = wr a (b / 32) (kill_word ctx (leaf_test nl) uorv part b (rd a (b / 32))).
Proof.
  intros Hb Hb32. unfold kill_leaf_edges_block, kill_word.
  rewrite for_alive32_fold, foldl_kill_filter.
  apply foldl_alive_reset_word; [apply Z.div_pos; lia|].
  intros n [_ Hn]%list_elem_of_filter.
  apply alive32_list_range in Hn.
  pose proof (Z.div_mod b 32 ltac:(lia)).
  symmetry. apply (Z.div_unique n 32 (b / 32) (n - b)); lia.
Qed.

Lemma kill_step_inv ctx nl uorv part a0 a ths j :
  kill_inv ctx (leaf_test nl) uorv part a0 a ths ->
  kill_inv ctx (leaf_test nl) uorv part a0
           (kill_step ctx nl uorv part (a, ths) j).1
           (kill_step ctx nl uorv part (a, ths) j).2.
Proof.
  intros Hinv. unfold kill_step.
  destruct (ths !! j) as [[|b l]|] eqn:Hj; [done| |done]. simpl.
  destruct Hinv as [Hlen Hnd Hsub Hword].
  pose proof (concat_insert_cons ths j b l Hj) as Hperm.
  assert (Hb : b ∈ concat ths) by (rewrite Hperm; left).
  destruct (proj1 (elem_of_all_blocks b) (Hsub b Hb)) as (q & Hq & ->).
  rewrite Hperm in Hnd. apply NoDup_cons in Hnd as [Hnotin Hnd'].
  rewrite kill_block_word by (lia || by rewrite Z.mul_comm, Z.mod_mul).
  replace (32 * q / 32) with q by (rewrite Z.mul_comm, Z.div_mul; lia).
  split.
  - by rewrite length_wr.
  - done.
  - intros x Hx. apply Hsub. rewrite Hperm. by right.
  - intros i Hi. destruct (decide (i = q)) as [->|Hne].
    + rewrite rd_wr_eq by lia.
      rewrite (Hword q Hi).
      rewrite bool_decide_eq_false_2 by (intros [_ ?]; done).
      rewrite bool_decide_eq_true_2; [done|]. split; [by apply Hsub | done].
    + rewrite rd_wr_ne by lia. rewrite (Hword i Hi).
      erewrite bool_decide_ext; [done|]. rewrite Hperm, elem_of_cons.
      split; [tauto|]. intros [? Hn]. split; [done|].
      intros [?|?]; [lia | done].
Qed.

Lemma kill_run_inv ctx nl uorv part a0 sched a ths :
  kill_inv ctx (leaf_test nl) uorv part a0 a ths ->
  kill_inv ctx (leaf_test nl) uorv part a0
           (foldl (kill_step ctx nl uorv part) (a, ths) sched).1
           (foldl (kill_step ctx nl uorv part) (a, ths) sched).2.
Proof.
  revert a ths. induction sched as [|j sched IH]; intros a ths Hinv; [done|].
  change (foldl (kill_step ctx nl uorv part) (a, ths) (j :: sched))
    with (foldl (kill_step ctx nl uorv part)
                (kill_step ctx nl uorv part (a, ths) j) sched).
  pose proof (kill_step_inv _ _ _ _ _ _ _ j Hinv) as Hinv1.
  destruct (kill_step ctx nl uorv part (a, ths) j) as [a1 ths1].
  by apply IH.
Qed.

Lemma lists_done (ths : list (list Z)) :
  forallb (fun l => bool_decide (l = [])) ths = true -> concat ths = [].
Proof.
  induction ths as [|l ths IH]; simpl; [done|].
  intros [Hl%bool_decide_eq_true Hrest]%andb_true_iff.
  by rewrite Hl, IH.
Qed.

Lemma rd_imap (f : nat -> Z -> Z) a i :
  0 <= i < Z.of_nat (length a) -> rd (imap f a) i = f (Z.to_nat i) (rd a i).
Proof.
  intros Hi. unfold rd. rewrite list_lookup_imap.
  destruct (lookup_lt_is_Some_2 a (Z.to_nat i) ltac:(lia)) as [x ->]. done.
Qed.

(** The killing launch gives every word its new value, whatever the
    number of threads and the schedule. *)
Lemma kill_launch_result ctx nl nthreads uorv part sched a a' :
  trim_ok -> 1 <= nthreads ->
  Z.of_nat (length a) = HALFSIZE / 32 ->
  kill_launch ctx nl nthreads uorv part sched a = Some a' ->
  a' = imap (fun i w => kill_word ctx (leaf_test nl) uorv part
                                  (32 * Z.of_nat i) w) a.
Proof.
  intros Hok Hn Hlen Hk. unfold kill_launch in Hk.
  destruct (mapM (thread_blocks nthreads) (seqZ 0 nthreads)) as [bss|] eqn:Hm;
    [|done]. simpl in Hk.
  pose proof (thread_blocks_cover nthreads bss Hok Hn Hm) as Hcover.
  assert (Hinv0 : kill_inv ctx (leaf_test nl) uorv part a a bss).
  { split; [done | | |].
    - rewrite Hcover. apply NoDup_all_blocks.
    - intros b. by rewrite Hcover.
    - intros i Hi. rewrite bool_decide_eq_false_2; [done|].
      rewrite Hcover. tauto. }
  pose proof (kill_run_inv _ _ _ _ _ sched _ _ Hinv0) as Hinv.
  destruct (foldl _ _ _) as [a1 ths1]. simpl in Hinv.
  destruct (forallb _ ths1) eqn:Hdone; [|done]. injection Hk as <-.
  destruct Hinv as [Hlen1 _ _ Hword]. apply lists_done in Hdone.
  apply array_eq; [by rewrite length_imap|].
  intros i Hi. rewrite Hlen1 in Hi. rewrite rd_imap by done.
  rewrite (Hword i Hi), Hdone, Z2Nat.id by lia.
  rewrite bool_decide_eq_true_2; [done|]. split; [|by intros ?%elem_of_nil].
  apply elem_of_all_blocks. exists i. split; [lia | done].
Qed.

End KillFacts.

(** ** One result for every number of threads and every schedule *)

Lemma concat_perm {A : Type} (ls1 ls2 : list (list A)) :
  ls1 ≡ₚ ls2 -> concat ls1 ≡ₚ concat ls2.
Proof.
  induction 1 as [|l ls1 ls2 _ IH|l1 l2 ls|ls1 ls2 ls3 _ IH1 _ IH2]; simpl.
  - done.
  - by rewrite IH.
  - by rewrite !app_assoc, (Permutation_app_comm l1 l2).
  - by rewrite IH1.
Qed.

Lemma concat_concat_fmap {A B : Type} (f : A -> list B) (lss : list (list A)) :
  concat ((fun ls => concat (f <$> ls)) <$> lss) = concat (f <$> concat lss).
Proof.
  induction lss as [|ls lss IH]; [done|].
  rewrite fmap_cons. cbn [concat]. by rewrite fmap_app, concat_app, IH.
Qed.

Lemma for_opt_foldl {A : Type} (P : list Z -> Prop)
    (body : A -> list Z -> option (list Z)) (f : list Z -> A -> list Z)
    (l : list A) (a a' : list Z) :
  (forall x a a', P a -> body x a = Some a' -> a' = f a x /\ P a') ->
  P a -> for_opt body l a = Some a' -> a' = foldl f a l /\ P a'.
Proof.
  intros Hbody. revert a. induction l as [|x l IH]; intros a Ha Hrun; simpl in *.
  - by injection Hrun as <-.
  - destruct (body x a) as [a1|] eqn:E; [|done].
    destruct (Hbody _ _ _ Ha E) as [-> Ha1]. by apply IH.
Qed.

Lemma foldl_snoc_Forall {A B : Type} (P : B -> Prop) (c : A -> bool)
    (g : A -> B) (l : list A) (acc : list B) :
  (forall n, P (g n)) -> Forall P acc ->
  Forall P (foldl (fun s n => if c n then s ++ [g n] else s) acc l).
Proof.
  intros Hg. revert acc. induction l as [|n l IH]; intros acc Hacc; simpl.
  - done.
  - apply IH. destruct (c n); [|done].
    apply Forall_app. split; [done|]. by constructor.
Qed.

Lemma filter_ext_bool {A : Type} (f g : A -> bool) (l : list A) :
  (forall x, f x = g x) ->
  filter (fun x => f x) l = filter (fun x => g x) l.
Proof.
  intros Hfg. induction l as [|x l IH]; [done|].
  rewrite !filter_cons, IH, Hfg. done.
Qed.

Section TrimDeterminism.
Context `{Params} `{EdgeGen}.

Lemma ONCE_BITS_eq :
  trim_ok -> 16 * Z.of_nat (Z.to_nat TWICE_WORDS) = 2 ^ (SIZESHIFT - 1 - PART_BITS).
Proof.
  intros Hok. unfold TWICE_WORDS, ONCE_BITS. rewrite HALFSIZE_eq by done.
  destruct Hok as (? & ? & ?).
  rewrite Z.shiftr_div_pow2, <- Z.pow_sub_r by lia.
  replace (SIZESHIFT - 1 - PART_BITS) with (4 + (SIZESHIFT - 5 - PART_BITS)) by lia.
  rewrite Z.pow_add_r by lia. change (2 ^ 4) with 16.
  replace (2 * (16 * 2 ^ (SIZESHIFT - 5 - PART_BITS)))
    with (2 ^ (SIZESHIFT - 5 - PART_BITS) * 32) by lia.
  rewrite Z.div_mul by lia.
  assert (0 < 2 ^ (SIZESHIFT - 5 - PART_BITS)) by (apply Z.pow_pos_nonneg; lia).
  lia.
Qed.

(** The nodes the kernels pass to the counters have a counter. *)
Lemma dipnode_node_ok ctx n uorv :
  trim_ok ->
  node_ok (Z.to_nat TWICE_WORDS) (Z.shiftr (dipnode ctx n uorv) PART_BITS).
Proof.
  intros Hok. unfold node_ok. rewrite ONCE_BITS_eq by done.
  unfold dipnode. cbv zeta.
  match goal with |- context [Z.land ?x NODEMASK] => generalize x end.
  intros x. unfold NODEMASK. rewrite HALFSIZE_eq by done.
  destruct Hok as (? & ? & ?).
  replace (2 ^ (SIZESHIFT - 1) - 1) with (Z.ones (SIZESHIFT - 1))
    by (rewrite Z.ones_equiv; lia).
  rewrite Z.land_ones by lia.
  pose proof (Z.mod_pos_bound x (2 ^ (SIZESHIFT - 1))
                ltac:(apply Z.pow_pos_nonneg; lia)) as Hx.
  rewrite Z.shiftr_div_pow2 by lia. split.
  - apply Z.div_pos; [lia | apply Z.pow_pos_nonneg; lia].
  - apply Z.div_lt_upper_bound; [apply Z.pow_pos_nonneg; lia|].
    rewrite <- Z.pow_add_r by lia.
    replace (PART_BITS + (SIZESHIFT - 1 - PART_BITS)) with (SIZESHIFT - 1) by lia.
    lia.
Qed.

Lemma block_marks_ok ctx alive uorv part b :
  trim_ok ->
  Forall (node_ok (Z.to_nat TWICE_WORDS)) (block_marks ctx alive uorv part b).
Proof.
  intros Hok. unfold block_marks. rewrite for_alive32_fold.
  apply foldl_snoc_Forall; [|constructor].
  intros n. by apply dipnode_node_ok.
Qed.

Lemma mapM_count_threads ctx alive nthreads uorv part ids ths :
  mapM (count_thread ctx alive nthreads uorv part) ids = Some ths ->
  exists bss,
    mapM (thread_blocks nthreads) ids = Some bss /\
    todo <$> ths
      = (fun bs => concat (block_marks ctx alive uorv part <$> bs)) <$> bss /\
    Forall (fun t => pend t = None) ths.
Proof.
  intros Hm. apply mapM_Some in Hm.
  induction Hm as [|id t ids ths Ht _ (bss & Hbss & Htodo & Hpend)].
  - by exists [].
  - unfold count_thread in Ht.
    destruct (thread_blocks nthreads id) as [bs|] eqn:Hbs; [|done].
    simpl in Ht. injection Ht as <-.
    exists (bs :: bss). split; [|split].
    + apply mapM_Some. constructor; [done|]. by apply mapM_Some.
    + rewrite !fmap_cons, Htodo. done.
    + by constructor.
Qed.

(** The counting launch leaves the counters of a node at "seen twice"
    exactly when the alive edges of the partition end at least twice in
    it, whatever the number of threads and the schedule. *)
Lemma count_launch_result ctx alive nthreads uorv part sched nl u :
  trim_ok -> 1 <= nthreads ->
  count_launch ctx alive nthreads uorv part sched twice_reset = Some nl ->
  node_ok (Z.to_nat TWICE_WORDS) u ->
  leaf_test nl u = leaf_of (all_marks ctx alive uorv part) u.
Proof.
  intros Hok Hn Hc Hu. unfold count_launch in Hc.
  destruct (mapM _ _) as [ths|] eqn:Hm; [|done]. simpl in Hc.
  destruct (mapM_count_threads _ _ _ _ _ _ _ Hm) as (bss & Hbss & Htodo & Hpend).
  pose proof (thread_blocks_cover nthreads bss Hok Hn Hbss) as Hcover.
  assert (Htotal : concat (todo <$> ths) ≡ₚ all_marks ctx alive uorv part).
  { rewrite Htodo, concat_concat_fmap. unfold all_marks.
    apply concat_perm. by rewrite Hcover. }
  assert (Hoks : Forall (node_ok (Z.to_nat TWICE_WORDS)) (concat (todo <$> ths))).
  { rewrite Htotal. unfold all_marks. apply Forall_forall.
    intros x (l & (b & -> & _)%list_elem_of_fmap & Hx)%elem_of_concat.
    pose proof (block_marks_ok ctx alive uorv part b Hok) as Hb.
    by eapply Forall_forall in Hb. }
  destruct (count_run_inv (Z.to_nat TWICE_WORDS) (concat (todo <$> ths))
              sched twice_reset ths []) as [done Hinv].
  { apply count_inv_init; try done.
    - apply length_replicate.
    - apply twice_reset_zero. }
  destruct (foldl count_step _ _) as [bits ths']. simpl in Hinv.
  destruct (forallb cthread_done ths') eqn:Hdone; [|done]. injection Hc as <-.
  unfold leaf_test, leaf_of.
  rewrite (count_inv_final _ _ _ _ _ _ Hinv Hdone Hu).
  by rewrite (occ_perm u _ _ Htotal).
Qed.

Lemma kill_word_ext ctx leaf1 leaf2 uorv part b w :
  trim_ok ->
  (forall u, node_ok (Z.to_nat TWICE_WORDS) u -> leaf1 u = leaf2 u) ->
  kill_word ctx leaf1 uorv part b w = kill_word ctx leaf2 uorv part b w.
Proof.
  intros Hok Hext. unfold kill_word. f_equal.
  apply filter_ext_bool. intros n. unfold kills.
  by rewrite Hext by by apply dipnode_node_ok.
Qed.

Lemma trim_pass_seq_length ctx uorv part a :
  length (trim_pass_seq ctx uorv part a) = length a.
Proof. apply length_imap. Qed.

Lemma trim_pass_result ctx nthreads sched round uorv part a a' :
  trim_ok -> 1 <= nthreads -> Z.of_nat (length a) = HALFSIZE / 32 ->
  trim_pass ctx nthreads sched round uorv part a = Some a' ->
  a' = trim_pass_seq ctx uorv part a.
Proof.
  intros Hok Hn Hlen Hp. unfold trim_pass in Hp.
  destruct (count_launch _ _ _ _ _ _ _) as [nl|] eqn:Hc; [|done]. simpl in Hp.
  rewrite (kill_launch_result _ _ _ _ _ _ _ _ Hok Hn Hlen Hp).
  unfold trim_pass_seq. apply imap_ext. intros i w _.
  apply kill_word_ext; [done|]. intros u Hu.
  by eapply count_launch_result.
Qed.

Lemma trim_result ctx nthreads ntrims sched a a' :
  trim_ok -> 1 <= nthreads -> Z.of_nat (length a) = HALFSIZE / 32 ->
  trim ctx nthreads ntrims sched a = Some a' ->
  a' = trim_seq ctx ntrims a.
Proof.
  intros Hok Hn Hlen Ht. unfold trim, trim_seq in *.
  eapply (for_opt_foldl (fun a => Z.of_nat (length a) = HALFSIZE / 32));
    [|exact Hlen|exact Ht].
  intros round a1 a1' Ha1.
  apply (for_opt_foldl (fun a => Z.of_nat (length a) = HALFSIZE / 32)); [|done].
  intros uorv a2 a2' Ha2.
  apply (for_opt_foldl (fun a => Z.of_nat (length a) = HALFSIZE / 32)); [|done].
  intros part a3 a3' Ha3 Hpass.
  rewrite (trim_pass_result _ _ _ _ _ _ _ _ Hok Hn Ha3 Hpass).
  split; [done|]. by rewrite trim_pass_seq_length.
Qed.


End TrimDeterminism.

(** ** The kernel bodies and the threads of the model *)

Lemma foldl_concat {A B : Type} (f : B -> A -> B) (ls : list (list A)) (b : B) :
  foldl f b (concat ls) = foldl (fun b l => foldl f b l) b ls.
Proof.
  revert b. induction ls as [|l ls IH]; intros b; simpl; [done|].
  by rewrite foldl_app, IH.
Qed.

Lemma foldl_marks {A B S : Type} (c : A -> bool) (g : A -> B)
    (set : S -> B -> S) (l : list A) (st : S) (acc : list B) :
  foldl set st
        (foldl (fun s n => if c n then s ++ [g n] else s) acc l)
  = foldl (fun s n => if c n then set s (g n) else s) (foldl set st acc) l.
Proof.
  revert acc. induction l as [|n l IH]; intros acc; simpl; [done|].
  rewrite IH. destruct (c n); [|done]. by rewrite foldl_app.
Qed.

Section KernelBodies.
Context `{Params} `{EdgeGen}.

(** The body of [count_node_deg] for one block makes the calls of
    [block_marks], one after the other. *)
Lemma count_node_deg_block ctx alive uorv part block nl :
  for_alive32 (count_node_deg_nonce ctx uorv part)
              (alive_block alive block) block nl
  = foldl twice_set_set nl (block_marks ctx alive uorv part block).
Proof.
  unfold block_marks. rewrite !for_alive32_fold.
  rewrite (foldl_marks
             (fun n => Z.land (dipnode ctx n uorv) PART_MASK =? part)
             (fun n => Z.shiftr (dipnode ctx n uorv) PART_BITS)
             twice_set_set).
  done.
Qed.

(** [count_node_deg], run by one thread on its own, makes the calls that
    the thread of the model has to make, in the same order. *)
Lemma count_node_deg_thread ctx alive nthreads uorv part id nl :
  count_node_deg ctx alive nthreads uorv part id nl
  = (fun t => foldl twice_set_set nl (todo t))
      <$> count_thread ctx alive nthreads uorv part id.
Proof.
  unfold count_node_deg, count_thread. rewrite for_blocks_fold, thread_blocks_eq.
  destruct (blocks_from _ _ _) as [bl|]; [|done]. simpl. f_equal.
  rewrite foldl_concat. revert nl.
  induction bl as [|b bl IH]; intros nl; simpl; [done|].
  by rewrite count_node_deg_block, IH.
Qed.

End KernelBodies.

(** ** Schedules that let every thread finish *)

Section InTurn.
Context {S T : Type}.
Variable step : S * list T -> nat -> S * list T.
Variable work : T -> nat.
Hypothesis step_length :
  forall s ths i, length (step (s, ths) i).2 = length ths.
Hypothesis step_other :
  forall s ths i j, j <> i -> (step (s, ths) i).2 !! j = ths !! j.
Hypothesis step_work :
  forall s ths i t, ths !! i = Some t ->
  exists t', (step (s, ths) i).2 !! i = Some t' /\ (work t' <= pred (work t))%nat.

(** A thread that is given as many steps as it has work comes to its
    end, and the other threads are where they were. *)
Lemma run_one_thread k s ths i t :
  ths !! i = Some t -> (work t <= k)%nat ->
  length (foldl step (s, ths) (replicate k i)).2 = length ths /\
  (exists t', (foldl step (s, ths) (replicate k i)).2 !! i = Some t'
              /\ work t' = 0%nat) /\
  (forall j, j <> i ->
     (foldl step (s, ths) (replicate k i)).2 !! j = ths !! j).
Proof.
  revert s ths t. induction k as [|k IH]; intros s ths t Hi Hk.
  - simpl. split; [done|]. split; [|done]. exists t. split; [done | lia].
  - change (foldl step (s, ths) (replicate (Datatypes.S k) i))
      with (foldl step (step (s, ths) i) (replicate k i)).
    destruct (step_work s ths i t Hi) as (t1 & Hi1 & Hw1).
    pose proof (step_length s ths i) as Hlen1.
    pose proof (step_other s ths i) as Hoth1.
    destruct (step (s, ths) i) as [s1 ths1]. simpl in *.
    destruct (IH s1 ths1 t1 Hi1 ltac:(lia)) as (Hlen & Hdone & Hoth).
    split; [congruence|]. split; [done|].
    intros j Hj. rewrite Hoth by done. by apply Hoth1.
Qed.

Lemma run_in_turn k ids s ths :
  NoDup ids ->
  (forall i, i ∈ ids -> exists t, ths !! i = Some t /\ (work t <= k)%nat) ->
  length (foldl step (s, ths)
            (concat ((fun i => replicate k i) <$> ids))).2 = length ths /\
  (forall i, i ∈ ids ->
     exists t', (foldl step (s, ths)
                   (concat ((fun i => replicate k i) <$> ids))).2 !! i = Some t'
                /\ work t' = 0%nat) /\
  (forall j, j ∉ ids ->
     (foldl step (s, ths)
        (concat ((fun i => replicate k i) <$> ids))).2 !! j = ths !! j).
Proof.
  intros Hnd. revert s ths.
  induction Hnd as [|i ids Hi Hnd IH]; intros s ths Hall.
  - simpl. split; [done|]. split; [|done]. by intros i ?%elem_of_nil.
  - rewrite fmap_cons. cbn [concat]. rewrite foldl_app.
    destruct (Hall i ltac:(left)) as (t & Hti & Hwt).
    destruct (run_one_thread k s ths i t Hti Hwt) as (Hlen1 & (t1 & Ht1 & Hw1) & Hoth1).
    destruct (foldl step (s, ths) (replicate k i)) as [s1 ths1]. simpl in *.
    destruct (IH s1 ths1) as (Hlen & Hdone & Hoth).
    { intros j Hj. rewrite Hoth1 by (intros ->; done).
      apply Hall. by right. }
    split; [congruence|]. split.
    + intros j [->|Hj]%elem_of_cons; [|by apply Hdone].
      rewrite Hoth by done. eauto.
    + intros j Hj. rewrite Hoth by (intros ?; apply Hj; by right).
      apply Hoth1. intros ->. apply Hj. left.
Qed.

End InTurn.

Lemma count_step_length bits ths i :
  length (count_step (bits, ths) i).2 = length ths.
Proof.
  unfold count_step. destruct (ths !! i) as [[[u|] [|v l]]|]; simpl;
    try done; apply length_insert.
Qed.

Lemma count_step_other bits ths i j :
  j <> i -> (count_step (bits, ths) i).2 !! j = ths !! j.
Proof.
  intros Hj. unfold count_step. destruct (ths !! i) as [[[u|] [|v l]]|]; simpl;
    try done; by apply list_lookup_insert_ne.
Qed.

Lemma count_step_work bits ths i t :
  ths !! i = Some t ->
  exists t', (count_step (bits, ths) i).2 !! i = Some t'
             /\ (count_work t' <= pred (count_work t))%nat.
Proof.
  intros Hi. pose proof (lookup_lt_Some _ _ _ Hi) as Hlt.
  unfold count_step. rewrite Hi. destruct t as [[u|] [|v l]]; simpl.
  - eexists. split; [by apply list_lookup_insert_eq|]. unfold count_work. simpl. lia.
  - eexists. split; [by apply list_lookup_insert_eq|]. unfold count_work. simpl. lia.
  - eexists. split; [done|]. unfold count_work. simpl. lia.
  - eexists. split; [by apply list_lookup_insert_eq|].
    unfold count_work. simpl. case_match; lia.
Qed.

Lemma count_work_done t : count_work t = 0%nat -> cthread_done t = true.
Proof.
  unfold count_work, cthread_done. destruct t as [[u|] [|v l]]; simpl; (done || lia).
Qed.

Lemma kill_step_length `{Params} `{EdgeGen} ctx nl uorv part a
    (ths : list (list Z)) i :
  length (kill_step ctx nl uorv part (a, ths) i).2 = length ths.
Proof.
  unfold kill_step. destruct (ths !! i) as [[|b l]|]; simpl; try done.
  apply length_insert.
Qed.

Lemma kill_step_other `{Params} `{EdgeGen} ctx nl uorv part a
    (ths : list (list Z)) i j :
  j <> i -> (kill_step ctx nl uorv part (a, ths) i).2 !! j = ths !! j.
Proof.
  intros Hj. unfold kill_step. destruct (ths !! i) as [[|b l]|]; simpl;
    try done. by apply list_lookup_insert_ne.
Qed.

Lemma kill_step_work `{Params} `{EdgeGen} ctx nl uorv part a
    (ths : list (list Z)) i t :
  ths !! i = Some t ->
  exists t', (kill_step ctx nl uorv part (a, ths) i).2 !! i = Some t'
             /\ (length t' <= pred (length t))%nat.
Proof.
  intros Hi. pose proof (lookup_lt_Some _ _ _ Hi) as Hlt.
  unfold kill_step. rewrite Hi. destruct t as [|b l]; simpl.
  - eexists. split; [done|]. simpl. lia.
  - eexists. split; [by apply list_lookup_insert_eq|]. lia.
Qed.

Lemma forallb_lookup {A : Type} (f : A -> bool) (l : list A) :
  (forall i x, l !! i = Some x -> f x = true) -> forallb f l = true.
Proof.
  induction l as [|x l IH]; intros Hall; simpl; [done|].
  rewrite (Hall 0%nat x eq_refl), IH; [done|].
  intros i y Hi. by apply (Hall (Datatypes.S i)).
Qed.

Lemma length_concat_le {A : Type} (ls : list (list A)) (l : list A) :
  l ∈ ls -> (length l <= length (concat ls))%nat.
Proof.
  induction ls as [|l' ls IH]; [by intros ?%elem_of_nil|].
  simpl. rewrite length_app.
  intros [->|Hl]%elem_of_cons; [lia|]. specialize (IH Hl). lia.
Qed.

Lemma length_concat_bound {A B : Type} (f : A -> list B) (k : nat) (l : list A) :
  (forall x, length (f x) <= k)%nat ->
  (length (concat (f <$> l)) <= k * length l)%nat.
Proof.
  intros Hf. induction l as [|x l IH]; [simpl; lia|].
  rewrite fmap_cons. cbn [concat length].
  rewrite length_app, Nat.mul_succ_r. specialize (Hf x). lia.
Qed.

Lemma foldl_snoc_length {A B : Type} (c : A -> bool) (g : A -> B)
    (l : list A) (acc : list B) :
  (length (foldl (fun s n => if c n then s ++ [g n] else s) acc l)
   <= length acc + length l)%nat.
Proof.
  revert acc. induction l as [|n l IH]; intros acc; simpl; [lia|].
  specialize (IH (if c n then acc ++ [g n] else acc)).
  destruct (c n); [rewrite length_app in IH; simpl in IH|]; lia.
Qed.

Lemma bits_list_length p nonce k :
  0 <= k -> Zpos p < 2 ^ k -> Z.of_nat (length (bits_list p nonce)) <= k.
Proof.
  revert nonce k. induction p as [p IH|p IH|]; intros nonce k Hk Hp.
  - assert (k <> 0) by (intros ->; simpl in Hp; lia).
    assert (Zpos p < 2 ^ (k - 1)).
    { replace k with (Z.succ (k - 1)) in Hp by lia.
      rewrite Z.pow_succ_r in Hp by lia. lia. }
    simpl length. specialize (IH (nonce + 1) (k - 1)). lia.
  - assert (k <> 0) by (intros ->; simpl in Hp; lia).
    assert (Zpos p < 2 ^ (k - 1)).
    { replace k with (Z.succ (k - 1)) in Hp by lia.
      rewrite Z.pow_succ_r in Hp by lia. lia. }
    simpl. specialize (IH (nonce + 1) (k - 1)). lia.
  - assert (k <> 0) by (intros ->; simpl in Hp; lia). simpl. lia.
Qed.

Lemma alive32_list_length bits block :
  (length (alive32_list (alive_block bits block) block) <= 32)%nat.
Proof.
  unfold alive_block, u32.
  pose proof (Z.mod_pos_bound (Z.lnot (rd bits (block / 32))) (2 ^ 32)
                ltac:(lia)) as Hb.
  destruct (Z.lnot (rd bits (block / 32)) mod 2 ^ 32) as [|p|p] eqn:E;
    simpl; [lia| |lia].
  pose proof (bits_list_length p block 32 ltac:(lia) ltac:(lia)). lia.
Qed.

Section Completion.
Context `{Params} `{EdgeGen}.

Lemma block_marks_length ctx alive uorv part b :
  (length (block_marks ctx alive uorv part b) <= 32)%nat.
Proof.
  unfold block_marks. rewrite for_alive32_fold.
  pose proof (foldl_snoc_length
    (fun n => Z.land (dipnode ctx n uorv) PART_MASK =? part)
    (fun n => Z.shiftr (dipnode ctx n uorv) PART_BITS)
    (alive32_list (alive_block alive b) b) []) as Hle.
  pose proof (alive32_list_length alive b). simpl in Hle. lia.
Qed.

Lemma in_turn_eq nthreads :
  in_turn nthreads
  = concat ((fun i => replicate (2 * Z.to_nat HALFSIZE + 1) i)
              <$> seq 0 (Z.to_nat nthreads)).
Proof. done. Qed.

Lemma thread_blocks_all nthreads :
  trim_ok -> 1 <= nthreads ->
  exists bss, mapM (thread_blocks nthreads) (seqZ 0 nthreads) = Some bss /\
    length bss = Z.to_nat nthreads /\
    forall bs, bs ∈ bss -> (32 * length bs <= Z.to_nat HALFSIZE)%nat.
Proof.
  intros Hok Hn.
  destruct (mapM (thread_blocks nthreads) (seqZ 0 nthreads)) as [bss|] eqn:Hm.
  - exists bss. split; [done|]. split.
    { apply length_mapM in Hm. rewrite length_seqZ in Hm. lia. }
    intros bs Hbs.
    pose proof (thread_blocks_cover nthreads bss Hok Hn Hm) as Hcover.
    pose proof (length_concat_le bss bs Hbs) as Hle.
    rewrite Hcover in Hle. unfold all_blocks in Hle.
    rewrite length_fmap, length_seqZ in Hle.
    pose proof (HALFSIZE_blocks Hok). pose proof (HALFSIZE_pos Hok). lia.
  - exfalso. apply mapM_None in Hm. apply Exists_exists in Hm as (id & Hid & Hnone).
    apply elem_of_seqZ in Hid.
    destruct (thread_blocks_Some nthreads id Hn ltac:(lia)) as [? ?]. congruence.
Qed.

(** Under [in_turn] the counting launch runs to its end. *)
Lemma count_launch_in_turn ctx alive nthreads uorv part nl :
  trim_ok -> 1 <= nthreads ->
  is_Some (count_launch ctx alive nthreads uorv part (in_turn nthreads) nl).
Proof.
  intros Hok Hn. unfold count_launch.
  destruct (thread_blocks_all nthreads Hok Hn) as (bss & Hbss & Hlen & Hbound).
  set (mk := fun bs => {| pend := None;
         todo := concat (block_marks ctx alive uorv part <$> bs) |}).
  assert (Hths : mapM (count_thread ctx alive nthreads uorv part)
                      (seqZ 0 nthreads) = Some (mk <$> bss)).
  { apply mapM_Some. apply mapM_Some in Hbss.
    apply Forall2_fmap_r. eapply Forall2_impl; [exact Hbss|].
    intros id bs Hid. unfold count_thread. simpl in Hid. by rewrite Hid. }
  rewrite Hths. simpl. rewrite in_turn_eq.
  destruct (run_in_turn count_step count_work count_step_length
              count_step_other count_step_work
              (2 * Z.to_nat HALFSIZE + 1) (seq 0 (Z.to_nat nthreads))
              nl (mk <$> bss)) as (Hlen' & Hdone & _).
  { apply NoDup_seq. }
  { intros i Hi%elem_of_seq.
    destruct (lookup_lt_is_Some_2 bss i ltac:(lia)) as [bs Hbs].
    exists (mk bs). split; [by rewrite list_lookup_fmap, Hbs|].
    unfold count_work. simpl.
    pose proof (length_concat_bound (block_marks ctx alive uorv part) 32 bs
                  (block_marks_length ctx alive uorv part)).
    pose proof (Hbound bs ltac:(by eapply list_elem_of_lookup_2)). lia. }
  destruct (foldl count_step _ _) as [bits ths']. simpl in *.
  rewrite forallb_lookup; [by eexists|].
  intros i t Hi. rewrite length_fmap in Hlen'.
  destruct (Hdone i) as (t' & Ht' & Hw).
  { apply elem_of_seq. apply lookup_lt_Some in Hi. lia. }
  rewrite Hi in Ht'. injection Ht' as <-. by apply count_work_done.
Qed.

(** Under [in_turn] the killing launch runs to its end. *)
Lemma kill_launch_in_turn ctx nl nthreads uorv part a :
  trim_ok -> 1 <= nthreads ->
  is_Some (kill_launch ctx nl nthreads uorv part (in_turn nthreads) a).
Proof.
  intros Hok Hn. unfold kill_launch.
  destruct (thread_blocks_all nthreads Hok Hn) as (bss & Hbss & Hlen & Hbound).
  rewrite Hbss. simpl. rewrite in_turn_eq.
  destruct (run_in_turn (kill_step ctx nl uorv part) length
              (kill_step_length ctx nl uorv part)
              (kill_step_other ctx nl uorv part)
              (kill_step_work ctx nl uorv part)
              (2 * Z.to_nat HALFSIZE + 1) (seq 0 (Z.to_nat nthreads))
              a bss) as (Hlen' & Hdone & _).
  { apply NoDup_seq. }
  { intros i Hi%elem_of_seq.
    destruct (lookup_lt_is_Some_2 bss i ltac:(lia)) as [bs Hbs].
    exists bs. split; [done|].
    pose proof (Hbound bs ltac:(by eapply list_elem_of_lookup_2)). lia. }
  destruct (foldl _ _ _) as [a' ths']. simpl in *.
  rewrite forallb_lookup; [by eexists|].
  intros i t Hi.
  destruct (Hdone i) as (t' & Ht' & Hw).
  { apply elem_of_seq. apply lookup_lt_Some in Hi. lia. }
  rewrite Hi in Ht'. injection Ht' as <-.
  apply bool_decide_eq_true. by apply nil_length_inv.
Qed.



End Completion.

(** ** Counting the surviving edges *)









Lemma filter_ext_in_bool {A : Type} (f g : A -> bool) (l : list A) :
  (forall x, x ∈ l -> f x = g x) ->
  filter (fun x => f x) l = filter (fun x => g x) l.
Proof.
  induction l as [|x l IH]; intros Hfg; [done|].
  rewrite !filter_cons, IH by (intros; apply Hfg; by right).
  rewrite (Hfg x) by by left. done.
Qed.

Lemma filter_none_bool {A : Type} (f : A -> bool) (l : list A) :
  (forall x, x ∈ l -> f x = false) -> filter (fun x => f x) l = [].
Proof.
  induction l as [|x l IH]; intros Hf; [done|].
  rewrite filter_cons, IH by (intros; apply Hf; by right).
  rewrite (Hf x) by by left. done.
Qed.

(** The loop over [alive32] visits the nonces whose bit is set. *)
Lemma bits_list_filter p nonce k :
  0 <= k -> Zpos p < 2 ^ k ->
  bits_list p nonce
  = filter (fun x => Z.testbit (Zpos p) (x - nonce)) (seqZ nonce k).
Proof.
  revert nonce k. induction p as [q IH|q IH|]; intros nonce k Hk Hp.
  - assert (k <> 0) by (intros ->; simpl in Hp; lia).
    assert (Zpos q < 2 ^ (k - 1)).
    { replace k with (Z.succ (k - 1)) in Hp by lia.
      rewrite Z.pow_succ_r in Hp by lia. lia. }
    rewrite seqZ_cons, filter_cons by lia. rewrite Z.sub_diag.
    change (Z.testbit (Z.pos q~1) 0) with true. simpl. f_equal.
    rewrite (IH (nonce + 1) (k - 1)) by lia.
    replace (Z.succ nonce) with (nonce + 1) by lia.
    replace (Z.pred k) with (k - 1) by lia.
    apply filter_ext_in_bool. intros x Hx%elem_of_seqZ.
    replace (x - nonce) with (Z.succ (x - (nonce + 1))) by lia.
    replace (Z.pos q~1) with (2 * Z.pos q + 1) by lia.
    rewrite Z.testbit_odd_succ by lia. done.
  - assert (k <> 0) by (intros ->; simpl in Hp; lia).
    assert (Zpos q < 2 ^ (k - 1)).
    { replace k with (Z.succ (k - 1)) in Hp by lia.
      rewrite Z.pow_succ_r in Hp by lia. lia. }
    rewrite seqZ_cons, filter_cons by lia. rewrite Z.sub_diag.
    change (Z.testbit (Z.pos q~0) 0) with false. simpl.
    rewrite (IH (nonce + 1) (k - 1)) by lia.
    replace (Z.succ nonce) with (nonce + 1) by lia.
    replace (Z.pred k) with (k - 1) by lia.
    apply filter_ext_in_bool. intros x Hx%elem_of_seqZ.
    replace (x - nonce) with (Z.succ (x - (nonce + 1))) by lia.
    replace (Z.pos q~0) with (2 * Z.pos q) by lia.
    rewrite Z.testbit_even_succ by lia. done.
  - assert (k <> 0) by (intros ->; simpl in Hp; lia).
    rewrite seqZ_cons, filter_cons by lia. rewrite Z.sub_diag. simpl.
    f_equal. symmetry. apply filter_none_bool.
    intros x Hx%elem_of_seqZ.
    replace (x - nonce) with (Z.succ (x - nonce - 1)) by lia.
    change 1 with (2 * 0 + 1). rewrite Z.testbit_odd_succ by lia.
    by rewrite Z.bits_0.
Qed.

(** For a block, these are its alive nonces. *)
Lemma alive32_list_alive bits i :
  0 <= i ->
  alive32_list (alive_block bits (32 * i)) (32 * i)
  = filter (fun n => alive_test bits n) (seqZ (32 * i) 32).
Proof.
  intros Hi. unfold alive_block, u32.
  replace (32 * i / 32) with i by (rewrite Z.mul_comm, Z.div_mul; lia).
  set (w := rd bits i).
  pose proof (Z.mod_pos_bound (Z.lnot w) (2 ^ 32) ltac:(lia)) as Hb.
  assert (Hbit : forall x, x ∈ seqZ (32 * i) 32 ->
            Z.testbit (Z.lnot w mod 2 ^ 32) (x - 32 * i) = alive_test bits x).
  { intros x Hx%elem_of_seqZ. rewrite alive_test_testbit.
    rewrite Z.mod_pow2_bits_low, Z.lnot_spec by lia.
    replace (x / 32) with i
      by (apply (Z.div_unique x 32 i (x - 32 * i)); lia).
    replace (x mod 32) with (x - 32 * i)
      by (apply (Z.mod_unique x 32 i (x - 32 * i)); lia).
    done. }
  destruct (Z.lnot w mod 2 ^ 32) as [|p|p] eqn:E; [| |lia].
  - simpl. symmetry. apply filter_none_bool.
    intros x Hx. rewrite <- (Hbit x Hx). by rewrite Z.bits_0.
  - simpl. rewrite (bits_list_filter p (32 * i) 32) by lia.
    by apply filter_ext_in_bool.
Qed.

Section CountAlive.
Context `{Params}.



End CountAlive.

(** ** The overload guard *)

Section Overload.
Context `{Params} `{EdgeGen}.



End Overload.

(** ** Determinism of a run *)

Section Determinism.
Context `{Params} `{EdgeGen}.


End Determinism.

(** ** Blocks of nonces *)

(** The blocks of 32, one after the other, are the range they divide. *)
Lemma full_blocks n :
  concat ((fun b => seqZ b 32) <$> ((fun k => 32 * k) <$> seqZ 0 (Z.of_nat n)))
  = seqZ 0 (32 * Z.of_nat n).
Proof.
  induction n as [|n IH]; [done|].
  replace (Z.of_nat (S n)) with (Z.of_nat n + 1) by lia.
  rewrite seqZ_app by lia. rewrite !fmap_app, concat_app, IH.
  change (seqZ (0 + Z.of_nat n) 1) with [0 + Z.of_nat n].
  cbn [fmap list_fmap concat]. rewrite app_nil_r.
  replace (32 * (Z.of_nat n + 1)) with (32 * Z.of_nat n + 32) by lia.
  rewrite (seqZ_app 0) by lia. by f_equal.
Qed.

(** ** The pointer table and the map of its pointers *)

Section TableRefines.
Context `{Params}.

Lemma lookup_probe_no_assert fuel c u ui r :
  table_ok -> SIZESHIFT <= 32 -> lookup_probe fuel c u ui = Some r ->
  exists v, r = Found v /\ 0 <= v < SIZE.
Proof.
  intros Hok H32. pose proof (MAXDRIFT_large Hok H32) as Hdrift.
  pose proof (CUCKOO_SIZE_pos Hok) as Hpos. pose proof Hok as [[? ?] ?].
  revert ui. induction fuel as [|fuel IH]; intros ui; simpl; [done|].
  destruct (rd c ui =? 0).
  { intros [= <-]. exists 0. split; [done|]. rewrite SIZE_eq by lia.
    split; [lia|]. apply Z.pow_pos_nonneg; lia. }
  destruct (Z.shiftr (rd c ui) SIZESHIFT =? Z.land u KEYMASK); [|apply IH].
  rewrite land_CUCKOO_MASK by done.
  pose proof (Z.mod_pos_bound (ui - Z.shiftr u IDXSHIFT) CUCKOO_SIZE Hpos).
  destruct (Z.ltb_spec ((ui - Z.shiftr u IDXSHIFT) mod CUCKOO_SIZE) MAXDRIFT); [|lia].
  intros [= <-]. eexists. split; [done|].
  rewrite SIZE_eq by lia.
  replace (2 ^ SIZESHIFT - 1) with (Z.ones SIZESHIFT) by (rewrite Z.ones_equiv; lia).
  rewrite Z.land_ones by lia. apply Z.mod_pos_bound. apply Z.pow_pos_nonneg; lia.
Qed.

(** X4: With at most 32 size bits the assertion of [operator[]] cannot fail,
    whatever the table holds: a lookup that returns, returns a node. *)
Theorem lookup_never_asserts (fuel : nat) (c : list Z) (u : Z)
    (r : lookup_result) :
  table_ok -> SIZESHIFT <= 32 -> cuckoo_lookup fuel c u = Some r ->
  exists v, r = Found v /\ 0 <= v < SIZE.
Proof. intros Hok H32. by apply lookup_probe_no_assert. Qed.

(** X3: With at most 32 size bits, [operator[]] returns a node on the
    tables on which [set] returns, after the same number of probes; it
    returns exactly when the probe sequence reaches a slot that is empty
    or holds the key, one turn of the ring is then enough, and on a full
    table without the key it never returns. *)
Theorem lookup_terminates_iff (fuel : nat) (c : list Z) (u v : Z) :
  table_ok -> SIZESHIFT <= 32 -> 0 <= u < SIZE ->
  length c = Z.to_nat CUCKOO_SIZE ->
  ((exists w, cuckoo_lookup fuel c u = Some (Found w)) <->
   is_Some (cuckoo_set fuel c u v)) /\
  ((exists fuel' w, cuckoo_lookup fuel' c u = Some (Found w)) <->
   (exists i, 0 <= i < CUCKOO_SIZE /\
      (rd c i = 0 \/ key_of (rd c i) = Z.land u KEYMASK))) /\
  ((exists fuel' w, cuckoo_lookup fuel' c u = Some (Found w)) ->
   exists w, cuckoo_lookup probe_fuel c u = Some (Found w)) /\
  ((forall i, 0 <= i < CUCKOO_SIZE ->
      rd c i <> 0 /\ key_of (rd c i) <> Z.land u KEYMASK) ->
   forall fuel', cuckoo_lookup fuel' c u = None).
Proof.
  intros Hok H32 Hu _.
  assert (Hst : forall w, set_stops w u = true <->
                          (w = 0 \/ key_of w = Z.land u KEYMASK)).
  { intros w. unfold set_stops, key_of.
    rewrite orb_true_iff, !Z.eqb_eq. done. }
  assert (Hfound : forall f, is_Some (cuckoo_lookup f c u) <->
                     exists w, cuckoo_lookup f c u = Some (Found w)).
  { intros f. split.
    - intros [r Hr].
      destruct (lookup_probe_no_assert _ _ _ _ _ Hok H32 Hr) as (w & -> & _).
      by exists w.
    - intros [w ->]. by eexists. }
  assert (Hiff : (exists fuel', is_Some (cuckoo_lookup fuel' c u)) <->
                 (exists i, 0 <= i < CUCKOO_SIZE /\
                    (rd c i = 0 \/ key_of (rd c i) = Z.land u KEYMASK))).
  { split.
    + intros [fuel' [r Hr]]. rewrite cuckoo_lookup_find in Hr.
      destruct (find_stop fuel' c u 0) as [d|] eqn:Hf; [|done].
      apply find_stop_Some in Hf as (_ & Hd & _).
      exists (probe_slot u d). split; [by apply probe_slot_range|].
      by apply Hst.
    + intros (i & Hi & Hstop). apply Hst in Hstop.
      destruct (probe_slot_surj u i Hok Hu Hi) as (d & _ & <-).
      destruct (find_stop_one_turn c u d Hok Hu Hstop) as (d0 & Hd0 & _).
      exists probe_fuel. rewrite cuckoo_lookup_find.
      unfold probe_dist in Hd0. rewrite Hd0. by eexists. }
  split; [|split; [|split]].
  - rewrite <- Hfound. rewrite cuckoo_lookup_find, cuckoo_set_find.
    by rewrite !fmap_is_Some.
  - rewrite <- Hiff. split.
    + intros (f & w & Hw). exists f. rewrite Hw. by eexists.
    + intros (f & Hf). exists f. by apply Hfound.
  - intros (fuel' & w & Hw). apply Hfound.
    rewrite cuckoo_lookup_find in Hw.
    destruct (find_stop fuel' c u 0) as [d|] eqn:Hf; [|done].
    apply find_stop_Some in Hf as (_ & Hd & _).
    destruct (find_stop_one_turn c u d Hok Hu Hd) as (d0 & Hd0 & _).
    rewrite cuckoo_lookup_find. unfold probe_dist in Hd0. rewrite Hd0.
    by eexists.
  - intros Hfull f. destruct (cuckoo_lookup f c u) as [r|] eqn:Hr; [|done].
    exfalso. destruct Hiff as [Hiff _].
    destruct Hiff as (i & Hi & Hstop).
    { exists f. rewrite Hr. by eexists. }
    destruct (Hfull i Hi) as [? ?]. by destruct Hstop.
Qed.

(** X2: [set] writes one word, inside the table, at a slot that was empty or
    held the key; every other slot keeps its word. *)
Theorem set_writes_one_slot (fuel : nat) (c c' : list Z) (u v : Z) :
  table_ok -> 0 <= u < SIZE -> length c = Z.to_nat CUCKOO_SIZE ->
  cuckoo_set fuel c u v = Some c' ->
  length c' = length c /\
  exists i, 0 <= i < CUCKOO_SIZE /\
    (rd c i = 0 \/ key_of (rd c i) = Z.land u KEYMASK) /\
    rd c' i = entry u v /\
    forall j, 0 <= j -> j <> i -> rd c' j = rd c j.
Proof.
  intros Hok Hu Hlen Hset. split; [by eapply cuckoo_set_length|].
  rewrite cuckoo_set_find in Hset.
  destruct (find_stop fuel c u 0) as [d|] eqn:Hf; [|done].
  injection Hset as <-. apply find_stop_Some in Hf as (_ & Hd & _).
  pose proof (probe_slot_range u d Hok Hu) as Hr.
  exists (probe_slot u d). split; [done|]. split.
  { unfold set_stops, key_of in *.
    apply orb_true_iff in Hd. rewrite !Z.eqb_eq in Hd. done. }
  split; [apply rd_wr_eq; lia|].
  intros j Hj Hne. apply rd_wr_ne; lia.
Qed.

(** *** The table and the map of its pointers *)

Lemma occupied_wr_empty c i x :
  0 <= i < Z.of_nat (length c) -> rd c i = 0 -> x <> 0 ->
  occupied (wr c i x) = S (occupied c).
Proof.
  intros Hi Hz Hx. unfold occupied, wr, rd in *.
  destruct (c !! Z.to_nat i) as [y|] eqn:E.
  2:{ apply lookup_ge_None in E. lia. }
  simpl in Hz. subst y.
  rewrite <- (take_drop_middle c (Z.to_nat i) 0 E) at 2.
  rewrite insert_take_drop by lia.
  rewrite !filter_app, !filter_cons, !length_app.
  rewrite decide_True by done. rewrite decide_False by (intros ?; done).
  simpl. lia.
Qed.

(** A table with fewer words in use than slots has an empty slot. *)
Lemma empty_slot_exists (c : list Z) :
  (occupied c < length c)%nat ->
  exists i, 0 <= i < Z.of_nat (length c) /\ rd c i = 0.
Proof.
  unfold occupied. induction c as [|x c IH]; simpl; [lia|].
  rewrite filter_cons. destruct (decide (x ≠ 0)) as [Hx|Hx]; simpl.
  - intros Hlt. destruct IH as (i & Hi & Hz); [lia|].
    exists (i + 1). split; [lia|]. unfold rd in *.
    replace (Z.to_nat (i + 1)) with (S (Z.to_nat i)) by lia. done.
  - intros _. exists 0. split; [lia|]. unfold rd. simpl.
    destruct (decide (x = 0)); [done|]. by destruct Hx.
Qed.

Lemma table_holds_new : table_ok -> table_holds cuckoo_new ∅.
Proof.
  intros Hok. split.
  - by apply table_wf_new.
  - intros i _ Hi. unfold cuckoo_new in Hi. by rewrite rd_replicate in Hi.
  - intros k v Hk. by rewrite lookup_empty in Hk.
  - rewrite map_size_empty. unfold occupied, cuckoo_new.
    induction (Z.to_nat CUCKOO_SIZE) as [|n IH]; [done|].
    simpl. rewrite filter_cons. rewrite decide_False by (intros ?; done). done.
Qed.

(** The probe for a node stops on a table that has an empty slot. *)
Lemma probe_stops c k :
  table_ok -> 0 <= k < SIZE -> length c = Z.to_nat CUCKOO_SIZE ->
  (occupied c < length c)%nat ->
  exists d, probe_dist c k = Some d.
Proof.
  intros Hok Hk Hlen Hocc.
  destruct (empty_slot_exists c Hocc) as (i & Hi & Hz).
  destruct (probe_slot_surj k i Hok Hk ltac:(lia)) as (d & _ & Hd).
  destruct (find_stop_one_turn c k d Hok Hk) as (d0 & Hd0 & _).
  { rewrite Hd, Hz. done. }
  by exists d0.
Qed.

(** What [operator[]] answers on a table that holds the pointers of [m]. *)
Lemma table_holds_lookup c m k :
  table_ok -> SIZESHIFT <= 32 -> table_holds c m -> 0 <= k < SIZE ->
  (occupied c < length c)%nat ->
  cuckoo_lookup probe_fuel c k = Some (Found (default 0 (m !! k))).
Proof.
  intros Hok H32 [Hwf Hword Hptr Hsize] Hk Hocc.
  pose proof Hwf as [Hlen Hwf'].
  destruct (probe_stops c k Hok Hk Hlen Hocc) as [d Hd].
  pose proof (probe_dist_lt _ _ _ Hd) as HdC.
  pose proof (probe_slot_range k d Hok Hk) as Hr.
  pose proof (MAXDRIFT_large Hok H32) as Hdrift.
  rewrite cuckoo_lookup_find. fold (probe_dist c k). rewrite Hd. simpl.
  f_equal. unfold lookup_at. rewrite probe_distance by done.
  destruct (Z.eqb_spec (rd c (probe_slot k d)) 0) as [Hz|Hnz].
  - destruct (m !! k) as [v|] eqn:Hm; [|done]. exfalso.
    destruct (Hptr k v Hm) as (Hk' & Hv & i & Hi & Hrd).
    assert (Hnz : rd c i <> 0).
    { rewrite Hrd. apply entry_nonzero; [done..|].
      rewrite land_KEYMASK_small by done. lia. }
    destruct (Hwf' i Hi Hnz) as (_ & e & He & Hslot).
    rewrite Hrd, key_of_entry, land_KEYMASK_small in He, Hslot by done.
    assert (e = d) as -> by congruence. congruence.
  - destruct (Z.ltb_spec (Z.of_nat d) MAXDRIFT); [|lia].
    unfold probe_dist in Hd. apply find_stop_Some in Hd as (_ & Hst & _).
    unfold set_stops in Hst. rewrite (proj2 (Z.eqb_neq _ _) Hnz) in Hst.
    simpl in Hst. apply Z.eqb_eq in Hst.
    fold (key_of (rd c (probe_slot k d))) in Hst.
    rewrite land_KEYMASK_small in Hst by done.
    pose proof (Hword _ Hr Hnz) as Hm. rewrite Hst in Hm. by rewrite Hm.
Qed.

(** [set(u, v)] on a table that holds [m] gives a table that holds
    [m] with [u] pointing to [v]. *)
Lemma table_holds_set c m u v :
  table_ok -> SIZESHIFT <= 32 -> table_holds c m ->
  0 < u < SIZE -> 0 <= v < SIZE ->
  (m !! u = None -> (occupied c < length c)%nat) ->
  exists c', cuckoo_set probe_fuel c u v = Some c' /\
             table_holds c' (<[u := v]> m).
Proof.
  intros Hok H32 Hth Hu Hv Hroom.
  pose proof Hth as [Hwf Hword Hptr Hsize].
  pose proof Hwf as [Hlen Hwf'].
  assert (Hu' : 0 <= u < SIZE) by lia.
  assert (Hnz_entry : forall k w, 0 < k < SIZE -> 0 <= w < SIZE -> entry k w <> 0).
  { intros k w Hk Hw. apply entry_nonzero; [done..|].
    rewrite land_KEYMASK_small by (done || lia). lia. }
  assert (Hkey_entry : forall k w, 0 < k < SIZE -> 0 <= w < SIZE ->
                                   key_of (entry k w) = k).
  { intros k w Hk Hw. rewrite key_of_entry by done.
    apply land_KEYMASK_small; (done || lia). }
  assert (Hd : exists d, probe_dist c u = Some d).
  { destruct (m !! u) as [w|] eqn:Hm.
    - destruct (Hptr u w Hm) as (_ & Hw & i & Hi & Hrd).
      destruct (Hwf' i Hi) as (_ & e & He & _).
      { rewrite Hrd. by apply Hnz_entry. }
      rewrite Hrd, Hkey_entry in He by done. by exists e.
    - apply probe_stops; try done. by apply Hroom. }
  destruct Hd as [d Hd].
  pose proof (probe_dist_lt _ _ _ Hd) as HdC.
  pose proof (probe_slot_range u d Hok Hu') as Hs.
  pose proof (MAXDRIFT_large Hok H32) as Hdrift.
  destruct (lookup_after_set c u v d Hok Hlen Hu' Hv Hd ltac:(lia))
    as (Hset & _ & _).
  exists (wr c (probe_slot u d) (entry u v)). split; [done|].
  set (s := probe_slot u d) in *.
  assert (Hstop : rd c s = 0 \/ (rd c s <> 0 /\ key_of (rd c s) = u)).
  { unfold probe_dist in Hd. apply find_stop_Some in Hd as (_ & Hst & _).
    fold s in Hst. unfold set_stops in Hst.
    destruct (Z.eqb_spec (rd c s) 0) as [?|Hnz]; [by left|]. right.
    simpl in Hst. apply Z.eqb_eq in Hst. fold (key_of (rd c s)) in Hst.
    rewrite land_KEYMASK_small in Hst by done. done. }
  (* a word of another slot has another key *)
  assert (Hother : forall i, 0 <= i < CUCKOO_SIZE -> i <> s -> rd c i <> 0 ->
                             key_of (rd c i) <> u).
  { intros i Hi Hne Hnz Hkey.
    destruct (Hwf' i Hi Hnz) as (_ & e & He & Hslot).
    rewrite Hkey in He, Hslot. assert (e = d) as -> by congruence.
    by apply Hne. }
  split.
  - exact (table_wf_set c u v _ Hok H32 Hwf Hu Hv Hset).
  - intros i Hi Hnz. destruct (decide (i = s)) as [->|Hne].
    + rewrite rd_wr_eq by lia. rewrite Hkey_entry, value_of_entry by done.
      apply lookup_insert_eq.
    + rewrite rd_wr_ne in Hnz |- * by lia.
      rewrite lookup_insert_ne by (intros Heq; by apply (Hother i Hi Hne Hnz)).
      by apply Hword.
  - intros k w Hm. destruct (decide (k = u)) as [->|Hne].
    + rewrite lookup_insert_eq in Hm. injection Hm as <-.
      split; [done|]. split; [done|]. exists s. split; [done|].
      apply rd_wr_eq. lia.
    + rewrite lookup_insert_ne in Hm by done.
      destruct (Hptr k w Hm) as (Hk & Hw & i & Hi & Hrd).
      split; [done|]. split; [done|]. exists i. split; [done|].
      rewrite rd_wr_ne; [done|lia|lia|]. intros ->.
      destruct Hstop as [Hz|[_ Hkey]].
      * rewrite Hz in Hrd. symmetry in Hrd. by apply Hnz_entry in Hrd.
      * rewrite Hrd, Hkey_entry in Hkey by done. done.
  - rewrite map_size_insert. destruct Hstop as [Hz|[Hnz Hkey]].
    + rewrite occupied_wr_empty; [|lia|done|by apply Hnz_entry].
      destruct (m !! u) as [w|] eqn:Hm; [|by rewrite Hsize].
      exfalso. destruct (Hptr u w Hm) as (_ & Hw & i & Hi & Hrd).
      assert (Hnz : rd c i <> 0) by (rewrite Hrd; by apply Hnz_entry).
      destruct (decide (i = s)) as [->|Hne]; [done|].
      apply (Hother i Hi Hne Hnz). rewrite Hrd. by apply Hkey_entry.
    + rewrite occupied_wr; [|lia|done|by apply Hnz_entry].
      pose proof (Hword s Hs Hnz) as Hm. rewrite Hkey in Hm. by rewrite Hm.
Qed.

Lemma sets_map_size m ops : (size m <= size (sets_map m ops))%nat.
Proof.
  revert m. induction ops as [|op ops IH]; intros m; simpl; [done|].
  etrans; [|apply IH]. rewrite map_size_insert. destruct (m !! op.1); simpl; lia.
Qed.

Lemma table_holds_sets c m ops :
  table_ok -> SIZESHIFT <= 32 -> table_holds c m -> Forall valid_op ops ->
  Z.of_nat (size (sets_map m ops)) < CUCKOO_SIZE ->
  exists c', cuckoo_sets ops c = Some c' /\ table_holds c' (sets_map m ops).
Proof.
  intros Hok H32 Hth Hops. revert c m Hth.
  induction Hops as [|[u v] ops [Hu Hv] _ IH]; intros c m Hth Hsize.
  - exists c. done.
  - simpl in *.
    pose proof (sets_map_size (<[u:=v]> m) ops) as Hmono.
    destruct (table_holds_set c m u v Hok H32 Hth Hu Hv) as (c1 & Hset & Hth1).
    { intros Hnone. rewrite map_size_insert, Hnone in Hmono.
      destruct Hth as [[Hlen _] _ _ Hocc]. lia. }
    destruct (IH c1 _ Hth1 Hsize) as (c' & Hsets & Hth').
    exists c'. split; [|done].
    rewrite cuckoo_sets_cons. simpl. rewrite Hset. done.
Qed.

Lemma cuckoo_sets_holds c0 m0 ops :
  table_ok -> SIZESHIFT <= 32 -> table_holds c0 m0 -> Forall valid_op ops ->
  Z.of_nat (size (sets_map m0 ops)) < CUCKOO_SIZE ->
  exists c, cuckoo_sets ops c0 = Some c /\ table_holds c (sets_map m0 ops) /\
    forall k, 0 <= k < SIZE ->
      cuckoo_lookup probe_fuel c k
        = Some (Found (default 0 (sets_map m0 ops !! k))).
Proof.
  intros Hok H32 Hth0 Hops Hsize.
  destruct (table_holds_sets c0 m0 ops Hok H32 Hth0 Hops Hsize)
    as (c & Hsets & Hth).
  exists c. split; [done|]. split; [done|].
  intros k Hk. apply table_holds_lookup; try done.
  destruct Hth as [[Hlen _] _ _ Hocc]. lia.
Qed.

(** X1: A table filled by [set] calls answers as the map of those calls does,
    as long as a slot stays empty: every call returns, the number of
    slots in use is the number of keys, and [operator[]] gives the node
    last set for a key and the sentinel for every other node. *)
Theorem table_refines_map (ops : list (Z * Z)) :
  table_ok -> SIZESHIFT <= 32 -> Forall valid_op ops ->
  Z.of_nat (size (sets_map ∅ ops)) < CUCKOO_SIZE ->
  exists c, cuckoo_sets ops cuckoo_new = Some c /\
    occupied c = size (sets_map ∅ ops) /\
    forall k, 0 <= k < SIZE ->
      cuckoo_lookup probe_fuel c k
        = Some (Found (default 0 (sets_map ∅ ops !! k))).
Proof.
  intros Hok H32 Hops Hsize.
  destruct (table_holds_sets cuckoo_new ∅ ops Hok H32 (table_holds_new Hok)
              Hops Hsize) as (c & Hsets & Hth).
  exists c. split; [done|]. split; [apply Hth|].
  intros k Hk. apply table_holds_lookup; try done.
  destruct Hth as [[Hlen _] _ _ Hocc]. lia.
Qed.

End TableRefines.

(** ** [path]: what it returns and why it stops *)

Section PathReturns.
Context `{Params} `{EdgeGen}.

Lemma MAXPATHLEN_pos : 0 <= SIZESHIFT -> 8 <= MAXPATHLEN.
Proof.
  intros Hs. unfold MAXPATHLEN.
  assert (0 <= SIZESHIFT / 3) by (apply Z.div_pos; lia).
  rewrite Z.shiftl_mul_pow2 by lia.
  assert (0 < 2 ^ (SIZESHIFT / 3)) by (apply Z.pow_pos_nonneg; lia). lia.
Qed.

Lemma lookupM_cases cuckoo u :
  (exists v, lookupM cuckoo u = mret v) \/
  lookupM cuckoo u = stop AssertFailed \/ lookupM cuckoo u = stop Diverges.
Proof.
  unfold lookupM. destruct (cuckoo_lookup probe_fuel cuckoo u) as [[v|]|]; eauto.
Qed.

Lemma path_search_range us u n :
  path_search us u n = u32 (-1) \/
  (0 <= path_search us u n < Z.of_nat n /\ rd us (path_search us u n) = u).
Proof.
  induction n as [|n IH]; simpl; [by left|].
  destruct (Z.eqb_spec (rd us (Z.of_nat n)) u) as [Heq|Hne].
  - right. split; [lia | done].
  - destruct IH as [IH|[IH1 IH2]]; [by left|]. right. split; [lia | done].
Qed.

(** What the loop of [path] leaves behind when it returns. *)
Lemma path_loop_returns fuel cuckoo us0 u nu0 out nu us :
  0 <= nu0 -> MAXPATHLEN <= Z.of_nat (length us0) ->
  path_loop fuel cuckoo us0 u nu0 = (out, Ret (nu, us)) ->
  out = [] /\ nu0 <= nu /\ (nu0 < nu -> nu < MAXPATHLEN) /\
  length us = length us0 /\
  (forall i, 0 <= i -> i <= nu0 \/ nu < i -> rd us i = rd us0 i) /\
  (nu = nu0 <-> u = 0) /\
  (nu0 < nu -> rd us (nu0 + 1) = u) /\
  (forall i, nu0 < i <= nu -> rd us i <> 0) /\
  (forall i, nu0 < i < nu -> lookupM cuckoo (rd us i) = mret (rd us (i + 1))) /\
  (nu0 < nu -> lookupM cuckoo (rd us nu) = mret 0).
Proof.
  revert us0 u nu0 out. induction fuel as [|fuel IH]; intros us0 u nu0 out Hnu0 Hlen.
  - simpl. destruct (Z.eqb_spec u 0) as [->|Hu]; [|done].
    intros [= <- <- <-]. repeat split; try done; try lia.
  - cbn [path_loop]. destruct (Z.eqb_spec u 0) as [->|Hu].
    { intros [= <- <- <-]. repeat split; try done; try lia. }
    destruct (Z.leb_spec MAXPATHLEN (nu0 + 1)) as [Hfull|Hroom].
    { destruct (_ =? _); unfold print, stop; rewrite bind_out; done. }
    destruct (lookupM_cases cuckoo u) as [[u' Hu']|[Hu'|Hu']]; rewrite Hu';
      [|done..].
    rewrite bind_ret. intros Hrun.
    apply IH in Hrun; [|lia|by rewrite length_wr].
    destruct Hrun as (-> & Hle & Hlt & Hl & Hframe & Hzero & Hfirst & Hnz & Hchain
                      & Hlast).
    rewrite length_wr in Hl.
    assert (Hhere : rd us (nu0 + 1) = u).
    { rewrite Hframe by lia. apply rd_wr_eq. lia. }
    split; [done|]. split; [lia|]. split.
    { intros _. destruct (decide (nu = nu0 + 1)); [lia | apply Hlt; lia]. }
    split; [done|]. split.
    { intros i Hi Hcase. rewrite Hframe by lia. apply rd_wr_ne; lia. }
    split; [split; [lia | done]|]. split; [done|]. split.
    { intros i Hi. destruct (decide (i = nu0 + 1)) as [->|]; [congruence|].
      apply Hnz. lia. }
    split.
    { intros i Hi. destruct (decide (i = nu0 + 1)) as [->|].
      - rewrite Hhere, Hfirst by lia. done.
      - apply Hchain. lia. }
    intros _. destruct (decide (nu = nu0 + 1)) as [->|].
    + rewrite Hhere, Hu'. f_equal. apply Hzero. done.
    + apply Hlast. lia.
Qed.

(** X5: When [path] returns [nu], it has printed nothing, [nu] is below
    [MAXPATHLEN], the trail [us[1..nu]] holds the node it was called with
    and the nodes reached from it by following the pointers, all of them
    other than the sentinel, the last of them pointing to the sentinel,
    and the rest of the array is as it was. *)
Theorem path_returns_chain (cuckoo us0 us : list Z) (u nu : Z)
    (out : list event) :
  0 <= SIZESHIFT -> MAXPATHLEN <= Z.of_nat (length us0) ->
  path cuckoo u us0 = (out, Ret (nu, us)) ->
  out = [] /\ 0 <= nu < MAXPATHLEN /\ length us = length us0 /\
  (nu = 0 <-> u = 0) /\
  (forall i, 0 <= i -> i = 0 \/ nu < i -> rd us i = rd us0 i) /\
  (0 < nu -> rd us 1 = u /\ lookupM cuckoo (rd us nu) = mret 0) /\
  (forall i, 0 < i <= nu -> rd us i <> 0) /\
  (forall i, 0 < i < nu -> lookupM cuckoo (rd us i) = mret (rd us (i + 1))).
Proof.
  intros Hs Hlen Hrun. pose proof (MAXPATHLEN_pos Hs) as HM.
  apply path_loop_returns in Hrun; [|lia|done].
  destruct Hrun as (-> & Hle & Hlt & Hl & Hframe & Hzero & Hfirst & Hnz & Hchain
                    & Hlast).
  split; [done|]. split.
  { destruct (decide (nu = 0)); [lia|]. split; [lia | apply Hlt; lia]. }
  split; [done|]. split; [done|]. split.
  { intros i Hi Hcase. apply Hframe; lia. }
  split; [|done]. intros Hpos. split; [by apply Hfirst | by apply Hlast].
Qed.

(** The loop of [path] with enough fuel for the rest of the trail. *)
Lemma path_loop_stops fuel cuckoo us0 u nu0 :
  0 <= nu0 < MAXPATHLEN -> MAXPATHLEN <= 2 ^ 24 ->
  MAXPATHLEN <= nu0 + Z.of_nat fuel ->
  (exists nu us, path_loop fuel cuckoo us0 u nu0 = mret (nu, us)) \/
  (exists e, path_loop fuel cuckoo us0 u nu0 = ([e], Halt (Exit 0)) /\
     (e = EMaxPath \/
      exists len, e = EIllegalCycle len /\ 1 <= len <= MAXPATHLEN)) \/
  (exists k, rtc (follows cuckoo) u k /\ k <> 0 /\
     (lookupM cuckoo k = stop AssertFailed /\
      path_loop fuel cuckoo us0 u nu0 = stop AssertFailed \/
      lookupM cuckoo k = stop Diverges /\
      path_loop fuel cuckoo us0 u nu0 = stop Diverges)).
Proof.
  intros Hnu0 HM. revert us0 u nu0 Hnu0.
  induction fuel as [|fuel IH]; intros us0 u nu0 Hnu0 Hfuel; [lia|].
  cbn [path_loop]. destruct (Z.eqb_spec u 0) as [->|Hu]; [left; eauto|].
  destruct (Z.leb_spec MAXPATHLEN (nu0 + 1)) as [Hfull|Hroom].
  - right. left.
    destruct (path_search_range us0 u (Z.to_nat (nu0 + 1))) as [Hs|[Hs1 Hs2]].
    + rewrite Hs. change (u32 (-1) =? u32 (Z.lnot 0)) with true. cbv iota.
      exists EMaxPath. split; [done | by left].
    + set (k := path_search us0 u (Z.to_nat (nu0 + 1))) in *.
      destruct (Z.eqb_spec k (u32 (Z.lnot 0))) as [Hk|_].
      { change (u32 (Z.lnot 0)) with 4294967295 in Hk. lia. }
      exists (EIllegalCycle (MAXPATHLEN - k)). split; [done|]. right.
      eexists. split; [done | lia].
  - destruct (lookupM_cases cuckoo u) as [[u' Hu']|[Hu'|Hu']]; rewrite Hu'.
    + rewrite bind_ret.
      destruct (IH (wr us0 (nu0 + 1) u) u' (nu0 + 1)) as [?|[?|Hfail]];
        [lia | lia | by left | by right; left |].
      right. right. destruct Hfail as (k & Hk & Hrest). exists k.
      split; [|done]. eapply rtc_l; [|exact Hk]. by split.
    + right. right. exists u. split; [done|]. split; [done|]. by left.
    + right. right. exists u. split; [done|]. split; [done|]. by right.
Qed.

(** X6: [path] comes to an end after less than [MAXPATHLEN] lookups, also on
    a table whose pointers run in a circle: it returns, or it prints one
    of its two diagnostics and leaves through [exit(0)], or the lookup
    of a node on the way does not return a node and [path] ends as that
    lookup does.
    More iterations than [MAXPATHLEN] are never needed. *)
Theorem path_always_stops (cuckoo us0 : list Z) (u : Z) (fuel : nat) :
  0 <= SIZESHIFT < 64 ->
  ((exists nu us, path cuckoo u us0 = mret (nu, us)) \/
   (exists e, path cuckoo u us0 = ([e], Halt (Exit 0)) /\
      (e = EMaxPath \/
       exists len, e = EIllegalCycle len /\ 1 <= len <= MAXPATHLEN)) \/
   (exists k, rtc (follows cuckoo) u k /\ k <> 0 /\
      (lookupM cuckoo k = stop AssertFailed /\
       path cuckoo u us0 = stop AssertFailed \/
       lookupM cuckoo k = stop Diverges /\
       path cuckoo u us0 = stop Diverges))) /\
  (MAXPATHLEN <= Z.of_nat fuel ->
   path_loop fuel cuckoo us0 u 0 = path cuckoo u us0).
Proof.
  intros Hs. pose proof (MAXPATHLEN_bounds Hs) as HM. split.
  - apply path_loop_stops; lia.
  - intros Hfuel. unfold path.
    assert (Hgen : forall f1 f2 us u nu, 0 <= nu < MAXPATHLEN ->
              MAXPATHLEN <= nu + Z.of_nat f1 -> MAXPATHLEN <= nu + Z.of_nat f2 ->
              path_loop f1 cuckoo us u nu = path_loop f2 cuckoo us u nu).
    { induction f1 as [|f1 IH]; intros f2 us u' nu Hnu H1 H2; [lia|].
      destruct f2 as [|f2]; [lia|]. cbn [path_loop].
      destruct (u' =? 0); [done|].
      destruct (Z.leb_spec MAXPATHLEN (nu + 1)); [done|].
      destruct (lookupM_cases cuckoo u') as [[w Hw]|[Hw|Hw]]; rewrite Hw;
        [|done..].
      rewrite !bind_ret. apply IH; lia. }
    apply Hgen; lia.
Qed.

End PathReturns.

(** ** Where two trails meet, and the edges of a cycle *)

Lemma join_spec k us vs nu nv :
  rd us (nu + Z.of_nat k) = rd vs (nv + Z.of_nat k) ->
  exists j, 0 <= j <= Z.of_nat k /\
    join k us vs nu nv = (nu + j, nv + j) /\
    rd us (nu + j) = rd vs (nv + j) /\
    forall i, 0 <= i < j -> rd us (nu + i) <> rd vs (nv + i).
Proof.
  revert nu nv. induction k as [|k IH]; intros nu nv Hmeet.
  - exists 0. simpl. rewrite !Z.add_0_r in *. repeat split; try done; lia.
  - cbn [join]. destruct (Z.eqb_spec (rd us nu) (rd vs nv)) as [Heq|Hne].
    + exists 0. rewrite !Z.add_0_r. repeat split; try done; lia.
    + destruct (IH (nu + 1) (nv + 1)) as (j & Hj & Hjoin & Heq & Hfirst).
      { replace (nu + 1 + Z.of_nat k) with (nu + Z.of_nat (S k)) by lia.
        replace (nv + 1 + Z.of_nat k) with (nv + Z.of_nat (S k)) by lia. done. }
      exists (j + 1). split; [lia|]. split.
      { rewrite Hjoin. f_equal; lia. }
      split.
      { replace (nu + (j + 1)) with (nu + 1 + j) by lia.
        replace (nv + (j + 1)) with (nv + 1 + j) by lia. done. }
      intros i Hi. destruct (decide (i = 0)) as [->|].
      * by rewrite !Z.add_0_r.
      * replace (nu + i) with (nu + 1 + (i - 1)) by lia.
        replace (nv + i) with (nv + 1 + (i - 1)) by lia. apply Hfirst. lia.
Qed.

(** X7: The loop that walks the two trails in step, started [min] places
    below their ends, stops at the first place where they hold the same
    node, and at the latest at the ends, where they are known to meet. *)
Theorem join_first_meeting (us vs : list Z) (nu nv : Z) :
  0 <= nu -> 0 <= nv -> rd us nu = rd vs nv ->
  let min := if nu <? nv then nu else nv in
  exists j, 0 <= j <= min /\
    join (Z.to_nat min) us vs (nu - min) (nv - min)
      = (nu - min + j, nv - min + j) /\
    rd us (nu - min + j) = rd vs (nv - min + j) /\
    forall i, 0 <= i < j -> rd us (nu - min + i) <> rd vs (nv - min + i).
Proof.
  intros Hnu Hnv Hmeet min.
  assert (Hmin : 0 <= min /\ min <= nu /\ min <= nv).
  { unfold min. destruct (Z.ltb_spec nu nv); lia. }
  destruct (join_spec (Z.to_nat min) us vs (nu - min) (nv - min))
    as (j & Hj & Hjoin & Heq & Hfirst).
  { rewrite Z2Nat.id by lia.
    replace (nu - min + min) with nu by lia.
    replace (nv - min + min) with nv by lia. done. }
  exists j. split; [lia|]. done.
Qed.

(** *** The edges of a cycle *)

Lemma lor_1_even q : Z.lor (2 * q) 1 = 2 * q + 1.
Proof.
  apply Z.bits_inj'. intros n Hn. rewrite Z.lor_spec.
  destruct (decide (n = 0)) as [->|Hne].
  - rewrite Z.testbit_even_0, Z.testbit_odd_0. done.
  - replace n with (Z.succ (n - 1)) by lia.
    rewrite Z.testbit_even_succ, Z.testbit_odd_succ by lia.
    change 1 with (2 * 0 + 1). rewrite Z.testbit_odd_succ by lia.
    rewrite Z.bits_0. apply orb_false_r.
Qed.

Lemma lor_1_odd q : Z.lor (2 * q + 1) 1 = 2 * q + 1.
Proof.
  apply Z.bits_inj'. intros n Hn. rewrite Z.lor_spec.
  destruct (decide (n = 0)) as [->|Hne].
  - rewrite Z.testbit_odd_0. done.
  - replace n with (Z.succ (n - 1)) by lia.
    rewrite Z.testbit_odd_succ by lia.
    change 1 with (2 * 0 + 1). rewrite Z.testbit_odd_succ by lia.
    rewrite Z.bits_0. apply orb_false_r.
Qed.

Lemma land_not1_even q : Z.land (2 * q) (Z.lnot 1) = 2 * q.
Proof.
  apply Z.bits_inj'. intros n Hn. rewrite Z.land_spec, Z.lnot_spec by done.
  destruct (decide (n = 0)) as [->|Hne].
  - rewrite Z.testbit_even_0. done.
  - replace n with (Z.succ (n - 1)) by lia.
    change 1 with (2 * 0 + 1). rewrite Z.testbit_odd_succ by lia.
    rewrite Z.bits_0. apply andb_true_r.
Qed.

Lemma land_not1_odd q : Z.land (2 * q + 1) (Z.lnot 1) = 2 * q.
Proof.
  apply Z.bits_inj'. intros n Hn. rewrite Z.land_spec, Z.lnot_spec by done.
  destruct (decide (n = 0)) as [->|Hne].
  - rewrite Z.testbit_even_0, Z.testbit_odd_0. done.
  - replace n with (Z.succ (n - 1)) by lia.
    rewrite Z.testbit_odd_succ, Z.testbit_even_succ by lia.
    change 1 with (2 * 0 + 1). rewrite Z.testbit_odd_succ by lia.
    rewrite Z.bits_0. apply andb_true_r.
Qed.

(** The two indices the source computes for step [i] of a trail:
    [(i+1) & ~1] is the even one of [i] and [i+1], [i | 1] the odd one. *)
Lemma even_index i : Z.land (i + 1) (Z.lnot 1) = i + i mod 2.
Proof.
  pose proof (Z.div_mod i 2 ltac:(lia)) as Hi.
  pose proof (Z.mod_pos_bound i 2 ltac:(lia)) as Hr.
  assert (i mod 2 = 0 \/ i mod 2 = 1) as [Hm|Hm] by lia; rewrite Hm in *.
  - replace (i + 1) with (2 * (i / 2) + 1) by lia.
    rewrite land_not1_odd. lia.
  - replace (i + 1) with (2 * (i / 2 + 1)) by lia.
    rewrite land_not1_even. lia.
Qed.

Lemma odd_index i : Z.lor i 1 = i + 1 - i mod 2.
Proof.
  pose proof (Z.div_mod i 2 ltac:(lia)) as Hi.
  pose proof (Z.mod_pos_bound i 2 ltac:(lia)) as Hr.
  assert (i mod 2 = 0 \/ i mod 2 = 1) as [Hm|Hm] by lia; rewrite Hm in *.
  - replace i with (2 * (i / 2)) at 1 by lia. rewrite lor_1_even. lia.
  - replace i with (2 * (i / 2) + 1) at 1 by lia. rewrite lor_1_odd. lia.
Qed.

Lemma collect_us_spec us n cycle e :
  e ∈ collect_us us n cycle <->
  e ∈ cycle \/
  exists i, 0 <= i < Z.of_nat n /\
    e = (rd us (i + i mod 2), rd us (i + 1 - i mod 2)).
Proof.
  revert cycle. induction n as [|n IH]; intros cycle.
  - simpl. split; [by left|]. intros [?|(i & ? & _)]; [done | lia].
  - cbn [collect_us]. rewrite IH, elem_of_union, elem_of_singleton.
    rewrite even_index, odd_index. split.
    + intros [[->|?]|(i & Hi & ->)].
      * right. exists (Z.of_nat n). split; [lia | done].
      * by left.
      * right. exists i. split; [lia | done].
    + intros [?|(i & Hi & ->)]; [by left; right|].
      destruct (decide (i = Z.of_nat n)) as [->|]; [by left; left|].
      right. exists i. split; [lia | done].
Qed.

Lemma collect_vs_spec vs n cycle e :
  e ∈ collect_vs vs n cycle <->
  e ∈ cycle \/
  exists i, 0 <= i < Z.of_nat n /\
    e = (rd vs (i + 1 - i mod 2), rd vs (i + i mod 2)).
Proof.
  revert cycle. induction n as [|n IH]; intros cycle.
  - simpl. split; [by left|]. intros [?|(i & ? & _)]; [done | lia].
  - cbn [collect_vs]. rewrite IH, elem_of_union, elem_of_singleton.
    rewrite even_index, odd_index. split.
    + intros [[->|?]|(i & Hi & ->)].
      * right. exists (Z.of_nat n). split; [lia | done].
      * by left.
      * right. exists i. split; [lia | done].
    + intros [?|(i & Hi & ->)]; [by left; right|].
      destruct (decide (i = Z.of_nat n)) as [->|]; [by left; left|].
      right. exists i. split; [lia | done].
Qed.

Lemma size_insert_le (X : gset edge) (e : edge) :
  (size ({[e]} ∪ X) <= S (size X))%nat.
Proof.
  destruct (decide (e ∈ X)) as [He|He].
  - replace ({[e]} ∪ X) with X; [lia|].
    apply set_eq. intros y. rewrite elem_of_union, elem_of_singleton.
    split; [tauto|]. intros [->|?]; done.
  - rewrite size_union by by apply disjoint_singleton_l.
    rewrite size_singleton. lia.
Qed.

Lemma collect_us_size us n cycle :
  (size (collect_us us n cycle) <= n + size cycle)%nat.
Proof.
  revert cycle. induction n as [|n IH]; intros cycle; simpl; [lia|].
  etrans; [apply IH|]. pose proof (size_insert_le cycle
    (rd us (Z.land (Z.of_nat n + 1) (Z.lnot 1)), rd us (Z.lor (Z.of_nat n) 1))).
  lia.
Qed.

Lemma collect_vs_size vs n cycle :
  (size (collect_vs vs n cycle) <= n + size cycle)%nat.
Proof.
  revert cycle. induction n as [|n IH]; intros cycle; simpl; [lia|].
  etrans; [apply IH|]. pose proof (size_insert_le cycle
    (rd vs (Z.lor (Z.of_nat n) 1), rd vs (Z.land (Z.of_nat n + 1) (Z.lnot 1)))).
  lia.
Qed.

(** X8: The set collected for a cycle holds the closing edge and one edge
    for every step of the two trails: step [i] of the [us] trail gives
    the pair of [us[i]] and [us[i+1]] with the node at the even index
    first, step [i] of the [vs] trail the pair of [vs[i]] and [vs[i+1]]
    with the node at the odd index first.  It has at most [nu + nv + 1]
    members. *)
Theorem cycle_edges_spec (us vs : list Z) (nu nv : Z) (e : edge) :
  (e ∈ cycle_edges us vs nu nv <->
   e = (rd us 0, rd vs 0) \/
   (exists i, 0 <= i < nu /\
      e = (rd us (i + i mod 2), rd us (i + 1 - i mod 2))) \/
   (exists i, 0 <= i < nv /\
      e = (rd vs (i + 1 - i mod 2), rd vs (i + i mod 2)))) /\
  Z.of_nat (size (cycle_edges us vs nu nv)) <= Z.max 0 nu + Z.max 0 nv + 1.
Proof.
  unfold cycle_edges. split.
  - rewrite collect_vs_spec, collect_us_spec, elem_of_singleton.
    split.
    + intros [[?|(i & Hi & ->)]|(i & Hi & ->)].
      * by left.
      * right. left. exists i. split; [lia | done].
      * right. right. exists i. split; [lia | done].
    + intros [?|[(i & Hi & ->)|(i & Hi & ->)]].
      * by left; left.
      * left. right. exists i. split; [lia | done].
      * right. exists i. split; [lia | done].
  - pose proof (collect_vs_size vs (Z.to_nat nv)
                  (collect_us us (Z.to_nat nu) {[(rd us 0, rd vs 0)]})).
    pose proof (collect_us_size us (Z.to_nat nu) {[(rd us 0, rd vs 0)]}).
    rewrite size_singleton in *. lia.
Qed.

(** ** Reversing a trail *)

Lemma sets_map_cons m k v l :
  sets_map m ((k, v) :: l) = sets_map (<[k := v]> m) l.
Proof. done. Qed.

Lemma sets_map_app m l1 l2 :
  sets_map m (l1 ++ l2) = sets_map (sets_map m l1) l2.
Proof. apply foldl_app. Qed.

Lemma sets_map_other m ops k :
  k ∉ ops.*1 -> sets_map m ops !! k = m !! k.
Proof.
  revert m. induction ops as [|[u v] ops IH]; intros m Hk; simpl; [done|].
  rewrite fmap_cons, not_elem_of_cons in Hk. destruct Hk as [Hne Hk].
  rewrite IH by done. simpl in *. by rewrite lookup_insert_ne.
Qed.

Lemma sets_map_is_Some m ops k :
  is_Some (m !! k) -> is_Some (sets_map m ops !! k).
Proof.
  revert m. induction ops as [|[u v] ops IH]; intros m Hk; simpl; [done|].
  apply IH. destruct (decide (u = k)) as [->|].
  - rewrite lookup_insert_eq. by eexists.
  - by rewrite lookup_insert_ne.
Qed.

Lemma relink_ops_keys us n k :
  k ∈ (relink_ops us n).*1 <-> exists i, 0 < i <= Z.of_nat n /\ k = rd us i.
Proof.
  induction n as [|n IH]; simpl.
  - split; [by intros ?%elem_of_nil | intros (i & ? & _); lia].
  - rewrite elem_of_cons, IH. split.
    + intros [->|(i & Hi & ->)].
      * exists (Z.of_nat n + 1). split; [lia | done].
      * exists i. split; [lia | done].
    + intros (i & Hi & ->).
      destruct (decide (i = Z.of_nat n + 1)) as [->|]; [by left|].
      right. exists i. split; [lia | done].
Qed.

(** After the calls of [relink], node [us[i+1]] points to [us[i]]. *)
Lemma relink_ops_lookup m us n i :
  (forall i j, 0 < i < j /\ j <= Z.of_nat n -> rd us i <> rd us j) ->
  0 <= i < Z.of_nat n ->
  sets_map m (relink_ops us n) !! rd us (i + 1) = Some (rd us i).
Proof.
  revert m. induction n as [|n IH]; intros m Hdist Hi; [lia|].
  simpl. destruct (decide (i = Z.of_nat n)) as [->|Hne].
  - rewrite sets_map_other.
    + apply lookup_insert_eq.
    + rewrite relink_ops_keys. intros (j & Hj & Heq).
      apply (Hdist j (Z.of_nat n + 1)); [lia | done].
  - apply IH; [|lia]. intros i' j' Hij. apply Hdist. lia.
Qed.

Section Relink.
Context `{Params} `{EdgeGen}.

Lemma cuckoo_sets_app l1 l2 c :
  cuckoo_sets (l1 ++ l2) c = c' ← cuckoo_sets l1 c; cuckoo_sets l2 c'.
Proof.
  revert c. induction l1 as [|op l1 IH]; intros c; [done|].
  rewrite <- app_comm_cons, !cuckoo_sets_cons.
  destruct (cuckoo_set probe_fuel c op.1 op.2) as [c1|]; [|done].
  simpl. apply IH.
Qed.

(** [relink] is the sequence of its [set] calls. *)
Lemma relink_sets c us n :
  relink c us n = match cuckoo_sets (relink_ops us n) c with
                  | Some c' => mret c'
                  | None => stop Diverges
                  end.
Proof.
  revert c. induction n as [|n IH]; intros c; [done|].
  cbn [relink relink_ops]. rewrite cuckoo_sets_cons. unfold setM. simpl.
  destruct (cuckoo_set probe_fuel c _ _) as [c1|]; [|done].
  rewrite bind_ret. apply IH.
Qed.

Lemma relink_ops_valid us n :
  (forall i, 0 < i <= Z.of_nat n -> 0 < rd us i < SIZE) ->
  0 <= rd us 0 < SIZE ->
  Forall valid_op (relink_ops us n).
Proof.
  intros Hus Hfirst. induction n as [|n IH]; simpl; [constructor|].
  constructor.
  - split; simpl; [apply Hus; lia|].
    destruct (decide (n = 0%nat)) as [->|]; [done|].
    assert (0 < rd us (Z.of_nat n) < SIZE) by (apply Hus; lia). lia.
  - apply IH. intros i Hi. apply Hus. lia.
Qed.

(** X9: Reversing a trail: on a table filled by [set] calls, after
    [while (nu--) cuckoo.set(us[nu+1], us[nu]);] every node of the trail
    points to the node before it, and the pointers of the nodes outside
    the trail are as they were. *)
Theorem relink_reverses (ops : list (Z * Z)) (c us : list Z) (nu : nat) :
  table_ok -> SIZESHIFT <= 32 ->
  Forall valid_op ops -> cuckoo_sets ops cuckoo_new = Some c ->
  (forall i, 0 < i <= Z.of_nat nu -> 0 < rd us i < SIZE) ->
  0 <= rd us 0 < SIZE ->
  (forall i j, 0 < i < j /\ j <= Z.of_nat nu -> rd us i <> rd us j) ->
  Z.of_nat (size (sets_map ∅ (ops ++ relink_ops us nu))) < CUCKOO_SIZE ->
  exists c',
    relink c us nu = mret c' /\
    (forall i, 0 <= i < Z.of_nat nu ->
       cuckoo_lookup probe_fuel c' (rd us (i + 1)) = Some (Found (rd us i))) /\
    (forall k, 0 <= k < SIZE ->
       (forall i, 0 < i <= Z.of_nat nu -> rd us i <> k) ->
       cuckoo_lookup probe_fuel c' k = cuckoo_lookup probe_fuel c k).
Proof.
  intros Hok H32 Hops Hsets Hus Hfirst Hdist Hroom.
  pose proof (relink_ops_valid us nu Hus Hfirst) as Hrops.
  pose proof (table_holds_new Hok) as Hnew.
  destruct (cuckoo_sets_holds cuckoo_new ∅ (ops ++ relink_ops us nu) Hok H32 Hnew)
    as (c' & Hsets' & _ & Hlook'); [by apply Forall_app|done|].
  destruct (cuckoo_sets_holds cuckoo_new ∅ ops Hok H32 Hnew Hops)
    as (c0 & Hsets0 & _ & Hlook0).
  { rewrite sets_map_app in Hroom.
    pose proof (sets_map_size (sets_map ∅ ops) (relink_ops us nu)). lia. }
  assert (c0 = c) as -> by congruence.
  rewrite cuckoo_sets_app, Hsets in Hsets'. simpl in Hsets'.
  exists c'. split; [by rewrite relink_sets, Hsets'|]. split.
  - intros i Hi.
    assert (0 < rd us (i + 1) < SIZE) by (apply Hus; lia).
    rewrite Hlook' by lia. rewrite sets_map_app.
    by rewrite relink_ops_lookup.
  - intros k Hk Hout. rewrite Hlook', Hlook0 by done.
    rewrite sets_map_app, sets_map_other; [done|].
    rewrite relink_ops_keys. intros (i & Hi & ->). by apply (Hout i).
Qed.

End Relink.

(** ** The pointers form a forest *)

Lemma walk_add m a b k : walk m (a + b) k = walk m b (walk m a k).
Proof. revert k. induction a as [|a IH]; intros k; simpl; [done | apply IH]. Qed.

Lemma walk_S_r m n k : walk m (S n) k = next m (walk m n k).
Proof.
  replace (S n) with (n + 1)%nat by lia. by rewrite walk_add.
Qed.

Lemma walk_zero m n : m !! 0 = None -> walk m n 0 = 0.
Proof.
  intros Hz. induction n as [|n IH]; simpl; [done|].
  unfold next. by rewrite Hz.
Qed.

(** In a forest no node other than the sentinel comes back to itself. *)
Lemma forest_no_cycle m k n :
  forest m -> (0 < n)%nat -> walk m n k = k -> k = 0.
Proof.
  intros [Hz Hall] Hn Hcyc. destruct (Hall k) as [N HN].
  assert (Hrep : forall j, walk m (j * n) k = k).
  { induction j as [|j IH]; [done|].
    replace (S j * n)%nat with (j * n + n)%nat by lia.
    by rewrite walk_add, IH. }
  specialize (Hrep N).
  replace (N * n)%nat with (N + (N * n - N))%nat in Hrep by nia.
  rewrite walk_add, HN, walk_zero in Hrep by done. done.
Qed.

(** A node has one root. *)
Lemma root_unique m x a b :
  m !! 0 = None ->
  walk m a x <> 0 -> next m (walk m a x) = 0 ->
  walk m b x <> 0 -> next m (walk m b x) = 0 ->
  walk m a x = walk m b x.
Proof.
  intros Hz.
  assert (Hle : forall a b, (a <= b)%nat ->
            walk m a x <> 0 -> next m (walk m a x) = 0 ->
            walk m b x <> 0 -> walk m a x = walk m b x).
  { clear a b. intros a b Hab Ha Hra Hb.
    destruct (decide (a = b)) as [->|Hne]; [done|]. exfalso. apply Hb.
    replace b with (S a + (b - S a))%nat by lia.
    rewrite walk_add, walk_S_r, Hra. by apply walk_zero. }
  intros Ha Hra Hb Hrb. destruct (decide (a <= b)%nat).
  - by apply Hle.
  - symmetry. apply Hle; (done || lia).
Qed.

(** The map after a trail has been reversed and its first node sent to
    [b]: the nodes of the trail point down the trail, the first node
    points to [b], and every other node is as before. *)
Lemma relinked_next m t n b k :
  (forall i j, 0 <= i < j /\ j <= Z.of_nat n -> rd t i <> rd t j) ->
  next (<[rd t 0 := b]> (sets_map m (relink_ops t n))) k
  = if bool_decide (k = rd t 0) then b
    else match list_find (fun i => rd t (i + 1) = k) (seqZ 0 (Z.of_nat n)) with
         | Some (_, i) => rd t i
         | None => next m k
         end.
Proof.
  intros Hdist. unfold next. case_bool_decide as Hk.
  - subst k. by rewrite lookup_insert_eq.
  - rewrite lookup_insert_ne by done.
    destruct (list_find _ _) as [[j i]|] eqn:Hfind.
    + apply list_find_Some in Hfind as (Hi & <- & _).
      apply list_elem_of_lookup_2, elem_of_seqZ in Hi.
      rewrite relink_ops_lookup; [done| |lia].
      intros i' j' Hij. apply Hdist. lia.
    + rewrite sets_map_other; [done|].
      rewrite relink_ops_keys. intros (i & Hi & ->).
      apply list_find_None in Hfind.
      rewrite Forall_forall in Hfind. apply (Hfind (i - 1)).
      * apply elem_of_seqZ. lia.
      * f_equal. lia.
Qed.

(** Linking two trees: when the trail [t[0..n]] runs from a node to its
    root and the pointers from [b] never come to that root, reversing
    the trail and sending its first node to [b] leaves a forest. *)
Lemma link_forest m t n b :
  forest m ->
  (forall i, 0 <= i <= Z.of_nat n -> rd t i <> 0) ->
  (forall i, 0 <= i < Z.of_nat n -> next m (rd t i) = rd t (i + 1)) ->
  next m (rd t (Z.of_nat n)) = 0 ->
  (forall j, walk m j b <> rd t (Z.of_nat n)) ->
  forest (<[rd t 0 := b]> (sets_map m (relink_ops t n))).
Proof.
  intros Hf Hnz Hchain Hroot Hb. pose proof Hf as [Hz Hall].
  set (m' := <[rd t 0 := b]> (sets_map m (relink_ops t n))).
  (* the trail is the walk from its first node *)
  assert (Hwalk : forall i : nat, (i <= n)%nat -> walk m i (rd t 0) = rd t (Z.of_nat i)).
  { induction i as [|i IH]; intros Hi; [done|].
    rewrite walk_S_r, IH by lia. rewrite Hchain by lia. f_equal. lia. }
  (* its nodes are pairwise distinct *)
  assert (Hdist : forall i j, 0 <= i < j /\ j <= Z.of_nat n -> rd t i <> rd t j).
  { intros i j Hij Heq.
    apply (Hnz i ltac:(lia)).
    apply (forest_no_cycle m (rd t i) (Z.to_nat (j - i)) Hf ltac:(lia)).
    assert (Hstep : forall d : nat, i + Z.of_nat d <= Z.of_nat n ->
              walk m d (rd t i) = rd t (i + Z.of_nat d)).
    { induction d as [|d IHd]; intros Hd.
      - simpl. f_equal. lia.
      - rewrite walk_S_r, IHd by lia. rewrite Hchain by lia. f_equal. lia. }
    rewrite Hstep by lia. rewrite Heq. f_equal. lia. }
  (* the walk from [b] stays off the trail *)
  assert (Hoff : forall j i, 0 <= i <= Z.of_nat n -> walk m j b <> rd t i).
  { intros j i Hi Heq.
    apply (Hb (j + Z.to_nat (Z.of_nat n - i))%nat).
    rewrite walk_add, Heq.
    assert (Hstep : forall d : nat, i + Z.of_nat d <= Z.of_nat n ->
              walk m d (rd t i) = rd t (i + Z.of_nat d)).
    { induction d as [|d IHd]; intros Hd.
      - simpl. f_equal. lia.
      - rewrite walk_S_r, IHd by lia. rewrite Hchain by lia. f_equal. lia. }
    rewrite Hstep by lia. f_equal. lia. }
  assert (Hnext : forall k, next m' k
            = if bool_decide (k = rd t 0) then b
              else match list_find (fun i => rd t (i + 1) = k)
                                   (seqZ 0 (Z.of_nat n)) with
                   | Some (_, i) => rd t i
                   | None => next m k
                   end)
    by (intros k; by apply relinked_next).
  (* off the trail nothing has changed *)
  assert (Hsame : forall k, (forall i, 0 <= i <= Z.of_nat n -> k <> rd t i) ->
                            next m' k = next m k).
  { intros k Hk. rewrite Hnext.
    rewrite bool_decide_eq_false_2 by (apply Hk; lia).
    destruct (list_find _ _) as [[j i]|] eqn:Hfind; [|done].
    apply list_find_Some in Hfind as (Hi & Heq & _).
    apply list_elem_of_lookup_2, elem_of_seqZ in Hi.
    exfalso. apply (Hk (i + 1)); [lia | done]. }
  (* on the trail the pointers go down *)
  assert (Hdown : forall i, 0 <= i < Z.of_nat n -> next m' (rd t (i + 1)) = rd t i).
  { intros i Hi. rewrite Hnext.
    rewrite bool_decide_eq_false_2.
    2:{ intros Heq. symmetry in Heq. revert Heq. apply Hdist. lia. }
    destruct (list_find _ _) as [[j i']|] eqn:Hfind.
    - apply list_find_Some in Hfind as (Hi' & Heq & _).
      apply list_elem_of_lookup_2, elem_of_seqZ in Hi'.
      destruct (decide (i' = i)) as [->|Hne]; [done|]. exfalso.
      destruct (decide (i' < i)).
      + apply (Hdist (i' + 1) (i + 1)); [lia | done].
      + apply (Hdist (i + 1) (i' + 1)); [lia | done].
    - apply list_find_None in Hfind. rewrite Forall_forall in Hfind.
      exfalso. apply (Hfind i); [apply elem_of_seqZ; lia | done]. }
  assert (Hfirst : next m' (rd t 0) = b).
  { rewrite Hnext. by rewrite bool_decide_eq_true_2. }
  assert (Hz' : m' !! 0 = None).
  { pose proof (Hsame 0) as H0. unfold next in H0. rewrite Hz in H0.
    destruct (m' !! 0) as [w|] eqn:Hm'; [|done]. exfalso.
    unfold m' in Hm'. destruct (decide (rd t 0 = 0)) as [He|Hne].
    { by apply (Hnz 0 ltac:(lia)). }
    rewrite lookup_insert_ne in Hm' by done.
    destruct (decide (0 ∈ (relink_ops t n).*1)) as [Hin|Hout].
    - apply relink_ops_keys in Hin as (i & Hi & Heq).
      by apply (Hnz i ltac:(lia)).
    - rewrite sets_map_other in Hm' by done. congruence. }
  (* the walk from [b] is the old one and ends at the sentinel *)
  assert (Hbwalk : forall j, walk m' j b = walk m j b).
  { induction j as [|j IHj]; [done|].
    rewrite !walk_S_r, IHj. apply Hsame. intros i Hi. by apply Hoff. }
  assert (Hbend : exists j, walk m' j b = 0).
  { destruct (Hall b) as [j Hj]. exists j. by rewrite Hbwalk. }
  (* from the trail one comes to [b] *)
  assert (Htrail : forall i : nat, (i <= n)%nat ->
            walk m' (S i) (rd t (Z.of_nat i)) = b).
  { induction i as [|i IHi]; intros Hi.
    - simpl. done.
    - cbn [walk]. replace (Z.of_nat (S i)) with (Z.of_nat i + 1) by lia.
      rewrite Hdown by lia. apply IHi. lia. }
  split; [done|].
  assert (Hgen : forall N k, walk m N k = 0 -> exists N', walk m' N' k = 0).
  { induction N as [|N IHN]; intros k HN.
    - exists 0%nat. done.
    - destruct (decide (k ∈ (fun i => rd t i) <$> seqZ 0 (Z.of_nat n + 1)))
        as [Hin|Hout].
      + apply list_elem_of_fmap in Hin as (i & -> & Hi%elem_of_seqZ).
        destruct Hbend as [j Hj].
        assert (Hd : exists d : nat, i = Z.of_nat d /\ (d <= n)%nat)
          by (exists (Z.to_nat i); lia).
        destruct Hd as (d & -> & Hd).
        exists (S d + j)%nat. by rewrite walk_add, Htrail.
      + simpl in HN. destruct (IHN _ HN) as [N' HN'].
        exists (S N'). simpl. rewrite Hsame; [done|].
        intros i Hi ->. apply Hout. apply list_elem_of_fmap.
        exists i. split; [done|]. apply elem_of_seqZ. lia. }
  intros k. destruct (Hall k) as [N HN]. by apply (Hgen N).
Qed.

Lemma forest_empty : forest ∅.
Proof.
  split; [done|]. intros k. exists 1%nat. simpl. unfold next.
  by rewrite lookup_empty.
Qed.

(** ** The cycle finder and the load guard *)

(** *** Laws of host computations *)

Lemma bind_assoc {A B C : Type} (m : M A) (f : A -> M B) (g : B -> M C) :
  (m ≫= f) ≫= g = m ≫= (fun a => f a ≫= g).
Proof.
  destruct m as [out [a|h]]; [|done].
  unfold mbind, M_bind. destruct (f a) as [o1 [b|h1]]; [|done].
  destruct (g b) as [o2 r]. by rewrite app_assoc.
Qed.

Lemma bind_ext {A B : Type} (m : M A) (f g : A -> M B) :
  (forall a, f a = g a) -> m ≫= f = m ≫= g.
Proof.
  intros Hfg. destruct m as [out [a|h]]; [|done].
  unfold mbind, M_bind. by rewrite Hfg.
Qed.

Lemma forM_app {A S : Type} (body : A -> S -> M S) l1 l2 st :
  forM body (l1 ++ l2) st = forM body l1 st ≫= forM body l2.
Proof.
  revert st. induction l1 as [|x l1 IH]; intros st.
  - symmetry. apply (bind_ret st).
  - rewrite <- app_comm_cons, !forM_cons, bind_assoc. by apply bind_ext.
Qed.

(** A loop over blocks with a loop over the members of each block is a
    loop over all members. *)
Lemma forM_concat {A B S : Type} (body : A -> S -> M S) (f : B -> list A)
    (bs : list B) (st : S) :
  forM (fun b st => forM body (f b) st) bs st
  = forM body (concat (f <$> bs)) st.
Proof.
  revert st. induction bs as [|b bs IH]; intros st; [done|].
  rewrite fmap_cons. cbn [concat]. rewrite forM_app, forM_cons.
  by apply bind_ext.
Qed.

Section HostLoops.
Context `{Params} `{EdgeGen}.

Lemma all_nonces :
  concat ((fun b => seqZ b (Z.min 32 (HALFSIZE - b)))
            <$> ((fun k => 32 * k) <$> seqZ 0 ((HALFSIZE + 31) / 32)))
  = seqZ 0 HALFSIZE.
Proof.
  assert (HH : 0 <= HALFSIZE).
  { unfold HALFSIZE, SIZE. apply Z.div_pos; [|lia]. apply Z.shiftl_nonneg. lia. }
  set (T := HALFSIZE) in *. clearbody T.
  pose proof (Z.div_mod (T + 31) 32 ltac:(lia)) as Hdm.
  pose proof (Z.mod_pos_bound (T + 31) 32 ltac:(lia)) as Hr.
  set (q := (T + 31) / 32) in *.
  destruct (decide (T = 0)) as [->|HT].
  { assert (q = 0) as -> by lia. done. }
  assert (Hq : 0 < q) by lia.
  replace q with (Z.of_nat (Z.to_nat (q - 1)) + 1) by lia.
  rewrite seqZ_app by lia. rewrite !fmap_app, concat_app.
  replace (concat ((fun b => seqZ b (Z.min 32 (T - b)))
                     <$> ((fun k => 32 * k) <$> seqZ 0 (Z.of_nat (Z.to_nat (q - 1))))))
    with (seqZ 0 (32 * Z.of_nat (Z.to_nat (q - 1)))).
  2:{ rewrite <- full_blocks. f_equal. rewrite <- !list_fmap_compose.
      apply list_fmap_ext. intros i k Hk. simpl.
      apply list_elem_of_lookup_2, elem_of_seqZ in Hk. f_equal. lia. }
  change (seqZ (0 + Z.of_nat (Z.to_nat (q - 1))) 1)
    with [0 + Z.of_nat (Z.to_nat (q - 1))].
  cbn [fmap list_fmap concat]. rewrite app_nil_r.
  replace (Z.min 32 (T - 32 * (0 + Z.of_nat (Z.to_nat (q - 1)))))
    with (T - 32 * Z.of_nat (Z.to_nat (q - 1))) by lia.
  replace (32 * (0 + Z.of_nat (Z.to_nat (q - 1))))
    with (0 + 32 * Z.of_nat (Z.to_nat (q - 1))) by lia.
  rewrite <- seqZ_app by lia. f_equal. lia.
Qed.

(** X10: The two nested loops of [main] hand every nonce below [HALFSIZE] to
    the cycle finder, once and in ascending order. *)
Theorem find_cycles_visits_all (ctx : siphash_ctx) (bits : list Z) :
  find_cycles ctx bits = forM (find_cycle ctx bits) (seqZ 0 HALFSIZE) finder_new.
Proof. unfold find_cycles. by rewrite forM_concat, all_nonces. Qed.

End HostLoops.

(** *** Computations that end well *)

Lemma mret_inj {A : Type} (a b : A) : (mret a : M A) = mret b -> a = b.
Proof. unfold mret, M_ret. by intros [= ->]. Qed.

Lemma ends_well_bind {A B : Type} (Q : A -> Prop) (R : B -> Prop)
    (m : M A) (f : A -> M B) :
  ends_well Q m -> (forall a, Q a -> ends_well R (f a)) ->
  ends_well R (m ≫= f).
Proof.
  destruct m as [out [a|h]]; unfold ends_well; simpl; [|done].
  intros Ha Hf. specialize (Hf a Ha). unfold mbind, M_bind.
  destruct (f a) as [o [b|h]]; simpl in *; [done|].
  destruct Hf as [?|[? ?]]; [by left|]. right. split; [done|].
  apply elem_of_app. by right.
Qed.

Lemma ends_well_impl {A : Type} (Q R : A -> Prop) (m : M A) :
  ends_well Q m -> (forall a, Q a -> R a) -> ends_well R m.
Proof. unfold ends_well. destruct (m.2); auto. Qed.

Lemma goes_well_ret {A : Type} (Q : A -> Prop) (a : A) :
  Q a -> goes_well Q (mret a).
Proof. intros Ha. split; [done|]. by intros len ?%elem_of_nil. Qed.

Lemma goes_well_bind {A B : Type} (Q : A -> Prop) (R : B -> Prop)
    (m : M A) (f : A -> M B) :
  goes_well Q m -> (forall a, Q a -> goes_well R (f a)) ->
  goes_well R (m ≫= f).
Proof.
  intros [Hm Hc] Hf. split.
  - eapply ends_well_bind; [done|]. intros a Ha. by apply Hf.
  - destruct m as [out [a|h]]; [|done]. simpl in *.
    destruct (Hf a Hm) as [_ Hfa]. unfold mbind, M_bind.
    destruct (f a) as [o r]. simpl in *. intros len [?|?]%elem_of_app.
    + by apply (Hc len).
    + by apply (Hfa len).
Qed.

Lemma goes_well_impl {A : Type} (Q R : A -> Prop) (m : M A) :
  goes_well Q m -> (forall a, Q a -> R a) -> goes_well R m.
Proof. intros [Hm Hc] HQR. split; [by eapply ends_well_impl | done]. Qed.

Lemma goes_well_print {A : Type} (R : A -> Prop) (e : event) (m : M A) :
  (forall len, e <> EIllegalCycle len) ->
  goes_well R m -> goes_well R (print e;; m).
Proof.
  intros He Hm. apply (goes_well_bind (fun _ => True)); [|by intros _ _].
  split; [done|]. simpl. intros len Hin%list_elem_of_singleton.
  by apply (He len).
Qed.

Lemma goes_well_forM {A S : Type} (I : list A -> S -> Prop)
    (body : A -> S -> M S) (l : list A) (st : S) :
  (forall x rest st, I (x :: rest) st -> goes_well (I rest) (body x st)) ->
  I l st -> goes_well (I []) (forM body l st).
Proof.
  intros Hbody. revert st. induction l as [|x l IH]; intros st Hst.
  - by apply goes_well_ret.
  - rewrite forM_cons. eapply goes_well_bind; [by apply Hbody|]. apply IH.
Qed.

Section HostRuns.
Context `{Params} `{EdgeGen}.

Lemma SIZE_pos : table_ok -> 0 < SIZE.
Proof.
  intros [[? ?] ?]. rewrite SIZE_eq by lia. apply Z.pow_pos_nonneg; lia.
Qed.

Lemma table_holds_range c m k :
  table_ok -> table_holds c m -> 0 <= default 0 (m !! k) < SIZE.
Proof.
  intros Hok Hth. pose proof (SIZE_pos Hok).
  destruct (m !! k) as [v|] eqn:Hm; simpl; [|lia].
  by destruct (th_ptr _ _ Hth k v Hm) as (_ & ? & _).
Qed.

Lemma lookupM_holds c m k :
  table_ok -> SIZESHIFT <= 32 -> table_holds c m -> 0 <= k < SIZE ->
  Z.of_nat (size m) < CUCKOO_SIZE ->
  lookupM c k = mret (default 0 (m !! k)).
Proof.
  intros Hok H32 Hth Hk Hroom. unfold lookupM.
  rewrite (table_holds_lookup c m k); try done.
  destruct Hth as [[Hlen _] _ _ Hsz]. lia.
Qed.

Lemma setM_holds c m u v :
  table_ok -> SIZESHIFT <= 32 -> table_holds c m ->
  0 < u < SIZE -> 0 <= v < SIZE ->
  (m !! u = None -> Z.of_nat (size m) < CUCKOO_SIZE) ->
  exists c', setM c u v = mret c' /\ table_holds c' (<[u := v]> m).
Proof.
  intros Hok H32 Hth Hu Hv Hroom.
  destruct (table_holds_set c m u v Hok H32 Hth Hu Hv) as (c' & Hset & Hth').
  { intros Hnone. destruct Hth as [[Hlen _] _ _ Hsz].
    specialize (Hroom Hnone). lia. }
  exists c'. split; [|done]. unfold setM. by rewrite Hset.
Qed.

(** Relinking a trail whose nodes all have a pointer adds no pointer. *)
Lemma relink_present c m us n :
  table_ok -> SIZESHIFT <= 32 -> table_holds c m ->
  (forall i, 0 < i <= Z.of_nat n ->
     0 < rd us i < SIZE /\ is_Some (m !! rd us i)) ->
  0 <= rd us 0 < SIZE ->
  exists c', relink c us n = mret c' /\
    table_holds c' (sets_map m (relink_ops us n)) /\
    size (sets_map m (relink_ops us n)) = size m.
Proof.
  intros Hok H32. revert c m. induction n as [|n IH]; intros c m Hth Hus Hfirst.
  - exists c. done.
  - cbn [relink relink_ops]. rewrite !sets_map_cons.
    destruct (Hus (Z.of_nat n + 1)) as [Hk [w Hw]]; [lia|].
    assert (Hv : 0 <= rd us (Z.of_nat n) < SIZE).
    { destruct (decide (n = 0%nat)) as [->|]; [done|].
      destruct (Hus (Z.of_nat n)) as [? _]; lia. }
    destruct (setM_holds c m _ _ Hok H32 Hth Hk Hv) as (c1 & Hset & Hth1).
    { intros Hnone. congruence. }
    rewrite Hset, bind_ret.
    destruct (IH c1 _ Hth1) as (c' & Hrel & Hth' & Hsz); [|done|].
    { intros i Hi. destruct (Hus i) as [? ?]; [lia|]. split; [done|].
      destruct (decide (rd us (Z.of_nat n + 1) = rd us i)) as [->|].
      - rewrite lookup_insert_eq. by eexists.
      - by rewrite lookup_insert_ne. }
    exists c'. split; [done|]. split; [done|].
    rewrite Hsz, map_size_insert, Hw. done.
Qed.

(** Relinking a trail of which at most the last node has no pointer adds
    at most one pointer. *)
Lemma relink_holds c m us n :
  table_ok -> SIZESHIFT <= 32 -> table_holds c m ->
  (forall i, 0 < i <= Z.of_nat n -> 0 < rd us i < SIZE) ->
  0 <= rd us 0 < SIZE ->
  (forall i, 0 < i < Z.of_nat n -> is_Some (m !! rd us i)) ->
  Z.of_nat (size m) < CUCKOO_SIZE ->
  exists c', relink c us n = mret c' /\
    table_holds c' (sets_map m (relink_ops us n)) /\
    (size (sets_map m (relink_ops us n)) <= size m + 1)%nat.
Proof.
  intros Hok H32 Hth Hus Hfirst Hin Hroom. destruct n as [|n].
  - exists c. split; [done|]. split; [done|]. simpl. lia.
  - cbn [relink relink_ops]. rewrite !sets_map_cons.
    assert (Hk : 0 < rd us (Z.of_nat n + 1) < SIZE) by (apply Hus; lia).
    assert (Hv : 0 <= rd us (Z.of_nat n) < SIZE).
    { destruct (decide (n = 0%nat)) as [->|]; [done|].
      assert (0 < rd us (Z.of_nat n) < SIZE) by (apply Hus; lia). lia. }
    destruct (setM_holds c m _ _ Hok H32 Hth Hk Hv) as (c1 & Hset & Hth1);
      [done|].
    rewrite Hset, bind_ret.
    destruct (relink_present c1 _ us n Hok H32 Hth1)
      as (c' & Hrel & Hth' & Hsz); [|done|].
    { intros i Hi. split; [apply Hus; lia|].
      destruct (decide (rd us (Z.of_nat n + 1) = rd us i)) as [->|].
      - rewrite lookup_insert_eq. by eexists.
      - rewrite lookup_insert_ne by done. apply Hin. lia. }
    exists c'. split; [done|]. split; [done|].
    rewrite Hsz, map_size_insert.
    destruct (m !! rd us (Z.of_nat n + 1)); simpl; lia.
Qed.

(** On a table that holds a forest, the loop of [path] returns or gives
    up at [MAXPATHLEN]: the search for the node in the trail finds
    nothing, since every node of the trail leads to the current one. *)
Lemma path_loop_legal fuel c m us0 u nu0 :
  table_ok -> SIZESHIFT <= 32 -> table_holds c m ->
  Z.of_nat (size m) < CUCKOO_SIZE -> forest m ->
  0 <= u < SIZE -> 0 <= nu0 < MAXPATHLEN ->
  MAXPATHLEN <= Z.of_nat (length us0) ->
  MAXPATHLEN <= nu0 + Z.of_nat fuel ->
  (forall i, 0 <= i <= nu0 -> exists d, walk m (S d) (rd us0 i) = u) ->
  (exists nu us, path_loop fuel c us0 u nu0 = mret (nu, us)) \/
  path_loop fuel c us0 u nu0 = ([EMaxPath], Halt (Exit 0)).
Proof.
  intros Hok H32 Hth Hroom Hf. revert us0 u nu0.
  induction fuel as [|fuel IH]; intros us0 u nu0 Hu Hnu0 Hlen Hfuel Hanc; [lia|].
  cbn [path_loop]. destruct (Z.eqb_spec u 0) as [->|Hnz]; [left; by eexists _, _|].
  destruct (Z.leb_spec MAXPATHLEN (nu0 + 1)) as [Hmax|Hlt].
  - right. rewrite path_search_none; [done|].
    intros k Hk Heq. destruct (Hanc k) as [d Hd]; [lia|]. rewrite Heq in Hd.
    apply forest_no_cycle in Hd; [done | done | lia].
  - rewrite (lookupM_holds c m u), bind_ret by done. apply IH.
    + by apply (table_holds_range c).
    + lia.
    + by rewrite length_wr.
    + lia.
    + intros i Hi. destruct (decide (i = nu0 + 1)) as [->|Hne].
      * exists 0%nat. rewrite rd_wr_eq by lia. done.
      * rewrite rd_wr_ne by lia. destruct (Hanc i) as [d Hd]; [lia|].
        exists (S d). by rewrite walk_S_r, Hd.
Qed.

Lemma path_legal c m u0 us0 :
  table_ok -> SIZESHIFT <= 32 -> table_holds c m ->
  Z.of_nat (size m) < CUCKOO_SIZE -> forest m ->
  rd us0 0 = u0 -> MAXPATHLEN <= Z.of_nat (length us0) ->
  (exists nu us, path c (default 0 (m !! u0)) us0 = mret (nu, us)) \/
  path c (default 0 (m !! u0)) us0 = ([EMaxPath], Halt (Exit 0)).
Proof.
  intros Hok H32 Hth Hroom Hf Hu0 Hlen.
  assert (Hs : 0 <= SIZESHIFT) by (destruct Hok as [[? ?] ?]; lia).
  pose proof (MAXPATHLEN_pos Hs) as HM. unfold path.
  apply (path_loop_legal _ c m); try done; try lia.
  - by apply (table_holds_range c).
  - intros i Hi. exists 0%nat. replace i with 0 by lia. by rewrite Hu0.
Qed.

(** The trail that [path] returns for the pointer of [u0]: its nodes are
    in range, each has its pointer to the next in the map, and the last
    one has none. *)
Lemma trail_chain c m us0 us u0 nu :
  table_ok -> SIZESHIFT <= 32 -> table_holds c m ->
  Z.of_nat (size m) < CUCKOO_SIZE ->
  0 < u0 < SIZE -> rd us0 0 = u0 -> MAXPATHLEN <= Z.of_nat (length us0) ->
  path c (default 0 (m !! u0)) us0 = mret (nu, us) ->
  0 <= nu /\ rd us 0 = u0 /\ length us = length us0 /\
  (forall i, 0 <= i <= nu -> 0 < rd us i < SIZE) /\
  (forall i, 0 <= i < nu -> m !! rd us i = Some (rd us (i + 1))) /\
  next m (rd us nu) = 0.
Proof.
  intros Hok H32 Hth Hroom Hu0 Hfirst Hlen Hrun.
  assert (Hs : 0 <= SIZESHIFT) by (destruct Hok as [[? ?] ?]; lia).
  pose proof (MAXPATHLEN_pos Hs) as HM. unfold path in Hrun.
  apply path_loop_returns in Hrun; [|lia|done].
  destruct Hrun as (_ & Hnu & _ & Hl & Hframe & Hzero & Hfst & Hnz & Hchain
                    & Hend).
  assert (Hone : 0 < nu -> rd us 1 = default 0 (m !! u0) /\
                           lookupM c (rd us nu) = mret 0).
  { intros Hpos. split; [by apply Hfst | by apply Hend]. }
  assert (Hus0 : rd us 0 = u0) by (rewrite Hframe by lia; done).
  assert (Hnext : forall k, 0 <= k < SIZE ->
            lookupM c k = mret (next m k)) by (intros k Hk; by apply lookupM_holds).
  assert (Hrange : forall j : nat, Z.of_nat j <= nu ->
            0 < rd us (Z.of_nat j) < SIZE /\
            (0 < Z.of_nat j -> next m (rd us (Z.of_nat j - 1)) = rd us (Z.of_nat j))).
  { induction j as [|j IH]; intros Hj.
    - change (Z.of_nat 0) with 0. rewrite Hus0. split; [done | lia].
    - destruct (IH ltac:(lia)) as [Hr _].
      assert (Hstep : next m (rd us (Z.of_nat j)) = rd us (Z.of_nat (S j))).
      { destruct (decide (j = 0%nat)) as [->|Hj0].
        - change (Z.of_nat 0) with 0. change (Z.of_nat 1) with 1.
          rewrite Hus0. destruct Hone as [-> _]; [lia | done].
        - pose proof (Hchain (Z.of_nat j) ltac:(lia)) as Hc.
          rewrite Hnext in Hc by lia. apply mret_inj in Hc.
          rewrite Hc. f_equal. lia. }
      pose proof (Hnz (Z.of_nat (S j)) ltac:(lia)) as Hne.
      pose proof (table_holds_range c m (rd us (Z.of_nat j)) Hok Hth) as Hv.
      fold (next m (rd us (Z.of_nat j))) in Hv. rewrite Hstep in Hv.
      split; [lia|]. intros _.
      replace (Z.of_nat (S j) - 1) with (Z.of_nat j) by lia. done. }
  split; [lia|]. split; [done|]. split; [done|]. split; [|split].
  - intros i Hi. replace i with (Z.of_nat (Z.to_nat i)) by lia.
    apply Hrange. lia.
  - intros i Hi. destruct (Hrange (Z.to_nat (i + 1)) ltac:(lia)) as [Hr Hn].
    rewrite Z2Nat.id in Hr, Hn by lia. specialize (Hn ltac:(lia)).
    replace (i + 1 - 1) with i in Hn by lia. unfold next in Hn.
    destruct (m !! rd us i) as [w|]; simpl in Hn; [by subst | lia].
  - destruct (decide (nu = 0)) as [->|Hpos].
    + rewrite Hus0. by apply Hzero.
    + destruct Hone as [_ Hlast]; [lia|].
      destruct (Hrange (Z.to_nat nu) ltac:(lia)) as [Hr _].
      rewrite Z2Nat.id in Hr by lia.
      rewrite Hnext in Hlast by lia. by apply mret_inj in Hlast.
Qed.

Lemma trail_walk m us nu :
  (forall i, 0 <= i < nu -> m !! rd us i = Some (rd us (i + 1))) ->
  forall i : nat, Z.of_nat i <= nu -> walk m i (rd us 0) = rd us (Z.of_nat i).
Proof.
  intros Hchain. induction i as [|i IH]; intros Hi; [done|].
  rewrite walk_S_r, IH by lia. unfold next.
  rewrite Hchain by lia. simpl. f_equal. lia.
Qed.

(** A node of another tree never leads to the root of this one. *)
Lemma other_root m a b na nb :
  forest m ->
  walk m na a <> 0 -> next m (walk m na a) = 0 ->
  walk m nb b <> 0 -> next m (walk m nb b) = 0 ->
  walk m na a <> walk m nb b ->
  forall j, walk m j b <> walk m na a.
Proof.
  intros [Hz _] Hra Hna Hrb Hnb Hne j Hj. apply Hne. rewrite <- Hj.
  apply root_unique; try done; by rewrite Hj.
Qed.

(** What the block of a solution prints, and how it ends. *)
Lemma solution_outcome ctx bits us vs nu nv nonce :
  exists k,
    solution ctx bits us vs nu nv nonce
      = (ESolution :: replicate k (ENonce nonce) ++ [ENewline], Ret tt) \/
    solution ctx bits us vs nu nv nonce
      = (ESolution :: replicate k (ENonce nonce), Halt AssertFailed).
Proof.
  assert (Hscan : exists k cyc,
            solution_scan ctx bits nonce (cycle_edges us vs nu nv)
            = (replicate k (ENonce nonce), Ret (cyc, Z.of_nat k))).
  { unfold solution_scan. destruct (2 <? PROOFSIZE) eqn:Hp.
    - eexists _, _. by rewrite scan_erasing.
    - eexists _, _. by rewrite scan_keeping. }
  destruct Hscan as (k & cyc & Hscan). exists k.
  unfold solution. rewrite Hscan.
  unfold print. rewrite bind_out. simpl. rewrite bind_out. simpl.
  destruct (Z.of_nat k =? u32 PROOFSIZE).
  - rewrite bind_ret. by left.
  - unfold stop. rewrite bind_halt. simpl. rewrite app_nil_r. by right.
Qed.

Lemma goes_well_solution ctx bits us vs nu nv nonce :
  goes_well (fun _ => True) (solution ctx bits us vs nu nv nonce).
Proof.
  destruct (solution_outcome ctx bits us vs nu nv nonce) as (k & [-> | ->]).
  - split; [done|]. simpl. intros len Hin.
    rewrite elem_of_cons, elem_of_app, elem_of_replicate,
      list_elem_of_singleton in Hin.
    by destruct Hin as [?|[[? _]|?]].
  - split.
    + right. split; [done|]. simpl. by left.
    + simpl. intros len Hin.
      rewrite elem_of_cons, elem_of_replicate in Hin.
      by destruct Hin as [?|[? _]].
Qed.

Lemma goes_well_maxpath {A B : Type} (Q : B -> Prop) (f : A -> M B) :
  goes_well Q ((([EMaxPath], Halt (Exit 0)) : M A) ≫= f).
Proof.
  rewrite bind_halt. split; [by left|]. simpl.
  by intros len ?%list_elem_of_singleton.
Qed.

(** One alive edge adds at most one pointer to the table and keeps the
    pointers a forest; the cycle finder goes well on it when the table
    has room for that pointer and one more empty slot. *)
Lemma find_cycle_step ctx bits x st m :
  table_ok -> SIZESHIFT <= 32 -> finder_ok st m -> forest m ->
  0 <= (sipedge ctx x).1 < SIZE -> 0 < (sipedge ctx x).2 < SIZE ->
  (alive_test bits x = true -> Z.of_nat (size m) + 1 < CUCKOO_SIZE) ->
  goes_well (fun st' => exists m', finder_ok st' m' /\ forest m' /\
               (size m' <= size m + if alive_test bits x then 1 else 0)%nat)
            (find_cycle ctx bits x st).
Proof.
  intros Hok H32 (Hth & Hlu & Hlv) Hf Hu0 Hv0 Hroom.
  assert (Hs : 0 <= SIZESHIFT) by (destruct Hok as [[? ?] ?]; lia).
  pose proof (MAXPATHLEN_pos Hs) as HM.
  unfold find_cycle. destruct (alive_test bits x) eqn:Halive.
  2:{ apply goes_well_ret. exists m. split; [done|]. split; [done | lia]. }
  specialize (Hroom eq_refl).
  destruct (sipedge ctx x) as [u0 v0]. simpl in Hu0, Hv0.
  destruct (Z.eqb_spec u0 0) as [->|Hu0nz].
  { apply goes_well_ret. exists m. split; [done|]. split; [done | lia]. }
  rewrite (lookupM_holds _ m u0), bind_ret by (done || lia).
  rewrite (lookupM_holds _ m v0), bind_ret by (done || lia).
  set (us1 := wr (us st) 0 u0). set (vs1 := wr (vs st) 0 v0).
  assert (Hus1 : rd us1 0 = u0) by (apply rd_wr_eq; lia).
  assert (Hvs1 : rd vs1 0 = v0) by (apply rd_wr_eq; lia).
  assert (Hlu1 : MAXPATHLEN <= Z.of_nat (length us1))
    by (unfold us1; by rewrite length_wr).
  assert (Hlv1 : MAXPATHLEN <= Z.of_nat (length vs1))
    by (unfold vs1; by rewrite length_wr).
  destruct (path_legal (cuckoo st) m u0 us1 Hok H32 Hth ltac:(lia) Hf Hus1 Hlu1)
    as [(nu & us2 & Hpu)|Hpu]; rewrite Hpu; [|apply goes_well_maxpath].
  rewrite bind_ret.
  destruct (path_legal (cuckoo st) m v0 vs1 Hok H32 Hth ltac:(lia) Hf Hvs1 Hlv1)
    as [(nv & vs2 & Hpv)|Hpv]; rewrite Hpv; [|apply goes_well_maxpath].
  rewrite bind_ret.
  apply (trail_chain _ m) in Hpu; [|done|done|done|lia|lia|done|done].
  apply (trail_chain _ m) in Hpv; [|done|done|done|lia|lia|done|done].
  destruct Hpu as (Hnu & Hus0 & Hlu2 & Hru & Hcu & Hrootu).
  destruct Hpv as (Hnv & Hvs0 & Hlv2 & Hrv & Hcv & Hrootv).
  pose proof (trail_walk m us2 nu Hcu) as Hwu. rewrite Hus0 in Hwu.
  pose proof (trail_walk m vs2 nv Hcv) as Hwv. rewrite Hvs0 in Hwv.
  pose proof (Hwu (Z.to_nat nu) ltac:(lia)) as Hwnu.
  pose proof (Hwv (Z.to_nat nv) ltac:(lia)) as Hwnv.
  rewrite Z2Nat.id in Hwnu, Hwnv by lia.
  pose proof (Hru nu ltac:(lia)) as Hrnu.
  pose proof (Hrv nv ltac:(lia)) as Hrnv.
  destruct (Z.eqb_spec (rd us2 nu) (rd vs2 nv)) as [Hsame|Hdiff].
  { destruct (join _ us2 vs2 _ _) as [nu' nv'].
    apply goes_well_print; [done|].
    eapply goes_well_bind.
    - destruct (_ =? u32 PROOFSIZE);
        [apply goes_well_solution | by apply goes_well_ret].
    - intros _ _. apply goes_well_ret. exists m. split; [|split; [done | lia]].
      split; [done|]. simpl. lia. }
  destruct (Z.ltb_spec nu nv) as [Hlt|Hge].
  - (* the trail of [u0] is reversed and [u0] is sent to [v0] *)
    set (m1 := sets_map m (relink_ops us2 (Z.to_nat nu))).
    destruct (relink_holds (cuckoo st) m us2 (Z.to_nat nu) Hok H32 Hth)
      as (c1 & Hrel & Hth1 & Hsz1); [| | |lia|].
    { intros i Hi. apply Hru. lia. }
    { rewrite Hus0. lia. }
    { intros i Hi. rewrite Hcu by lia. by eexists. }
    fold m1 in Hth1, Hsz1. rewrite Hrel, bind_ret.
    destruct (setM_holds c1 m1 u0 v0 Hok H32 Hth1 ltac:(lia) ltac:(lia))
      as (c2 & Hset & Hth2); [lia|].
    rewrite Hset, bind_ret. apply goes_well_ret.
    exists (<[u0 := v0]> m1). split; [split; [done|simpl; lia]|]. split.
    + rewrite <- Hus0. apply link_forest; [done| | | |].
      * intros i Hi. assert (0 < rd us2 i < SIZE) by (apply Hru; lia). lia.
      * intros i Hi. unfold next. rewrite Hcu by lia. done.
      * by rewrite Z2Nat.id by lia.
      * rewrite Z2Nat.id by lia. rewrite <- Hwnu.
        apply (other_root m u0 v0 _ (Z.to_nat nv)); rewrite ?Hwnu, ?Hwnv;
          try done; lia.
    + rewrite map_size_insert.
      destruct (decide (nu = 0)) as [->|Hpos].
      * unfold m1. change (Z.to_nat 0) with 0%nat. simpl.
        case_match; simpl; lia.
      * assert (Hin : is_Some (m1 !! u0)).
        { apply sets_map_is_Some. rewrite <- Hus0, Hcu by lia. by eexists. }
        destruct Hin as [w ->]. simpl. lia.
  - (* the trail of [v0] is reversed and [v0] is sent to [u0] *)
    set (m1 := sets_map m (relink_ops vs2 (Z.to_nat nv))).
    destruct (relink_holds (cuckoo st) m vs2 (Z.to_nat nv) Hok H32 Hth)
      as (c1 & Hrel & Hth1 & Hsz1); [| | |lia|].
    { intros i Hi. apply Hrv. lia. }
    { rewrite Hvs0. lia. }
    { intros i Hi. rewrite Hcv by lia. by eexists. }
    fold m1 in Hth1, Hsz1. rewrite Hrel, bind_ret.
    destruct (setM_holds c1 m1 v0 u0 Hok H32 Hth1 ltac:(lia) ltac:(lia))
      as (c2 & Hset & Hth2); [lia|].
    rewrite Hset, bind_ret. apply goes_well_ret.
    exists (<[v0 := u0]> m1). split; [split; [done|simpl; lia]|]. split.
    + rewrite <- Hvs0. apply link_forest; [done| | | |].
      * intros i Hi. assert (0 < rd vs2 i < SIZE) by (apply Hrv; lia). lia.
      * intros i Hi. unfold next. rewrite Hcv by lia. done.
      * by rewrite Z2Nat.id by lia.
      * rewrite Z2Nat.id by lia. rewrite <- Hwnv.
        apply (other_root m v0 u0 _ (Z.to_nat nu)); rewrite ?Hwnu, ?Hwnv;
          try done; lia.
    + rewrite map_size_insert.
      destruct (decide (nv = 0)) as [->|Hpos].
      * unfold m1. change (Z.to_nat 0) with 0%nat. simpl.
        case_match; simpl; lia.
      * assert (Hin : is_Some (m1 !! v0)).
        { apply sets_map_is_Some. rewrite <- Hvs0, Hcv by lia. by eexists. }
        destruct Hin as [w ->]. simpl. lia.
Qed.

Lemma finder_ok_new : table_ok -> finder_ok finder_new ∅.
Proof.
  intros Hok. split; [by apply table_holds_new|].
  assert (Hs : 0 <= SIZESHIFT) by (destruct Hok as [[? ?] ?]; lia).
  pose proof (MAXPATHLEN_pos Hs). simpl. rewrite length_replicate. lia.
Qed.

(** The cycle finder goes well, and leaves a table that holds a forest
    with at most one pointer per alive edge. *)
Lemma find_cycles_goes_well ctx bits :
  table_ok -> SIZESHIFT <= 32 ->
  (forall x, 0 <= x < HALFSIZE ->
     0 <= (sipedge ctx x).1 < SIZE /\ 0 < (sipedge ctx x).2 < SIZE) ->
  Z.of_nat (alive_count bits) < CUCKOO_SIZE ->
  goes_well (fun st => exists m, table_holds (cuckoo st) m /\ forest m /\
                       (size m <= alive_count bits)%nat)
            (find_cycles ctx bits).
Proof.
  intros Hok H32 Hedge Hload.
  set (I := fun (rest : list Z) (st : finder) =>
    exists m, finder_ok st m /\ forest m /\
      (size m + length (filter (fun n => alive_test bits n) rest)
         <= alive_count bits)%nat /\
      forall x, x ∈ rest -> 0 <= x < HALFSIZE).
  apply (goes_well_impl (I [])).
  - unfold find_cycles. rewrite forM_concat, all_nonces. apply goes_well_forM.
    + intros x rest st (m & Hfin & Hf & Hsz & Hrest).
      rewrite filter_cons in Hsz.
      destruct (Hedge x) as [Hu0 Hv0]; [apply Hrest; by left|].
      eapply goes_well_impl.
      * apply (find_cycle_step ctx bits x st m Hok H32 Hfin Hf Hu0 Hv0).
        intros Ha. rewrite Ha in Hsz. simpl in Hsz. lia.
      * intros st' (m' & Hfin' & Hf' & Hsz').
        exists m'. split; [done|]. split; [done|]. split.
        -- destruct (alive_test bits x); simpl in *; lia.
        -- intros y Hy. apply Hrest. by right.
    + exists ∅. split; [by apply finder_ok_new|]. split; [apply forest_empty|].
      split.
      * rewrite map_size_empty. unfold alive_count. lia.
      * by intros x ?%elem_of_seqZ.
  - intros st (m & (Hth & _) & Hf & Hsz & _).
    exists m. split; [done|]. split; [done|]. simpl in Hsz. lia.
Qed.



(** X13: The pointers of the cycle finder never close a cycle: [path] never
    prints that it met an illegal cycle, and in the table of a finder
    that returns the pointers lead from every node to the sentinel 0. *)
Theorem find_cycles_keeps_forest (ctx : siphash_ctx) (bits : list Z) :
  table_ok -> SIZESHIFT <= 32 ->
  (forall x, 0 <= x < HALFSIZE ->
     0 <= (sipedge ctx x).1 < SIZE /\ 0 < (sipedge ctx x).2 < SIZE) ->
  Z.of_nat (alive_count bits) < CUCKOO_SIZE ->
  (forall len, EIllegalCycle len ∉ (find_cycles ctx bits).1) /\
  forall st, (find_cycles ctx bits).2 = Ret st ->
    forall k, 0 <= k < SIZE -> rtc (follows (cuckoo st)) k 0.
Proof.
  intros Hok H32 Hedge Hload.
  destruct (find_cycles_goes_well ctx bits Hok H32 Hedge Hload) as [Hrun Hout].
  split; [done|]. intros st Hst k Hk. unfold ends_well in Hrun.
  rewrite Hst in Hrun. destruct Hrun as (m & Hth & [Hz Hall] & Hsz).
  destruct (Hall k) as [n Hn]. revert k Hk Hn.
  induction n as [|n IH]; intros k Hk Hn.
  - simpl in Hn. subst k. apply rtc_refl.
  - destruct (decide (k = 0)) as [->|Hnz]; [apply rtc_refl|].
    apply (rtc_l _ _ (next m k)).
    + split; [done|]. apply lookupM_holds; try done. lia.
    + apply IH; [|done]. by apply (table_holds_range (cuckoo st)).
Qed.

End HostRuns.

(** ** Exit status *)

Lemma exits_zero_ret {A : Type} (a : A) : exits_zero (mret a).
Proof. intros code Hc. done. Qed.

Lemma exits_zero_stop {A : Type} (h : halt) :
  (forall code, h <> Exit code) -> exits_zero (stop h : M A).
Proof. intros Hh code [= Hc]. by destruct (Hh code). Qed.

Lemma exits_zero_bind {A B : Type} (m : M A) (f : A -> M B) :
  exits_zero m -> (forall a, exits_zero (f a)) -> exits_zero (m ≫= f).
Proof.
  intros Hm Hf. destruct m as [out [a|h]].
  - intros code. unfold mbind, M_bind. specialize (Hf a).
    destruct (f a) as [o r]; simpl. intros Hr.
    destruct (Hf code Hr) as (-> & o' & e & Ho & He). simpl in Ho.
    split; [done|]. exists (out ++ o'), e.
    split; [by rewrite Ho, app_assoc | done].
  - rewrite bind_halt. intros code [= ->]. by apply (Hm code).
Qed.

Lemma exits_zero_forM {A S : Type} (body : A -> S -> M S) l st :
  (forall x st, exits_zero (body x st)) -> exits_zero (forM body l st).
Proof.
  intros Hbody. revert st. induction l as [|x l IH]; intros st.
  - apply exits_zero_ret.
  - rewrite forM_cons. by apply exits_zero_bind.
Qed.

Section ExitStatus.
Context `{Params} `{EdgeGen}.

Lemma exits_zero_lookupM c u : exits_zero (lookupM c u).
Proof.
  unfold lookupM. destruct (cuckoo_lookup probe_fuel c u) as [[v|]|].
  - apply exits_zero_ret.
  - by apply exits_zero_stop.
  - by apply exits_zero_stop.
Qed.

Lemma exits_zero_setM c u v : exits_zero (setM c u v).
Proof.
  unfold setM. destruct (cuckoo_set probe_fuel c u v).
  - apply exits_zero_ret.
  - by apply exits_zero_stop.
Qed.

Lemma exits_zero_path_loop fuel c us u nu :
  exits_zero (path_loop fuel c us u nu).
Proof.
  revert us u nu. induction fuel as [|fuel IH]; intros us u nu; cbn [path_loop].
  - destruct (u =? 0); [apply exits_zero_ret | by apply exits_zero_stop].
  - destruct (u =? 0); [apply exits_zero_ret|].
    destruct (MAXPATHLEN <=? nu + 1).
    + destruct (_ =? _); unfold print, stop; rewrite bind_out; simpl;
        intros code [= <-]; (split; [done|]); eexists [], _;
        (split; [done|]); unfold diagnostic; eauto.
    + apply exits_zero_bind; [apply exits_zero_lookupM|]. intros u'. apply IH.
Qed.

Lemma exits_zero_relink c us n : exits_zero (relink c us n).
Proof.
  revert c. induction n as [|n IH]; intros c; cbn [relink].
  - apply exits_zero_ret.
  - apply exits_zero_bind; [apply exits_zero_setM | done].
Qed.

Lemma exits_zero_solution ctx bits us vs nu nv nonce :
  exits_zero (solution ctx bits us vs nu nv nonce).
Proof.
  destruct (solution_outcome ctx bits us vs nu nv nonce) as (k & [-> | ->]);
    by intros code.
Qed.

Lemma exits_zero_find_cycle ctx bits x st :
  exits_zero (find_cycle ctx bits x st).
Proof.
  unfold find_cycle. destruct (alive_test bits x); [|apply exits_zero_ret].
  destruct (sipedge ctx x) as [u0 v0].
  destruct (u0 =? 0); [apply exits_zero_ret|].
  apply exits_zero_bind; [apply exits_zero_lookupM|]. intros u.
  apply exits_zero_bind; [apply exits_zero_lookupM|]. intros v.
  apply exits_zero_bind; [apply exits_zero_path_loop|]. intros [nu us2].
  apply exits_zero_bind; [apply exits_zero_path_loop|]. intros [nv vs2].
  destruct (rd us2 nu =? rd vs2 nv).
  - destruct (join _ us2 vs2 _ _) as [nu' nv'].
    apply exits_zero_bind; [by intros code|]. intros _.
    apply exits_zero_bind.
    + destruct (_ =? u32 PROOFSIZE);
        [apply exits_zero_solution | apply exits_zero_ret].
    + intros _. apply exits_zero_ret.
  - destruct (nu <? nv).
    + apply exits_zero_bind; [apply exits_zero_relink|]. intros c.
      apply exits_zero_bind; [apply exits_zero_setM|]. intros c'.
      apply exits_zero_ret.
    + apply exits_zero_bind; [apply exits_zero_relink|]. intros c.
      apply exits_zero_bind; [apply exits_zero_setM|]. intros c'.
      apply exits_zero_ret.
Qed.

(** X14: For a graph the kernels are written for, alive bits of
    [HALFSIZE/32] words and edges with both end points below [SIZE] (so
    that every array is read and written inside its bounds and the load
    is computed without dividing by zero), the host part of [main] has
    one exit status: a run that returns gives 0, and a run that leaves
    through [exit] gives 0 as well, right after printing that the table
    is overloaded, that the maximum path length is exceeded, or that an
    illegal cycle was met.  The first line printed is the final load. *)
Theorem main_host_status_zero (ctx : siphash_ctx) (bits : list Z) :
  table_ok -> trim_ok -> Z.of_nat (length bits) = HALFSIZE / 32 ->
  (forall x, 0 <= x < HALFSIZE ->
     0 <= (sipedge ctx x).1 < SIZE /\ 0 <= (sipedge ctx x).2 < SIZE) ->
  let r := main_host ctx bits in
  (forall code, r.2 = Ret code \/ r.2 = Halt (Exit code) -> code = 0) /\
  (forall code, r.2 = Halt (Exit code) ->
     exists out e, r.1 = out ++ [e] /\
       (e = EOverloaded \/ e = EMaxPath \/ exists len, e = EIllegalCycle len)) /\
  exists out, r.1 = EFinalLoad (final_load bits) :: out.
Proof.
  intros _ _ _ _ r.
  assert (Hz : exits_zero r).
  { unfold r, main_host. apply exits_zero_bind; [by intros code|]. intros _.
    apply exits_zero_bind.
    - destruct (90 <=? final_load bits); [|apply exits_zero_ret].
      unfold print, stop. rewrite bind_out. simpl. intros code [= <-].
      split; [done|]. exists [], EOverloaded. split; [done|]. by left.
    - intros _. apply exits_zero_bind.
      + unfold find_cycles. apply exits_zero_forM. intros b st.
        apply exits_zero_forM. intros x st'. apply exits_zero_find_cycle.
      + intros st. apply exits_zero_ret. }
  split; [|split].
  - intros code [Hret|Hexit]; [|by destruct (Hz code Hexit)].
    unfold r, main_host in Hret. unfold print in Hret.
    rewrite bind_out in Hret. simpl in Hret.
    destruct (90 <=? final_load bits).
    + unfold stop in Hret. rewrite bind_out in Hret. simpl in Hret. done.
    + rewrite bind_ret in Hret.
      destruct (find_cycles ctx bits) as [o [st|h]]; simpl in Hret; [|done].
      by injection Hret as <-.
  - intros code Hexit. by destruct (Hz code Hexit) as (_ & out & e & ? & ?);
      exists out, e.
  - unfold r, main_host, print. rewrite bind_out. simpl. by eexists.
Qed.



End ExitStatus.

(** ** What trimming kills and what it keeps *)

(** *** Lists of marks *)

Lemma foldl_snoc_filter {A B : Type} (c : A -> bool) (g : A -> B)
    (l : list A) (acc : list B) :
  foldl (fun s n => if c n then s ++ [g n] else s) acc l
  = acc ++ (g <$> filter (fun n => c n) l).
Proof.
  revert acc. induction l as [|n l IH]; intros acc; simpl.
  - by rewrite app_nil_r.
  - rewrite IH, filter_cons. destruct (c n); simpl; [|done].
    by rewrite <- app_assoc.
Qed.

Lemma concat_fmap_filter {A B C : Type} (g : A -> B) (c : A -> bool)
    (f : C -> list A) (bs : list C) :
  concat ((fun b => g <$> filter (fun n => c n) (f b)) <$> bs)
  = g <$> filter (fun n => c n) (concat (f <$> bs)).
Proof.
  induction bs as [|b bs IH]; [done|].
  rewrite !fmap_cons. cbn [concat]. by rewrite filter_app, fmap_app, IH.
Qed.

Lemma filter_filter_bool {A : Type} (c d : A -> bool) (l : list A) :
  filter (fun n => c n) (filter (fun n => d n) l)
  = filter (fun n => d n && c n) l.
Proof.
  induction l as [|x l IH]; [done|].
  rewrite !filter_cons. destruct (d x); simpl.
  - rewrite filter_cons. destruct (c x); simpl; by rewrite IH.
  - done.
Qed.

Lemma occ_fmap_filter {A : Type} (g : A -> Z) (c : A -> bool) (l : list A) u :
  occ u (g <$> filter (fun n => c n) l)
  = length (filter (fun n => c n && (g n =? u)) l).
Proof.
  unfold occ. induction l as [|x l IH]; [done|].
  destruct (c x) eqn:Hc.
  - rewrite (filter_cons_True (fun n => c n)) by by rewrite Hc.
    rewrite fmap_cons.
    destruct (Z.eqb_spec (g x) u) as [Heq|Hne].
    + rewrite (filter_cons_True (fun y => y = u)); [|exact Heq].
      rewrite (filter_cons_True (fun n => c n && (g n =? u))).
      2:{ by rewrite Hc, (proj2 (Z.eqb_eq _ _) Heq). }
      cbn [length]. by rewrite IH.
    + rewrite (filter_cons_False (fun y => y = u)); [|exact Hne].
      rewrite (filter_cons_False (fun n => c n && (g n =? u))); [done|].
      rewrite Hc, (proj2 (Z.eqb_neq _ _) Hne). simpl. tauto.
  - rewrite (filter_cons_False (fun n => c n)) by (rewrite Hc; simpl; tauto).
    rewrite (filter_cons_False (fun n => c n && (g n =? u))); [done|].
    rewrite Hc. simpl. tauto.
Qed.

(** Two members of a list without repetition that pass a test. *)
Lemma filter_two {A : Type} (c : A -> bool) (l : list A) (x y : A) :
  NoDup l -> x ∈ l -> y ∈ l -> x <> y -> c x = true -> c y = true ->
  (2 <= length (filter (fun n => c n) l))%nat.
Proof.
  intros Hnd Hx Hy Hne Hcx Hcy.
  assert (Hsub : [x; y] ⊆+ filter (fun n => c n) l).
  { apply NoDup_submseteq.
    - constructor; [by intros ?%list_elem_of_singleton|].
      constructor; [by intros ?%elem_of_nil | constructor].
    - intros z Hz. apply list_elem_of_filter.
      apply elem_of_cons in Hz as [->|Hz]; [by rewrite Hcx|].
      apply list_elem_of_singleton in Hz as ->. by rewrite Hcy. }
  apply submseteq_length in Hsub. simpl in Hsub. lia.
Qed.

Lemma for_opt_inv {A S : Type} (P : S -> Prop) (body : A -> S -> option S)
    (l : list A) (st st' : S) :
  (forall x s s', x ∈ l -> P s -> body x s = Some s' -> P s') ->
  P st -> for_opt body l st = Some st' -> P st'.
Proof.
  revert st. induction l as [|x l IH]; intros st Hbody Hst Hrun; simpl in *.
  - by injection Hrun as <-.
  - destruct (body x st) as [s1|] eqn:E; [|done].
    apply (IH s1); [|by eapply Hbody; [left|..]|done].
    intros y s s' Hy. apply Hbody. by right.
Qed.

Section TrimSemantics.
Context `{Params} `{EdgeGen}.

Lemma block_marks_list ctx a uorv part i :
  0 <= i ->
  block_marks ctx a uorv part (32 * i)
  = (fun n => Z.shiftr (dipnode ctx n uorv) PART_BITS)
      <$> filter (fun n => alive_test a n &&
                           (Z.land (dipnode ctx n uorv) PART_MASK =? part))
                 (seqZ (32 * i) 32).
Proof.
  intros Hi. unfold block_marks. rewrite for_alive32_fold.
  rewrite (foldl_snoc_filter
             (fun n => Z.land (dipnode ctx n uorv) PART_MASK =? part)
             (fun n => Z.shiftr (dipnode ctx n uorv) PART_BITS)).
  rewrite alive32_list_alive by done. simpl.
  by rewrite filter_filter_bool.
Qed.

Lemma all_marks_list ctx a uorv part :
  trim_ok ->
  all_marks ctx a uorv part
  = (fun n => Z.shiftr (dipnode ctx n uorv) PART_BITS)
      <$> filter (fun n => alive_test a n &&
                           (Z.land (dipnode ctx n uorv) PART_MASK =? part))
                 (seqZ 0 HALFSIZE).
Proof.
  intros Hok. pose proof (HALFSIZE_pos Hok) as Hpos.
  pose proof (HALFSIZE_blocks Hok) as HH.
  unfold all_marks, all_blocks.
  rewrite HH at 2. rewrite <- (Z2Nat.id (HALFSIZE / 32)) at 2 by lia.
  rewrite <- full_blocks.
  rewrite <- (concat_fmap_filter
                (fun n => Z.shiftr (dipnode ctx n uorv) PART_BITS)
                (fun n => alive_test a n &&
                          (Z.land (dipnode ctx n uorv) PART_MASK =? part))
                (fun b => seqZ b 32)).
  rewrite Z2Nat.id by lia. f_equal.
  rewrite <- !list_fmap_compose. apply list_fmap_ext.
  intros j k Hk. apply list_elem_of_lookup_2, elem_of_seqZ in Hk.
  simpl. apply block_marks_list. lia.
Qed.

(** A node is its partition and what is left of it above the partition
    bits. *)
Lemma node_parts d1 d2 :
  0 <= PART_BITS ->
  Z.land d1 PART_MASK = Z.land d2 PART_MASK ->
  Z.shiftr d1 PART_BITS = Z.shiftr d2 PART_BITS -> d1 = d2.
Proof.
  intros Hp Hl Hs. unfold PART_MASK in *.
  rewrite Z.shiftl_1_l in Hl.
  replace (2 ^ PART_BITS - 1) with (Z.ones PART_BITS) in Hl
    by (rewrite Z.ones_equiv; lia).
  rewrite !Z.land_ones in Hl by done.
  rewrite !Z.shiftr_div_pow2 in Hs by done.
  assert (2 ^ PART_BITS <> 0) by (apply Z.pow_nonzero; lia).
  rewrite (Z.div_mod d1 (2 ^ PART_BITS)), (Z.div_mod d2 (2 ^ PART_BITS)) by done.
  by rewrite Hl, Hs.
Qed.

(** The marks of a node of the partition count its alive edges. *)
Lemma occ_all_marks ctx a uorv part n0 :
  trim_ok -> Z.land (dipnode ctx n0 uorv) PART_MASK = part ->
  occ (Z.shiftr (dipnode ctx n0 uorv) PART_BITS) (all_marks ctx a uorv part)
  = degree ctx a uorv (dipnode ctx n0 uorv).
Proof.
  intros Hok Hpart. rewrite all_marks_list by done.
  rewrite (occ_fmap_filter (fun n => Z.shiftr (dipnode ctx n uorv) PART_BITS)).
  unfold degree. f_equal. apply filter_ext_bool. intros n.
  destruct (alive_test a n); simpl; [|done].
  destruct (Z.eqb_spec (dipnode ctx n uorv) (dipnode ctx n0 uorv)) as [Heq|Hne].
  - rewrite Heq, Hpart, !Z.eqb_refl. done.
  - destruct (Z.eqb_spec (Z.land (dipnode ctx n uorv) PART_MASK) part)
      as [Hp|]; [|done].
    destruct (Z.eqb_spec (Z.shiftr (dipnode ctx n uorv) PART_BITS)
                         (Z.shiftr (dipnode ctx n0 uorv) PART_BITS))
      as [Hs|]; [|done].
    exfalso. apply Hne. apply node_parts; [by destruct Hok | congruence | done].
Qed.

Lemma testbit_foldl_lor w l i n :
  0 <= i -> 32 * i <= n < 32 * i + 32 ->
  (forall x, x ∈ l -> 32 * i <= x < 32 * i + 32) ->
  Z.testbit (foldl (fun w n => Z.lor w (u32 (Z.shiftl 1 (n mod 32)))) w l)
            (n mod 32)
  = Z.testbit w (n mod 32) || bool_decide (n ∈ l).
Proof.
  intros Hi Hn. revert w. induction l as [|x l IH]; intros w Hl; cbn [foldl].
  - rewrite bool_decide_eq_false_2 by by intros ?%elem_of_nil.
    by rewrite orb_false_r.
  - rewrite IH by (intros; apply Hl; by right).
    pose proof (Hl x ltac:(by left)) as Hx.
    pose proof (Z.mod_pos_bound x 32 ltac:(lia)).
    rewrite u32_pow2, testbit_lor_pow2 by lia.
    rewrite <- orb_assoc. f_equal.
    destruct (Z.eqb_spec (x mod 32) (n mod 32)) as [Heq|Hne].
    + assert (x = n) as ->.
      { apply div_mod_32_inj; [|done].
        replace (x / 32) with i
          by (apply (Z.div_unique x 32 i (x - 32 * i)); lia).
        replace (n / 32) with i
          by (apply (Z.div_unique n 32 i (n - 32 * i)); lia).
        done. }
      simpl. symmetry. apply bool_decide_eq_true_2. by left.
    + simpl. apply bool_decide_ext. rewrite elem_of_cons.
      split; [tauto|]. intros [->|?]; [done|done].
Qed.

(** What one pass leaves alive, without threads. *)
Lemma trim_pass_seq_alive ctx uorv part a n :
  trim_ok -> Z.of_nat (length a) = HALFSIZE / 32 -> 0 <= n < HALFSIZE ->
  alive_test (trim_pass_seq ctx uorv part a) n
  = alive_test a n &&
    negb (kills ctx (leaf_of (all_marks ctx a uorv part)) uorv part n).
Proof.
  intros Hok Hlen Hn. pose proof (HALFSIZE_blocks Hok) as HH.
  set (i := n / 32).
  assert (Hi : 0 <= i < HALFSIZE / 32).
  { unfold i. split; [apply Z.div_pos; lia|].
    apply Z.div_lt_upper_bound; lia. }
  pose proof (Z.div_mod n 32 ltac:(lia)) as Hdm.
  pose proof (Z.mod_pos_bound n 32 ltac:(lia)) as Hr. fold i in Hdm.
  rewrite !alive_test_testbit. fold i. unfold trim_pass_seq.
  rewrite rd_imap by lia. rewrite Z2Nat.id by lia.
  unfold kill_word.
  assert (Hl : alive32_list (u32 (Z.lnot (rd a i))) (32 * i)
               = filter (fun x => alive_test a x) (seqZ (32 * i) 32)).
  { rewrite <- alive32_list_alive by lia. unfold alive_block.
    by replace (32 * i / 32) with i by (rewrite Z.mul_comm, Z.div_mul; lia). }
  rewrite Hl, filter_filter_bool.
  rewrite (testbit_foldl_lor _ _ i n); [|lia|lia|].
  2:{ intros x [_ Hx%elem_of_seqZ]%list_elem_of_filter. lia. }
  rewrite negb_orb.
  assert (Ha : alive_test a n = negb (Z.testbit (rd a i) (n mod 32)))
    by by rewrite alive_test_testbit.
  destruct (Z.testbit (rd a i) (n mod 32)); simpl in *; [done|]. f_equal.
  destruct (kills ctx _ uorv part n) eqn:Ek.
  - apply bool_decide_eq_true_2, list_elem_of_filter.
    split; [by rewrite Ha, Ek|]. apply elem_of_seqZ. lia.
  - apply bool_decide_eq_false_2. intros [Hc _]%list_elem_of_filter.
    by rewrite Ha, Ek in Hc.
Qed.

(** What one pass leaves alive, with any number of threads and under any
    schedule. *)
Lemma trim_pass_alive ctx nthreads sched round uorv part a a' n :
  trim_ok -> 1 <= nthreads -> Z.of_nat (length a) = HALFSIZE / 32 ->
  trim_pass ctx nthreads sched round uorv part a = Some a' ->
  0 <= n < HALFSIZE ->
  alive_test a' n
  = alive_test a n &&
    negb ((Z.land (dipnode ctx n uorv) PART_MASK =? part) &&
          bool_decide (degree ctx a uorv (dipnode ctx n uorv) < 2)%nat).
Proof.
  intros Hok Hn Hlen Hpass Hrange.
  rewrite (trim_pass_result _ _ _ _ _ _ _ _ Hok Hn Hlen Hpass).
  rewrite trim_pass_seq_alive by done. f_equal. f_equal. unfold kills.
  destruct (Z.eqb_spec (Z.land (dipnode ctx n uorv) PART_MASK) part)
    as [Hp|]; [|done].
  simpl. unfold leaf_of. rewrite occ_all_marks by done.
  destruct (decide (2 <= degree ctx a uorv (dipnode ctx n uorv))%nat).
  - rewrite bool_decide_eq_true_2 by done.
    rewrite bool_decide_eq_false_2 by lia. done.
  - rewrite bool_decide_eq_false_2 by done.
    rewrite bool_decide_eq_true_2 by lia. done.
Qed.

(** X16: One pass of the two kernels, with at least one thread and fewer
    than [2^26] (so that [id*32], [nthreads*32] and [block + step] are
    computed without wrapping) and under any schedule, kills the alive
    edges whose end point on side [uorv] lies in the partition and is
    the end point of no other alive edge; every other edge is left as it
    was.  A pass exists: with the threads taking their turns both
    launches run to their end. *)
Theorem trim_pass_kills_leaves (ctx : siphash_ctx) (nthreads : Z)
    (sched : scheduler) (round uorv part : Z) (a a' : list Z) :
  trim_ok -> 1 <= nthreads < 2 ^ 26 ->
  Z.of_nat (length a) = HALFSIZE / 32 ->
  trim_pass ctx nthreads sched round uorv part a = Some a' ->
  (forall n, 0 <= n < HALFSIZE ->
     alive_test a' n
     = alive_test a n &&
       negb ((Z.land (dipnode ctx n uorv) PART_MASK =? part) &&
             bool_decide (degree ctx a uorv (dipnode ctx n uorv) < 2)%nat)) /\
  is_Some (trim_pass ctx nthreads (fun _ _ _ _ => in_turn nthreads)
                     round uorv part a).
Proof.
  intros Hok [Hn _] Hlen Hpass. split.
  - intros n Hrange. by eapply trim_pass_alive.
  - unfold trim_pass.
    destruct (count_launch_in_turn ctx a nthreads uorv part twice_reset Hok Hn)
      as [nl ->].
    simpl. by apply kill_launch_in_turn.
Qed.

Lemma trim_pass_length ctx nthreads sched round uorv part a a' :
  trim_ok -> 1 <= nthreads -> Z.of_nat (length a) = HALFSIZE / 32 ->
  trim_pass ctx nthreads sched round uorv part a = Some a' ->
  Z.of_nat (length a') = HALFSIZE / 32.
Proof.
  intros Hok Hn Hlen Hpass.
  rewrite (trim_pass_result _ _ _ _ _ _ _ _ Hok Hn Hlen Hpass).
  by rewrite trim_pass_seq_length.
Qed.

(** X17: Trimming keeps every set of alive edges in which each edge shares
    both its end points with another edge of the set: the edges of a
    cycle are never trimmed, whatever the number of rounds, the number
    of threads and the schedules. *)
Theorem trim_keeps_cycles (ctx : siphash_ctx) (nthreads ntrims : Z)
    (sched : scheduler) (a a' : list Z) (C : list Z) :
  trim_ok -> 1 <= nthreads -> Z.of_nat (length a) = HALFSIZE / 32 ->
  (forall n, n ∈ C -> 0 <= n < HALFSIZE /\ alive_test a n = true) ->
  (forall n uorv, n ∈ C -> uorv = 0 \/ uorv = 1 ->
     exists n', n' ∈ C /\ n' <> n /\
                dipnode ctx n' uorv = dipnode ctx n uorv) ->
  trim ctx nthreads ntrims sched a = Some a' ->
  forall n, n ∈ C -> alive_test a' n = true.
Proof.
  intros Hok Hn Hlen Halive Hshare Htrim.
  set (P := fun b : list Z => Z.of_nat (length b) = HALFSIZE / 32 /\
                             forall n, n ∈ C -> alive_test b n = true).
  assert (HP : P a') ; [|by destruct HP].
  unfold trim in Htrim.
  eapply (for_opt_inv P); [|split; [done | intros; by apply Halive]|exact Htrim].
  intros round b1 b1' _ Hb1. apply (for_opt_inv P); [|done].
  intros uorv b2 b2' Huorv Hb2. apply (for_opt_inv P); [|done].
  intros part b3 b3' _ [Hl3 Ha3] Hpass.
  split; [by eapply trim_pass_length|].
  intros n HnC. destruct (Halive n HnC) as [Hrange _].
  rewrite (trim_pass_alive ctx nthreads sched round uorv part b3 b3' n
             Hok Hn Hl3 Hpass Hrange).
  rewrite (Ha3 n HnC). simpl. apply negb_true_iff, andb_false_iff. right.
  apply bool_decide_eq_false_2.
  destruct (Hshare n uorv HnC) as (n' & HnC' & Hne & Heq).
  { apply elem_of_cons in Huorv as [->|Huorv]; [by left|].
    apply list_elem_of_singleton in Huorv as ->. by right. }
  destruct (Halive n' HnC') as [Hrange' _].
  assert (2 <= degree ctx b3 uorv (dipnode ctx n uorv))%nat; [|lia].
  unfold degree.
  apply (filter_two (fun x => alive_test b3 x && (dipnode ctx x uorv =? dipnode ctx n uorv))
                    _ n n').
  - apply NoDup_seqZ.
  - apply elem_of_seqZ. lia.
  - apply elem_of_seqZ. lia.
  - done.
  - by rewrite (Ha3 n HnC), Z.eqb_refl.
  - by rewrite (Ha3 n' HnC'), Heq, Z.eqb_refl.
Qed.

Lemma foldl_fixed {A S : Type} (f : S -> S) (l : list A) (a : S) :
  f a = a -> foldl (fun s _ => f s) a l = a.
Proof.
  intros Hf. induction l as [|x l IH]; simpl; [done|]. by rewrite Hf.
Qed.

(** X18: Once a round of trimming kills nothing, no later round does: from
    alive bits that one round leaves as they are, any number of rounds,
    with at least one thread and fewer than [2^26] and under any
    schedule, gives the same bits. *)
Theorem trimming_stable (ctx : siphash_ctx) (n1 n2 ntrims : Z)
    (sched1 sched2 : scheduler) (a a' : list Z) :
  trim_ok -> 1 <= n1 < 2 ^ 26 -> 1 <= n2 < 2 ^ 26 ->
  Z.of_nat (length a) = HALFSIZE / 32 ->
  trim ctx n1 1 sched1 a = Some a ->
  trim ctx n2 ntrims sched2 a = Some a' ->
  a' = a.
Proof.
  intros Hok [Hn1 _] [Hn2 _] Hlen Hone Hmany.
  apply (trim_result _ _ _ _ _ _ Hok Hn1 Hlen) in Hone.
  apply (trim_result _ _ _ _ _ _ Hok Hn2 Hlen) in Hmany.
  rewrite Hmany. unfold trim_seq in *.
  change (seqZ 0 (u32 1)) with [0] in Hone. cbn [foldl] in Hone.
  apply (foldl_fixed
           (fun a => foldl (fun a uorv =>
                      foldl (fun a part => trim_pass_seq ctx uorv part a)
                            a (seqZ 0 (PART_MASK + 1))) a [0; 1])).
  by symmetry.
Qed.

(** X19: The blocks of a thread: with fewer than [2^26] threads (so that
    [id*32], [nthreads*32] and [block + step] do not wrap) thread [id] of
    [nthreads] visits, once each, the blocks whose number is [id] modulo
    [nthreads], so that no two threads work on the same word of the
    alive bits. *)
Theorem thread_blocks_stride (nthreads id : Z) :
  trim_ok -> 1 <= nthreads < 2 ^ 26 -> 0 <= id < nthreads ->
  exists bs, thread_blocks nthreads id = Some bs /\ NoDup bs /\
    forall x, x ∈ bs <->
      exists q, 0 <= q < HALFSIZE / 32 /\ q mod nthreads = id /\ x = 32 * q.
Proof.
  intros Hok [Hn _] Hid. pose proof (HALFSIZE_blocks Hok) as HH.
  destruct (thread_blocks_Some nthreads id Hn ltac:(lia)) as [bs Hbs].
  exists bs. split; [done|]. rewrite thread_blocks_eq in Hbs. split.
  { eapply blocks_from_NoDup; [|done]. lia. }
  assert (Hstep : 0 < nthreads * 32) by lia.
  intros x. rewrite (blocks_from_elem _ _ _ _ x Hstep Hbs). split.
  - intros (k & -> & Hlt). exists (id + Z.of_nat k * nthreads).
    split; [|split].
    + set (D := HALFSIZE / 32) in *. nia.
    + rewrite Z.mod_add by lia. apply Z.mod_small. lia.
    + lia.
  - intros (q & Hq & Hmod & ->).
    exists (Z.to_nat (q / nthreads)).
    assert (0 <= q / nthreads) by (apply Z.div_pos; lia).
    pose proof (Z.div_mod q nthreads ltac:(lia)). split; [|lia].
    rewrite Z2Nat.id by done. nia.
Qed.

End TrimSemantics.

(** ** Bit sets, sizes and the banner *)

(** X20: [block] gives the alive bits of the 32 nonces of a word, bit [j] for
    the [j]-th nonce of the word, as [test] gives them one by one; and
    [reset] changes the answer of [test] for its own nonce only. *)
Theorem alive_block_agrees_with_test (bits : list Z) (n m j : Z) :
  0 <= n -> 0 <= m -> 0 <= j < 32 ->
  0 <= alive_block bits n < 2 ^ 32 /\
  Z.testbit (alive_block bits n) j = alive_test bits (32 * (n / 32) + j) /\
  (m <> n -> alive_test (alive_reset bits n) m = alive_test bits m).
Proof.
  intros Hn Hm Hj. split; [|split].
  - unfold alive_block, u32. apply Z.mod_pos_bound. lia.
  - rewrite alive_test_testbit. unfold alive_block, u32.
    rewrite Z.mod_pow2_bits_low, Z.lnot_spec by lia.
    replace ((32 * (n / 32) + j) / 32) with (n / 32)
      by (apply (Z.div_unique _ 32 (n / 32) j); lia).
    replace ((32 * (n / 32) + j) mod 32) with j
      by (apply (Z.mod_unique _ 32 (n / 32) j); lia).
    done.
  - intros Hne. rewrite alive_reset_test by done.
    rewrite bool_decide_eq_false_2 by (intros [? _]; done).
    apply andb_true_r.
Qed.

Section TwiceStep.
Context `{Params}.

Lemma twice_test_val bits u :
  twice_test bits u = if twice bits u then 2 else 0.
Proof.
  pose proof (twice_test_twice bits u) as Ht.
  assert (Hv : twice_test bits u = 0 \/ twice_test bits u = 2).
  { unfold twice_test.
    set (x := Z.shiftr (rd bits (u / 16)) (2 * (u mod 16))).
    assert (Hbits : Z.land x 2 = if Z.testbit x 1 then 2 else 0).
    { apply Z.bits_inj'. intros k Hk. rewrite Z.land_spec.
      change 2 with (2 ^ 1) at 1. rewrite Z.pow2_bits_eqb by lia.
      destruct (Z.eqb_spec 1 k) as [<-|Hne].
      - rewrite andb_true_r. destruct (Z.testbit x 1); [done|].
        by rewrite Z.bits_0.
      - rewrite andb_false_r. destruct (Z.testbit x 1); [|by rewrite Z.bits_0].
        change 2 with (2 ^ 1). rewrite Z.pow2_bits_eqb by lia.
        symmetry. by apply Z.eqb_neq. }
    rewrite Hbits. destruct (Z.testbit x 1); auto. }
  destruct (twice bits u); simpl in Ht.
  - apply Z.eqb_neq in Ht. lia.
  - apply Z.eqb_eq in Ht. done.
Qed.

(** X21: One call of [set], made without interruption on counters in any
    state: the counters of the other nodes keep their value, and the
    node itself tests as seen twice afterwards exactly when it had been
    seen before the call. *)
Theorem twice_set_counts_one_node (bits : list Z) (u v : Z) :
  node_ok (length bits) u -> 0 <= v ->
  length (twice_set_set bits u) = length bits /\
  (v <> u -> twice_test (twice_set_set bits u) v = twice_test bits v) /\
  (twice_test (twice_set_set bits u) u <> 0 <->
   once bits u = true \/ twice bits u = true) /\
  once (twice_set_set bits u) u = true.
Proof.
  intros Hu Hv. split; [apply twice_set_set_length|].
  destruct (twice_set_set_fields bits u v Hu Hv) as [Hov Htv].
  destruct (twice_set_set_fields bits u u Hu ltac:(destruct Hu; lia))
    as [Hou Htu].
  split; [|split].
  - intros Hne. rewrite !twice_test_val, Htv.
    rewrite bool_decide_eq_false_2 by done. simpl. by rewrite orb_false_r.
  - rewrite twice_test_val, Htu. rewrite bool_decide_eq_true_2 by done.
    simpl. destruct (twice bits u), (once bits u); simpl; split;
      try done; try lia; try tauto; intros [?|?]; done.
  - rewrite Hou, bool_decide_eq_true_2 by done. apply orb_true_r.
Qed.

End TwiceStep.

Section Sizes.
Context `{Params} `{EdgeGen}.

(** X23: The sizes as the source plans them: with [IDXSHIFT] at its default
    the pointer table takes as many bytes as the counters, the counters
    have two bits for every node of a partition, and the table has at
    least one slot. *)
Theorem table_and_counters_same_size :
  trim_ok -> IDXSHIFT = default_IDXSHIFT PART_BITS ->
  8 * CUCKOO_SIZE = 4 * TWICE_WORDS /\
  16 * TWICE_WORDS = ONCE_BITS /\
  1 <= CUCKOO_SIZE /\ table_ok.
Proof.
  intros Hok Hidx. unfold default_IDXSHIFT in Hidx.
  pose proof Hok as (Hp & Hs & H32).
  assert (Htab : table_ok) by (unfold table_ok; lia).
  pose proof (ONCE_BITS_eq Hok) as Honce.
  assert (Hw : 0 <= TWICE_WORDS).
  { unfold TWICE_WORDS, ONCE_BITS. apply Z.div_pos; [|lia].
    rewrite Z.shiftr_div_pow2 by lia. rewrite HALFSIZE_eq by done.
    assert (0 <= 2 ^ (SIZESHIFT - 1) / 2 ^ PART_BITS); [|lia].
    apply Z.div_pos; [apply Z.pow_nonneg; lia | apply Z.pow_pos_nonneg; lia]. }
  rewrite Z2Nat.id in Honce by done.
  assert (Hcs : CUCKOO_SIZE = 2 ^ (SIZESHIFT - PART_BITS - 6)).
  { rewrite CUCKOO_SIZE_eq by done. f_equal. lia. }
  assert (Hob : ONCE_BITS = 2 ^ (SIZESHIFT - 1 - PART_BITS)).
  { unfold ONCE_BITS. rewrite HALFSIZE_eq by done.
    rewrite Z.shiftr_div_pow2, <- Z.pow_sub_r by lia. done. }
  assert (Hpow : 2 ^ (SIZESHIFT - 1 - PART_BITS)
                 = 32 * 2 ^ (SIZESHIFT - PART_BITS - 6)).
  { replace (SIZESHIFT - 1 - PART_BITS) with (5 + (SIZESHIFT - PART_BITS - 6))
      by lia.
    rewrite Z.pow_add_r by lia. done. }
  assert (0 < 2 ^ (SIZESHIFT - PART_BITS - 6)) by (apply Z.pow_pos_nonneg; lia).
  split; [lia|]. split; [lia|]. split; [lia | done].
Qed.

(** X22: Every nonce that the inner loop of a kernel reaches for a block is an
    alive nonce of that block, below [HALFSIZE], with its bit in the word
    of the block; its end point is a node below [HALFSIZE], and the
    counters of that node lie inside the [nonleaf] array. *)
Theorem kernel_indices_in_bounds (ctx : siphash_ctx) (a : list Z)
    (uorv b n : Z) :
  trim_ok -> b ∈ all_blocks -> n ∈ alive32_list (alive_block a b) b ->
  (0 <= n < HALFSIZE /\ n / 32 = b / 32 /\ 0 <= b / 32 < HALFSIZE / 32 /\
   alive_test a n = true) /\
  0 <= dipnode ctx n uorv <= NODEMASK /\
  0 <= Z.shiftr (dipnode ctx n uorv) PART_BITS / 16 < TWICE_WORDS.
Proof.
  intros Hok Hb Hn. pose proof (HALFSIZE_blocks Hok) as HH.
  apply elem_of_all_blocks in Hb as (q & Hq & ->).
  rewrite alive32_list_alive in Hn by lia.
  apply list_elem_of_filter in Hn as [Ha Hn%elem_of_seqZ].
  replace (32 * q / 32) with q by (rewrite Z.mul_comm, Z.div_mul; lia).
  split; [|split].
  - split; [lia|]. split.
    + symmetry. apply (Z.div_unique n 32 q (n - 32 * q)); lia.
    + split; [done|]. by destruct (alive_test a n).
  - unfold dipnode. cbv zeta.
    match goal with |- context [Z.land ?x NODEMASK] => generalize x end.
    intros x. unfold NODEMASK. rewrite HALFSIZE_eq by done.
    destruct Hok as (? & ? & ?).
    replace (2 ^ (SIZESHIFT - 1) - 1) with (Z.ones (SIZESHIFT - 1))
      by (rewrite Z.ones_equiv; lia).
    rewrite Z.land_ones by lia.
    pose proof (Z.mod_pos_bound x (2 ^ (SIZESHIFT - 1))
                  ltac:(apply Z.pow_pos_nonneg; lia)).
    rewrite Z.ones_equiv. lia.
  - pose proof (dipnode_node_ok ctx n uorv Hok) as [Hlo Hhi].
    set (u := Z.shiftr (dipnode ctx n uorv) PART_BITS) in *.
    assert (Hw : 0 <= TWICE_WORDS).
    { destruct (Z.le_gt_cases 0 TWICE_WORDS); [done|].
      rewrite Z2Nat.nonpos in Hhi by lia. simpl in Hhi. lia. }
    rewrite Z2Nat.id in Hhi by done.
    split; [apply Z.div_pos; lia|]. apply Z.div_lt_upper_bound; lia.
Qed.

Lemma mem_unit_spec fuel b unit :
  0 <= b < 1024 * 1024 ^ Z.of_nat fuel ->
  exists j, 0 <= j <= Z.of_nat fuel /\
    mem_unit fuel b unit = (b / 1024 ^ j, unit + j) /\
    b / 1024 ^ j < 1024 /\ (0 < j -> 1 <= b / 1024 ^ j).
Proof.
  revert b unit. induction fuel as [|fuel IH]; intros b unit Hb; simpl.
  - change (1024 ^ 0) with 1 in Hb. destruct (Z.leb_spec 1024 b); [lia|].
    exists 0. rewrite Z.div_1_r, Z.add_0_r. repeat split; lia.
  - destruct (Z.leb_spec 1024 b) as [Hbig|Hsmall].
    + rewrite Z.shiftr_div_pow2 by lia. change (2 ^ 10) with 1024.
      destruct (IH (b / 1024) (unit + 1)) as (j & Hj & Hrun & Hlt & Hpos).
      { split; [apply Z.div_pos; lia|].
        apply Z.div_lt_upper_bound; [lia|].
        replace (Z.of_nat (S fuel)) with (Z.succ (Z.of_nat fuel)) in Hb by lia.
        rewrite Z.pow_succ_r in Hb by lia. lia. }
      exists (j + 1).
      assert (Hdiv : b / 1024 ^ (j + 1) = b / 1024 / 1024 ^ j).
      { rewrite Z.pow_add_r by lia. change (1024 ^ 1) with 1024.
        rewrite Z.mul_comm, Z.div_div; [done|lia|].
        apply Z.pow_pos_nonneg; lia. }
      rewrite Hdiv. split; [lia|]. split.
      { rewrite Hrun. f_equal. lia. }
      split; [done|]. intros _.
      destruct (decide (j = 0)) as [->|]; [|apply Hpos; lia].
      change (1024 ^ 0) with 1. rewrite Z.div_1_r.
      apply Z.div_le_lower_bound; lia.
    + exists 0. change (1024 ^ 0) with 1. rewrite Z.div_1_r, Z.add_0_r.
      repeat split; lia.
Qed.

(** X24: The memory figures of the banner: the loop that scales a byte count
    of at most 64 bits stops after at most six steps with a figure below
    1024, and for the two byte counts of the miner, which are powers of
    two, figure and unit give the count exactly, with a unit no larger
    than mega. *)
Theorem mem_unit_exact (fuel : nat) (x : Z) :
  (6 <= fuel)%nat -> 0 <= x < 2 ^ 64 ->
  exists j b, mem_unit fuel x 0 = (b, j) /\ 0 <= j <= 6 /\
    b = x / 1024 ^ j /\ b < 1024 /\ (0 < j -> 1 <= b) /\
    (trim_ok -> x = HALFSIZE / 8 \/ x = TWICE_WORDS * 4 ->
     b * 1024 ^ j = x /\ j <= 2).
Proof.
  intros Hfuel Hx.
  assert (Hgen : forall f b u, (6 <= f)%nat -> 0 <= b < 2 ^ 64 ->
            mem_unit f b u = mem_unit 6 b u).
  { assert (Hsix : forall k f b u, (k <= f)%nat ->
              0 <= b < 1024 * 1024 ^ Z.of_nat k ->
              mem_unit f b u = mem_unit k b u).
    { induction k as [|k IH]; intros f b u Hf Hb.
      - change (1024 ^ Z.of_nat 0) with 1 in Hb.
        destruct f; simpl; destruct (Z.leb_spec 1024 b); (done || lia).
      - destruct f as [|f]; [lia|]. simpl.
        destruct (Z.leb_spec 1024 b); [|done]. apply IH; [lia|].
        rewrite Z.shiftr_div_pow2 by lia. change (2 ^ 10) with 1024.
        split; [apply Z.div_pos; lia|].
        apply Z.div_lt_upper_bound; [lia|].
        replace (Z.of_nat (S k)) with (Z.succ (Z.of_nat k)) in Hb by lia.
        rewrite Z.pow_succ_r in Hb by lia. lia. }
    intros f b u Hf Hb. apply Hsix; [done|].
    change (1024 * 1024 ^ Z.of_nat 6) with (2 ^ 70).
    change (2 ^ 64) with 18446744073709551616 in Hb.
    change (2 ^ 70) with 1180591620717411303424. lia. }
  rewrite Hgen by done.
  destruct (mem_unit_spec 6 x 0) as (j & Hj & Hrun & Hlt & Hpos).
  { change (1024 * 1024 ^ Z.of_nat 6) with 1180591620717411303424.
    change (2 ^ 64) with 18446744073709551616 in Hx. lia. }
  exists j, (x / 1024 ^ j). rewrite Hrun. split; [done|].
  split; [lia|]. split; [done|]. split; [done|]. split; [done|].
  intros Hok Hcase.
  assert (Hpow2 : exists e, 0 <= e <= 29 /\ x = 2 ^ e).
  { pose proof Hok as (Hp & Hs & H32). destruct Hcase as [-> | ->].
    - exists (SIZESHIFT - 4). split; [lia|]. rewrite HALFSIZE_eq by done.
      replace (SIZESHIFT - 1) with (3 + (SIZESHIFT - 4)) by lia.
      rewrite Z.pow_add_r by lia. change (2 ^ 3) with 8.
      rewrite Z.mul_comm, Z.div_mul by lia. done.
    - exists (SIZESHIFT - PART_BITS - 3). split; [lia|].
      pose proof (ONCE_BITS_eq Hok) as Honce.
      assert (Hw : 0 <= TWICE_WORDS).
      { destruct (Z.le_gt_cases 0 TWICE_WORDS); [done|].
        rewrite Z2Nat.nonpos in Honce by lia. simpl in Honce.
        assert (0 < 2 ^ (SIZESHIFT - 1 - PART_BITS))
          by (apply Z.pow_pos_nonneg; lia). lia. }
      rewrite Z2Nat.id in Honce by done.
      replace (SIZESHIFT - 1 - PART_BITS) with (2 + (SIZESHIFT - PART_BITS - 3))
        in Honce by lia.
      rewrite Z.pow_add_r in Honce by lia. change (2 ^ 2) with 4 in Honce.
      lia. }
  destruct Hpow2 as (e & He & ->).
  assert (Hj10 : 10 * j <= e).
  { destruct (decide (j = 0)) as [->|Hj0]; [lia|].
    specialize (Hpos ltac:(lia)).
    destruct (Z.le_gt_cases (10 * j) e) as [|Hgt]; [done|]. exfalso.
    assert (2 ^ e < 1024 ^ j).
    { change 1024 with (2 ^ 10). rewrite <- Z.pow_mul_r by lia.
      apply Z.pow_lt_mono_r; lia. }
    rewrite Z.div_small in Hpos; [lia|].
    split; [apply Z.pow_nonneg; lia | done]. }
  split; [|lia].
  change 1024 with (2 ^ 10). rewrite <- Z.pow_mul_r by lia.
  rewrite <- Z.pow_sub_r by lia. rewrite <- Z.pow_add_r by lia.
  f_equal. lia.
Qed.

End Sizes.

(** * Runs on the small configurations *)

(** C9 as stated fails: with 33 size bits and 24 partition bits the drift
    bound is 2; the third key of natural slot 0 is stored two slots away,
    and [set] returns as usual. *)
Lemma insert_past_drift_bound_returns :
  exists c c',
    @cuckoo_sets wide [(1, 5); (2, 6)] (@cuckoo_new wide) = Some c /\
    @probe_dist wide c 3 = Some 2%nat /\
    ~ (2 < @MAXDRIFT wide) /\
    @cuckoo_set wide (@probe_fuel wide) c 3 7 = Some c' /\
    rd c' 2 = @entry wide 3 7.
Proof.
  eexists. eexists. split; [vm_compute; reflexivity|].
  split; [vm_compute; reflexivity|].
  split; [vm_compute; intros [=]|].
  split; vm_compute; reflexivity.
Qed.

Lemma drift_checked_on_hit_only_witness :
  @cuckoo_lookup wide (@probe_fuel wide)
     [@entry wide 1 5; @entry wide 2 6; @entry wide 3 7; 0; 0; 0; 0; 0] 3
  = Some DriftAssert.
Proof.
  refine (eq_trans (proj2 (@drift_checked_on_hit_only wide
     [@entry wide 1 5; @entry wide 2 6; @entry wide 3 7; 0; 0; 0; 0; 0]
     3 7 2%nat _ _ _)) _).
  - vm_compute. intuition discriminate.
  - vm_compute. split; [intros [=] | reflexivity].
  - vm_compute. reflexivity.
  - vm_compute. reflexivity.
Defined.

Lemma cuckoo_set_then_lookup_witness :
  exists c',
    @cuckoo_set toy (@probe_fuel toy)
       (wr (wr (@cuckoo_new toy) 1 (@entry toy 64 3)) 2 (@entry toy 65 5))
       66 9 = Some c' /\
    @cuckoo_lookup toy (@probe_fuel toy) c' 66 = Some (Found 9).
Proof.
  destruct (@cuckoo_set_then_lookup toy [(64, 3); (65, 5)]
              (wr (wr (@cuckoo_new toy) 1 (@entry toy 64 3)) 2 (@entry toy 65 5))
              66 9 67 2%nat) as (c' & Hset & Hlook & _).
  - vm_compute. intuition discriminate.
  - repeat constructor; vm_compute; congruence.
  - vm_compute. reflexivity.
  - vm_compute. split; reflexivity.
  - vm_compute. split; [intros [=] | reflexivity].
  - vm_compute. reflexivity.
  - vm_compute. reflexivity.
  - exists c'. split; assumption.
Defined.

Lemma cuckoo_set_terminates_iff_witness :
  @table_ok tiny /\
  forall fuel, @cuckoo_set tiny fuel [@entry tiny 1 5] 2 7 = None.
Proof.
  assert (Hok : @table_ok tiny) by (vm_compute; intuition discriminate).
  split; [exact Hok|].
  refine (proj1 (proj2 (@cuckoo_set_terminates_iff tiny [@entry tiny 1 5] 2 7)
                   Hok _) _).
  - vm_compute. split; [intros [=] | reflexivity].
  - intros i Hi. change (@CUCKOO_SIZE tiny) with 1 in Hi.
    assert (i = 0) as -> by lia. vm_compute. reflexivity.
Defined.

(** C4 as stated fails for [PROOFSIZE = 2]: the nonces 3 and 5 are two
    copies of the edge 2 - 3; both match the one collected edge, and the
    edge is still in the pending set after each match. *)
Lemma two_cycle_edge_stays_pending :
  @solution_scan pair pair_gen toy_ctx (only_alive 16 [3; 5]) 5 {[ (2, 3) ]}
  = ([ENonce 5; ENonce 5], Ret ({[ (2, 3) ]}, 2)).
Proof. vm_compute. reflexivity. Qed.

(** C1 on a graph with one four-cycle, made of the nonces 3, 5, 8 and 13:
    the cycle is closed by nonce 13, all four edges are matched, and what
    is printed after the marker is the closing nonce, four times. *)
Theorem solution_prints_closing_nonce :
  @main_host toy toy_gen toy_ctx (only_alive 16 [3; 5; 8; 13]) =
    ([EFinalLoad 25; ECycleFound 4 2; ESolution;
      ENonce 13; ENonce 13; ENonce 13; ENonce 13; ENewline], Ret 0) /\
  @matching toy_gen toy_ctx (only_alive 16 [3; 5; 8; 13])
     {[ (2, 3); (2, 5); (4, 3); (4, 5) ]} (seqZ 0 (@HALFSIZE toy))
    = [3; 5; 8; 13].
Proof. split; vm_compute; reflexivity. Qed.


(** C6 as stated fails for a key that was never set.  With 33 size
    bits a table word keeps 31 bits of the key: after four [set] calls
    for the nodes 1, 2 and 3 the node [2^31 + 3], never set, is answered
    with 5, the pointer of node 3.  And on a table that is full, here the
    one slot of the smallest graph after [set(1, 5)], the lookup of
    node 2 never returns. *)
Lemma unset_key_lookup_not_zero :
  (exists c,
     @cuckoo_sets wide [(1, 11); (2, 12); (3, 5); (1, 11)] (@cuckoo_new wide)
       = Some c /\
     0 < 2 ^ 31 + 3 < @SIZE wide /\
     ((2 ^ 31 + 3) ∉ [(1, 11); (2, 12); (3, 5); (1, 11)].*1) /\
     @cuckoo_lookup wide (@probe_fuel wide) c (2 ^ 31 + 3) = Some (Found 5)) /\
  @cuckoo_sets tiny [(1, 5)] (@cuckoo_new tiny) = Some [69] /\
  forall fuel, @cuckoo_lookup tiny fuel [69] 2 = None.
Proof.
  split; [|split].
  - eexists. split; [vm_compute; reflexivity|].
    split; [vm_compute; intuition discriminate|].
    split; [|vm_compute; reflexivity].
    intros Hin. simpl in Hin. rewrite !elem_of_cons in Hin.
    destruct Hin as [Hin|[Hin|[Hin|[Hin|Hin]]]];
      try discriminate Hin; by apply elem_of_nil in Hin.
  - vm_compute. reflexivity.
  - intros fuel. change (@lookup_probe tiny fuel [69] 2 0 = None).
    induction fuel as [|fuel IH]; [reflexivity|]. exact IH.
Qed.


Lemma path_trail_overflow_witness :
  @path small ring3 1 (replicate 8 0) =
    ([EIllegalCycle 3], Halt (Exit 0)).
Proof.
  refine (proj2 (@path_trail_overflow small ring3
                   (replicate 8 0) [0; 1; 2; 3; 1; 2; 3; 1] 1 2 7 _ _ _ _)
                5 _ _ _).
  - vm_compute. intuition discriminate.
  - do 7 (eapply rtc_l;
          [apply path_step_next;
           [intros [=] | vm_compute; reflexivity | vm_compute; reflexivity]|]).
    apply rtc_refl.
  - intros [=].
  - vm_compute. intros [=].
  - vm_compute. intuition discriminate.
  - vm_compute. reflexivity.
  - intros k' Hk'. change (@MAXPATHLEN small) with 8 in Hk'.
    assert (k' = 6 \/ k' = 7) as [-> | ->] by lia; vm_compute; intros [=].
Defined.



Lemma alive_only_shrinks_witness :
  (@alive_count tiny [3590812152%Z] <= @alive_count tiny (@alive_new tiny))%nat.
Proof.
  refine (proj2 (proj2 (proj2 (proj2
    (@alive_only_shrinks tiny toy_gen toy_ctx 1 1
       (fun _ _ _ _ => @in_turn tiny 1) (@alive_new tiny) [3590812152] 3 3
       _ _))))).
  - lia.
  - vm_compute. reflexivity.
Defined.

Lemma twice_set_saturates_witness :
  twice_test (foldl twice_set_set (@twice_reset tiny) [5; 7; 5]) 5 <> 0
    <-> (2 <= occ 5%Z [5%Z; 7%Z; 5%Z])%nat.
Proof.
  refine (proj1 (@twice_set_saturates tiny [5; 7; 5]
            [ {| pend := None; todo := [5; 7] |};
              {| pend := None; todo := [5] |} ]
            [0; 1; 1; 0]%nat 5 _ _ _ _ _)).
  - repeat constructor; vm_compute; congruence.
  - vm_compute. split; [intros [=] | reflexivity].
  - repeat constructor.
  - repeat constructor; vm_compute; congruence.
  - vm_compute. reflexivity.
Defined.

Lemma lookup_never_asserts_witness :
  exists v, Found 5 = Found v /\ 0 <= v < @SIZE tiny.
Proof.
  apply (@lookup_never_asserts tiny 1 [@entry tiny 1 5] 1 (Found 5)).
  - vm_compute. intuition discriminate.
  - vm_compute. intros [=].
  - vm_compute. reflexivity.
Defined.

Lemma lookup_terminates_iff_witness :
  (exists w, @cuckoo_lookup small 2 line3 3 = Some (Found w)) <->
  is_Some (@cuckoo_set small 2 line3 3 1).
Proof.
  refine (proj1 (@lookup_terminates_iff small 2 line3 3 1 _ _ _ _)).
  - vm_compute. intuition discriminate.
  - vm_compute. intros [=].
  - vm_compute. split; [intros [=] | reflexivity].
  - reflexivity.
Defined.

Lemma set_writes_one_slot_witness :
  length [0; @entry small 1 2; @entry small 2 3; @entry small 3 1]
    = length line3 /\
  exists i, 0 <= i < @CUCKOO_SIZE small /\
    (rd line3 i = 0 \/ @key_of small (rd line3 i) = Z.land 3 (@KEYMASK small)) /\
    rd [0; @entry small 1 2; @entry small 2 3; @entry small 3 1] i
      = @entry small 3 1 /\
    forall j, 0 <= j -> j <> i ->
      rd [0; @entry small 1 2; @entry small 2 3; @entry small 3 1] j
        = rd line3 j.
Proof.
  apply (@set_writes_one_slot small 4 line3).
  - vm_compute. intuition discriminate.
  - vm_compute. split; [intros [=] | reflexivity].
  - reflexivity.
  - vm_compute. reflexivity.
Defined.

Lemma table_refines_map_witness :
  exists c, @cuckoo_sets toy [(64, 3); (65, 5); (64, 7)] (@cuckoo_new toy)
              = Some c /\
    @occupied c = size (sets_map ∅ [(64, 3); (65, 5); (64, 7)]) /\
    forall k, 0 <= k < @SIZE toy ->
      @cuckoo_lookup toy (@probe_fuel toy) c k
        = Some (Found (default 0 (sets_map ∅ [(64, 3); (65, 5); (64, 7)] !! k))).
Proof.
  apply (@table_refines_map toy).
  - vm_compute. intuition discriminate.
  - vm_compute. intros [=].
  - repeat constructor; vm_compute; congruence.
  - vm_compute. reflexivity.
Defined.

Lemma path_returns_chain_witness :
  rd [0; 1; 2; 3; 0; 0; 0; 0] 1 = 1 /\
  @lookupM small line3 (rd [0; 1; 2; 3; 0; 0; 0; 0] 3) = mret 0.
Proof.
  refine (proj1 (proj2 (proj2 (proj2 (proj2 (proj2
    (@path_returns_chain small line3 (replicate 8 0) [0; 1; 2; 3; 0; 0; 0; 0]
       1 3 [] _ _ _)))))) _).
  - vm_compute. intros [=].
  - vm_compute. intros [=].
  - vm_compute. reflexivity.
  - reflexivity.
Defined.

Lemma path_always_stops_witness :
  @path_loop small 20 ring3 (replicate 8 0) 1 0
  = @path small ring3 1 (replicate 8 0).
Proof.
  refine (proj2 (@path_always_stops small ring3 (replicate 8 0) 1 20 _) _).
  - vm_compute. intuition discriminate.
  - vm_compute. intros [=].
Defined.

Lemma join_first_meeting_witness :
  exists j, 0 <= j <= 2 /\
    join 2 [4; 3; 2; 9] [5; 2; 9] 1 0 = (1 + j, 0 + j) /\
    rd [4; 3; 2; 9] (1 + j) = rd [5; 2; 9] (0 + j) /\
    forall i, 0 <= i < j -> rd [4; 3; 2; 9] (1 + i) <> rd [5; 2; 9] (0 + i).
Proof.
  apply (join_first_meeting [4; 3; 2; 9] [5; 2; 9] 3 2).
  - lia.
  - lia.
  - reflexivity.
Defined.

Lemma relink_reverses_witness :
  exists c',
    @relink toy [0; 65543; 66565; 0; 0; 0; 0; 0; 0; 0; 0; 0; 0; 0; 0; 0]
            [9; 64; 7] 2 = mret c' /\
    (forall i, 0 <= i < Z.of_nat 2 ->
       @cuckoo_lookup toy (@probe_fuel toy) c' (rd [9; 64; 7] (i + 1))
         = Some (Found (rd [9; 64; 7] i))) /\
    (forall k, 0 <= k < @SIZE toy ->
       (forall i, 0 < i <= Z.of_nat 2 -> rd [9; 64; 7] i <> k) ->
       @cuckoo_lookup toy (@probe_fuel toy) c' k
         = @cuckoo_lookup toy (@probe_fuel toy)
             [0; 65543; 66565; 0; 0; 0; 0; 0; 0; 0; 0; 0; 0; 0; 0; 0] k).
Proof.
  apply (@relink_reverses toy [(64, 3); (65, 5); (64, 7)]).
  - vm_compute. intuition discriminate.
  - vm_compute. intros [=].
  - repeat constructor; vm_compute; congruence.
  - vm_compute. reflexivity.
  - intros i Hi. assert (i = 1 \/ i = 2) as [-> | ->] by lia;
      vm_compute; split; reflexivity.
  - vm_compute. split; [intros [=] | reflexivity].
  - intros i j Hij. assert (i = 1 /\ j = 2) as [-> ->] by lia.
    vm_compute. intros [=].
  - vm_compute. reflexivity.
Defined.

Lemma toy_edges_in_range x :
  0 <= (@sipedge toy_gen toy_ctx x).1 < @SIZE toy /\
  0 < (@sipedge toy_gen toy_ctx x).2 < @SIZE toy.
Proof.
  simpl. unfold toy_edge.
  repeat (case_match; [vm_compute; intuition discriminate|]).
  vm_compute. intuition discriminate.
Qed.


Lemma find_cycles_keeps_forest_witness :
  (forall len,
     EIllegalCycle len ∉ (@find_cycles toy toy_gen toy_ctx four_cycle).1) /\
  (forall st, (@find_cycles toy toy_gen toy_ctx four_cycle).2 = Ret st ->
     forall k, 0 <= k < @SIZE toy -> rtc (@follows toy (cuckoo st)) k 0).
Proof.
  apply (@find_cycles_keeps_forest toy toy_gen toy_ctx four_cycle).
  - vm_compute. intuition discriminate.
  - vm_compute. intros [=].
  - intros x _. apply toy_edges_in_range.
  - vm_compute. reflexivity.
Defined.


Lemma main_host_status_zero_witness :
  exists out,
    (@main_host toy toy_gen toy_ctx four_cycle).1
    = EFinalLoad (@final_load toy four_cycle) :: out.
Proof.
  refine (proj2 (proj2 (@main_host_status_zero toy toy_gen toy_ctx four_cycle
                          _ _ _ _))).
  - vm_compute. intuition discriminate.
  - vm_compute. intuition discriminate.
  - vm_compute. reflexivity.
  - intros x _. destruct (toy_edges_in_range x) as [? ?]. split; lia.
Defined.


Lemma trim_pass_kills_leaves_witness :
  alive_test [1376219464] 3
  = alive_test (@alive_new tiny) 3 &&
    negb ((Z.land (@dipnode tiny toy_gen toy_ctx 3 0) (@PART_MASK tiny) =? 0) &&
          bool_decide (@degree tiny toy_gen toy_ctx (@alive_new tiny) 0
                         (@dipnode tiny toy_gen toy_ctx 3 0) < 2)%nat).
Proof.
  refine (proj1 (@trim_pass_kills_leaves tiny toy_gen toy_ctx 1
                   (fun _ _ _ _ => @in_turn tiny 1) 0 0 0
                   (@alive_new tiny) [1376219464] _ _ _ _) 3 _).
  - vm_compute. intuition discriminate.
  - vm_compute. intuition discriminate.
  - vm_compute. reflexivity.
  - vm_compute. reflexivity.
  - vm_compute. split; [intros [=] | reflexivity].
Defined.

Lemma trim_keeps_cycles_witness :
  alive_test [4138201592] 9 = true /\ alive_test [4138201592] 24 = true.
Proof.
  assert (Hkeep : forall n, n ∈ [9; 24] -> alive_test [4138201592] n = true).
  { apply (@trim_keeps_cycles tiny toy_gen toy_ctx 1 2
             (fun _ _ _ _ => @in_turn tiny 1) (@alive_new tiny)).
    - vm_compute. intuition discriminate.
    - lia.
    - vm_compute. reflexivity.
    - intros n Hn. apply elem_of_cons in Hn as [->|Hn];
        [|apply list_elem_of_singleton in Hn as ->];
        vm_compute; intuition discriminate.
    - intros n uorv Hn Huorv. apply elem_of_cons in Hn as [->|Hn].
      + exists 24. split; [by right; left|]. split; [lia|].
        destruct Huorv as [-> | ->]; vm_compute; reflexivity.
      + apply list_elem_of_singleton in Hn as ->.
        exists 9. split; [by left|]. split; [lia|].
        destruct Huorv as [-> | ->]; vm_compute; reflexivity.
    - vm_compute. reflexivity. }
  split; apply Hkeep; [by left | by right; left].
Defined.

Lemma trimming_stable_witness :
  exists a',
    @trim tiny toy_gen toy_ctx 1 3 (fun _ _ _ _ => @in_turn tiny 1) [4278189567]
      = Some a' /\
    a' = [4278189567].
Proof.
  eexists. split; [vm_compute; reflexivity|].
  apply (@trimming_stable tiny toy_gen toy_ctx 1 1 3
           (fun _ _ _ _ => @in_turn tiny 1) (fun _ _ _ _ => @in_turn tiny 1)).
  - vm_compute. intuition discriminate.
  - vm_compute. intuition discriminate.
  - vm_compute. intuition discriminate.
  - vm_compute. reflexivity.
  - vm_compute. reflexivity.
  - vm_compute. reflexivity.
Defined.

Lemma thread_blocks_stride_witness :
  exists bs, @thread_blocks mid 2 1 = Some bs /\ NoDup bs /\
    forall x, x ∈ bs <->
      exists q, 0 <= q < @HALFSIZE mid / 32 /\ q mod 2 = 1 /\ x = 32 * q.
Proof.
  apply (@thread_blocks_stride mid 2 1).
  - vm_compute. intuition discriminate.
  - vm_compute. intuition discriminate.
  - lia.
Defined.

Lemma alive_block_agrees_with_test_witness :
  Z.testbit (alive_block [1376219464] 7) 3
  = alive_test [1376219464] (32 * (7 / 32) + 3).
Proof.
  refine (proj1 (proj2 (alive_block_agrees_with_test [1376219464] 7 9 3 _ _ _)));
    lia.
Defined.

Lemma twice_set_counts_one_node_witness :
  twice_test (twice_set_set [5; 0] 1) 1 <> 0 <->
  once [5; 0] 1 = true \/ twice [5; 0] 1 = true.
Proof.
  refine (proj1 (proj2 (proj2 (twice_set_counts_one_node [5; 0] 1 17 _ _)))).
  - vm_compute. intuition discriminate.
  - lia.
Defined.

Lemma table_and_counters_same_size_witness :
  8 * @CUCKOO_SIZE toy = 4 * @TWICE_WORDS toy /\
  16 * @TWICE_WORDS toy = @ONCE_BITS toy /\
  1 <= @CUCKOO_SIZE toy /\ @table_ok toy.
Proof.
  apply (@table_and_counters_same_size toy).
  - vm_compute. intuition discriminate.
  - reflexivity.
Defined.

Lemma kernel_indices_in_bounds_witness :
  0 <= @dipnode mid toy_gen toy_ctx 33 1 <= @NODEMASK mid /\
  0 <= Z.shiftr (@dipnode mid toy_gen toy_ctx 33 1) (@PART_BITS mid) / 16
    < @TWICE_WORDS mid.
Proof.
  refine (proj2 (@kernel_indices_in_bounds mid toy_gen toy_ctx (@alive_new mid)
                   1 32 33 _ _ _)).
  - vm_compute. intuition discriminate.
  - vm_compute. by right; left.
  - vm_compute. by right; left.
Defined.

Lemma mem_unit_exact_witness :
  exists j b, mem_unit 7 (@HALFSIZE toy / 8) 0 = (b, j) /\ 0 <= j <= 6 /\
    b = @HALFSIZE toy / 8 / 1024 ^ j /\ b < 1024 /\ (0 < j -> 1 <= b) /\
    (@trim_ok toy ->
     @HALFSIZE toy / 8 = @HALFSIZE toy / 8 \/
     @HALFSIZE toy / 8 = @TWICE_WORDS toy * 4 ->
     b * 1024 ^ j = @HALFSIZE toy / 8 /\ j <= 2).
Proof.
  apply (@mem_unit_exact toy 7 (@HALFSIZE toy / 8)).
  - lia.
  - vm_compute. split; [intros [=] | reflexivity].
Defined.
